(** * miniclawd: scheduler, message-bus queue and subagent loop

    A shallow embedding of the orchestration core of the assistant runtime:
    - the scheduler service (next-run computation, heartbeat gate, job
      execution, timer tick, listing, persistence),
    - [infrastructure/queue/message-bus.ts] (the [AsyncQueue] primitive),
    - [application/subagent.ts] (the bounded agent loop and its announcement),
    and, around them,
    - the rest of the scheduler's interface ([start], [stop], [addJob],
      [removeJob], [enableJob], [status], [triggerHeartbeat]) with the
      states a scheduler can reach,
    - the message bus (subscriptions, the dispatcher loop), the event
      constructors, the allow list of the channels and the Feishu channel's
      [onMessage],
    - the tool registry, the spawn tool and [SubagentManager.spawn], the
      file edit tool,
    - the skills loader (requirements, listing, loading, the summary).

    Conventions of the embedding.
    - A JavaScript [number] that holds a millisecond timestamp or an interval
      is an integer of [Z]; [NaN], the infinities and fractions are not
      represented.  Truthiness of a number is "different from zero".
    - A JavaScript string is a [string]: a sequence of code units below 256.
    - An optional field ([x?: T]) is an [option]; [undefined] is [None].
    - String-literal union types ([kind: "at" | "every" | "cron"]) are kept as
      strings and compared with [String.eqb], the way [===] compares them.
    - A computation that may throw returns a [Res]; stateful methods run in
      the monad [M], which threads the scheduler object and its environment
      and keeps the state reached when an exception is thrown.
    - Logging is not modelled.  Writing the store file always succeeds, and
      the file is represented by the JSON value it holds: what
      [JSON.parse] reads back is what [JSON.stringify] was given, with the
      properties whose value is [undefined] left out. *)

From Stdlib Require Import ZArith String Ascii Lia List Permutation Sorted.
From stdpp Require Import base list strings numbers pretty gmap.

Set Warnings "-register-all".
Local Open Scope string_scope.
Local Open Scope Z_scope.

(** ** JavaScript values, exceptions and truthiness *)

Module JS.

(** The values a callback can throw that the development distinguishes:
    primitives and [Error] instances (with their [name] and [message]).
    Objects whose conversion to a string itself throws are not
    represented. *)
Inductive JsValue : Type :=
| JsUndefined
| JsNull
| JsBool (b : bool)
| JsNumber (z : Z)
| JsString (s : string)
| JsError (name message : string).

(** [String(v)]: the primitive renderings and [Error.prototype.toString].
    A number is written in decimal notation, as JavaScript writes the
    integers below 1e21 in magnitude. *)
Definition String_ (v : JsValue) : string :=
  match v with
  | JsUndefined => "undefined"
  | JsNull => "null"
  | JsBool true => "true"
  | JsBool false => "false"
  | JsNumber z => pretty z
  | JsString s => s
  | JsError name message =>
      if String.eqb name "" then message
      else if String.eqb message "" then name
      else name ++ ": " ++ message
  end.

(** Outcome of a computation that may throw. *)
Inductive Res (A : Type) : Type :=
| Ok (a : A)
| Throw (e : JsValue).
Arguments Ok {A} a.
Arguments Throw {A} e.

(** [try { body } catch (e) { handler }] on pure computations. *)
Definition try_catch {A} (body : Res A) (handler : JsValue -> Res A) : Res A :=
  match body with
  | Ok a => Ok a
  | Throw e => handler e
  end.

Definition res_bind {A B} (r : Res A) (k : A -> Res B) : Res B :=
  match r with
  | Ok a => k a
  | Throw e => Throw e
  end.

(** Truthiness of the values the code tests with [!x], [x && ...], [x || d]. *)
Definition truthyNum (z : Z) : bool := negb (z =? 0).

Definition truthyOptNum (o : option Z) : bool :=
  match o with
  | Some z => truthyNum z
  | None => false
  end.

Definition truthyStr (s : string) : bool := negb (String.eqb s "").

Definition truthyOptStr (o : option string) : bool :=
  match o with
  | Some s => truthyStr s
  | None => false
  end.

End JS.
Import JS.

(** ** Scheduler data model ([core/types/scheduler.ts]) *)

Record Schedule : Type := mkSchedule {
  kind : string;
  atMs : option Z;
  everyMs : option Z;
  expr : option string;
  tz : option string
}.

Record JobPayload : Type := mkJobPayload {
  payload_kind : string;
  message : string;
  deliver : bool;
  channel : option string;
  to : option string
}.

Record JobState : Type := mkJobState {
  nextRunAtMs : option Z;
  lastRunAtMs : option Z;
  lastStatus : option string;
  lastError : option string
}.

Record ScheduledJob : Type := mkScheduledJob {
  id : string;
  name : string;
  enabled : bool;
  schedule : Schedule;
  payload : JobPayload;
  state : JobState;
  createdAtMs : Z;
  updatedAtMs : Z;
  deleteAfterRun : bool
}.

(** ** Next-run computation *)

(** The collaborators of the scheduler.
    - The [cron-parser] package: parsing an expression against a current
      date and an optional time zone either throws or yields an interval,
      whose [next()] either throws or yields the next occurrence.
    - [Date.now()]: the [n]-th read of the clock returns [clock n].
    - The callback given to the constructor ([None] when none was given).
      It is taken to act on the scheduler only through its outcome: it
      resolves or it throws a value. *)
Class Collaborators : Type := {
  CronInterval : Type;
  CronExpressionParser_parse : string -> Z -> option string -> Res CronInterval;
  interval_next : CronInterval -> Res Z;
  clock : nat -> Z;
  onJob : option (ScheduledJob -> Res unit)
}.

Section NextRun.

Context `{Collaborators}.

Definition computeNextRun (schedule : Schedule) (currentMs : Z) : Res (option Z) :=
  if String.eqb (kind schedule) "at" then
    Ok (match atMs schedule with
        | Some a => if truthyNum a && (a >? currentMs) then Some a else None
        | None => None
        end)
  else if String.eqb (kind schedule) "every" then
    match everyMs schedule with
    | None => Ok None
    | Some e =>
        if negb (truthyNum e) || (e <=? 0) then Ok None
        else Ok (Some (currentMs + e))
    end
  else if String.eqb (kind schedule) "cron" && truthyOptStr (expr schedule) then
    try_catch
      (res_bind
         (CronExpressionParser_parse (default "" (expr schedule)) currentMs (tz schedule))
         (fun interval => res_bind (interval_next interval) (fun t => Ok (Some t))))
      (fun _ => Ok None)
  else Ok None.

End NextRun.

(** ** The heartbeat file check ([isHeartbeatEmpty]) *)

Module Heartbeat.

(** White space removed by [String.prototype.trim], within the code units the
    embedding represents: TAB, LF, VT, FF, CR, SPACE and NBSP. *)
Definition isWhiteSpace (c : ascii) : bool :=
  let n := nat_of_ascii c in
  Nat.eqb n 9 || Nat.eqb n 10 || Nat.eqb n 11 || Nat.eqb n 12 ||
  Nat.eqb n 13 || Nat.eqb n 32 || Nat.eqb n 160.

Definition isEmptyStr (s : string) : bool :=
  match s with
  | EmptyString => true
  | String _ _ => false
  end.

Fixpoint trimStart (s : string) : string :=
  match s with
  | EmptyString => EmptyString
  | String c rest => if isWhiteSpace c then trimStart rest else s
  end.

Fixpoint trimEnd (s : string) : string :=
  match s with
  | EmptyString => EmptyString
  | String c rest =>
      let rest' := trimEnd rest in
      if isWhiteSpace c && isEmptyStr rest' then EmptyString else String c rest'
  end.

Definition trim (s : string) : string := trimEnd (trimStart s).

(** [s.startsWith(p)] *)
Fixpoint startsWith (s p : string) {struct p} : bool :=
  match p with
  | EmptyString => true
  | String a p' =>
      match s with
      | EmptyString => false
      | String b s' => Ascii.eqb b a && startsWith s' p'
      end
  end.

Definition newline : ascii := ascii_of_nat 10.

(** [content.split("\n")]: always at least one piece. *)
Fixpoint split_newline (s : string) : list string :=
  match s with
  | EmptyString => [EmptyString]
  | String c rest =>
      if Ascii.eqb c newline then EmptyString :: split_newline rest
      else match split_newline rest with
           | piece :: pieces => String c piece :: pieces
           | [] => [String c EmptyString]
           end
  end.

Definition skipPatterns : list string := ["- [ ]"; "* [ ]"; "- [x]"; "* [x]"].

(** [skipPatterns.has(s)] *)
Definition has (set : list string) (s : string) : bool :=
  existsb (String.eqb s) set.

(** The condition under which the loop body executes [continue]. *)
Definition lineSkipped (line : string) : bool :=
  let trimmed := trim line in
  negb (truthyStr trimmed) ||
  startsWith trimmed "#" ||
  startsWith trimmed "<!--" ||
  has skipPatterns trimmed.

(** The [for ... of] loop: [return false] at the first line that is not
    skipped, [return true] when the lines are exhausted. *)
Fixpoint isHeartbeatEmpty_loop (lines : list string) : bool :=
  match lines with
  | [] => true
  | line :: rest => if lineSkipped line then isHeartbeatEmpty_loop rest else false
  end.

Definition isHeartbeatEmpty (content : option string) : bool :=
  match content with
  | None => true
  | Some c =>
      if negb (truthyStr c) then true
      else isHeartbeatEmpty_loop (split_newline c)
  end.

(** *** The four kinds of inert line, stated on the line itself *)

Definition allWs (s : string) : Prop :=
  Forall (fun c => isWhiteSpace c = true) (list_ascii_of_string s).

Definition blankLine (l : string) : Prop := allWs l.

Definition headingLine (l : string) : Prop :=
  exists indent rest, l = indent ++ "#" ++ rest /\ allWs indent.

Definition htmlCommentLine (l : string) : Prop :=
  exists indent rest, l = indent ++ "<!--" ++ rest /\ allWs indent.

Definition bareCheckboxLine (l : string) : Prop :=
  exists indent marker trail,
    l = indent ++ marker ++ trail /\ allWs indent /\ allWs trail /\
    (marker = "- [ ]" \/ marker = "* [ ]" \/ marker = "- [x]" \/ marker = "* [x]").

Definition inertLine (l : string) : Prop :=
  blankLine l \/ headingLine l \/ htmlCommentLine l \/ bareCheckboxLine l.

End Heartbeat.

(** ** The scheduler object and its environment *)

(** Job objects are shared: [store.jobs], the [dueJobs] array of a tick and
    the argument of [executeJob] alias the same objects.  They live in a heap
    and are named by references. *)
Definition ref : Type := nat.

Record JobStore : Type := mkJobStore {
  version : Z;
  jobs : list ref
}.

(** A parsed JSON document ([JSON.parse] of the persisted text). *)
Inductive Json : Type :=
| JNull
| JBool (b : bool)
| JNum (z : Z)
| JStr (s : string)
| JArr (items : list Json)
| JObj (fields : list (string * Json)).

(** The file at [storePath]: missing, present but unreadable or not JSON
    (reading or parsing throws), or holding a JSON document. *)
Inductive StoreFile : Type :=
| NoFile
| NotJson
| JsonDoc (data : Json).

(** The file [HEARTBEAT.md] of the workspace. *)
Inductive HeartbeatFile : Type :=
| Absent
| Unreadable
| Content (text : string).

Record World : Type := mkWorld {
  (* the Scheduler instance *)
  store : option JobStore;
  timerTimeout : option nat;
  _running : bool;
  heartbeatJobId : option string;
  (* the heap of job objects *)
  heap : ref -> ScheduledJob;
  nextRef : ref;
  (* the environment: clock reads so far, pending timers (handle, delay),
     the two files, and the jobs the callback was invoked with *)
  ticks : nat;
  timers : list (nat * Z);
  nextTimer : nat;
  storeFile : StoreFile;
  heartbeatFile : HeartbeatFile;
  calls : list ScheduledJob
}.

Definition set_store (v : option JobStore) (w : World) : World :=
  mkWorld v (timerTimeout w) (_running w) (heartbeatJobId w) (heap w) (nextRef w)
          (ticks w) (timers w) (nextTimer w) (storeFile w) (heartbeatFile w) (calls w).

Definition set_timerTimeout (v : option nat) (w : World) : World :=
  mkWorld (store w) v (_running w) (heartbeatJobId w) (heap w) (nextRef w)
          (ticks w) (timers w) (nextTimer w) (storeFile w) (heartbeatFile w) (calls w).

Definition set_heap (v : ref -> ScheduledJob) (w : World) : World :=
  mkWorld (store w) (timerTimeout w) (_running w) (heartbeatJobId w) v (nextRef w)
          (ticks w) (timers w) (nextTimer w) (storeFile w) (heartbeatFile w) (calls w).

Definition set_nextRef (v : ref) (w : World) : World :=
  mkWorld (store w) (timerTimeout w) (_running w) (heartbeatJobId w) (heap w) v
          (ticks w) (timers w) (nextTimer w) (storeFile w) (heartbeatFile w) (calls w).

Definition set_ticks (v : nat) (w : World) : World :=
  mkWorld (store w) (timerTimeout w) (_running w) (heartbeatJobId w) (heap w) (nextRef w)
          v (timers w) (nextTimer w) (storeFile w) (heartbeatFile w) (calls w).

Definition set_timers (v : list (nat * Z)) (n : nat) (w : World) : World :=
  mkWorld (store w) (timerTimeout w) (_running w) (heartbeatJobId w) (heap w) (nextRef w)
          (ticks w) v n (storeFile w) (heartbeatFile w) (calls w).

Definition set_storeFile (v : StoreFile) (w : World) : World :=
  mkWorld (store w) (timerTimeout w) (_running w) (heartbeatJobId w) (heap w) (nextRef w)
          (ticks w) (timers w) (nextTimer w) v (heartbeatFile w) (calls w).

Definition set_calls (v : list ScheduledJob) (w : World) : World :=
  mkWorld (store w) (timerTimeout w) (_running w) (heartbeatJobId w) (heap w) (nextRef w)
          (ticks w) (timers w) (nextTimer w) (storeFile w) (heartbeatFile w) v.

(** Assignments to the fields of a job object. *)
Definition set_state (f : JobState -> JobState) (j : ScheduledJob) : ScheduledJob :=
  mkScheduledJob (id j) (name j) (enabled j) (schedule j) (payload j) (f (state j))
                 (createdAtMs j) (updatedAtMs j) (deleteAfterRun j).

Definition set_nextRunAtMs (v : option Z) : ScheduledJob -> ScheduledJob :=
  set_state (fun s => mkJobState v (lastRunAtMs s) (lastStatus s) (lastError s)).

Definition set_lastRunAtMs (v : option Z) : ScheduledJob -> ScheduledJob :=
  set_state (fun s => mkJobState (nextRunAtMs s) v (lastStatus s) (lastError s)).

Definition set_lastStatus (v : option string) : ScheduledJob -> ScheduledJob :=
  set_state (fun s => mkJobState (nextRunAtMs s) (lastRunAtMs s) v (lastError s)).

Definition set_lastError (v : option string) : ScheduledJob -> ScheduledJob :=
  set_state (fun s => mkJobState (nextRunAtMs s) (lastRunAtMs s) (lastStatus s) v).

Definition set_enabled (v : bool) (j : ScheduledJob) : ScheduledJob :=
  mkScheduledJob (id j) (name j) v (schedule j) (payload j) (state j)
                 (createdAtMs j) (updatedAtMs j) (deleteAfterRun j).

Definition set_updatedAtMs (v : Z) (j : ScheduledJob) : ScheduledJob :=
  mkScheduledJob (id j) (name j) (enabled j) (schedule j) (payload j) (state j)
                 (createdAtMs j) v (deleteAfterRun j).

(** *** The monad of scheduler methods *)

Definition M (A : Type) : Type := World -> Res A * World.

Definition ret {A} (a : A) : M A := fun w => (Ok a, w).

Definition bind {A B} (m : M A) (k : A -> M B) : M B :=
  fun w =>
    match m w with
    | (Ok a, w') => k a w'
    | (Throw e, w') => (Throw e, w')
    end.

(** [try { body } catch (e) { handler }]: the handler runs in the state the
    body had reached. *)
Definition tryM {A} (body : M A) (handler : JsValue -> M A) : M A :=
  fun w =>
    match body w with
    | (Ok a, w') => (Ok a, w')
    | (Throw e, w') => handler e w'
    end.

Definition liftRes {A} (r : Res A) : M A := fun w => (r, w).
Definition gets {A} (f : World -> A) : M A := fun w => (Ok (f w), w).
Definition modify (f : World -> World) : M unit := fun w => (Ok tt, f w).

Notation "'let*' x ':=' m 'in' k" := (bind m (fun x => k))
  (at level 10, x name, m at level 100, k at level 200).
Notation "m ';;' k" := (bind m (fun _ => k))
  (at level 100, k at level 200, right associativity).

(** [for (const x of xs) { await body(x) }] *)
Fixpoint forEachM {A} (xs : list A) (body : A -> M unit) : M unit :=
  match xs with
  | [] => ret tt
  | x :: rest => body x ;; forEachM rest body
  end.

Definition readJob (r : ref) : M ScheduledJob := gets (fun w => heap w r).

(** The heap after an assignment to fields of object [r]. *)
Definition updateAt (h : ref -> ScheduledJob) (r : ref)
  (f : ScheduledJob -> ScheduledJob) : ref -> ScheduledJob :=
  fun r' => if Nat.eqb r' r then f (h r') else h r'.

Definition modifyJob (r : ref) (f : ScheduledJob -> ScheduledJob) : M unit :=
  modify (fun w => set_heap (updateAt (heap w) r f) w).

(** [setTimeout] and [clearTimeout] of the event loop. *)
Definition setTimeout (delayMs : Z) : M nat :=
  fun w => (Ok (nextTimer w),
            set_timers (timers w ++ [(nextTimer w, delayMs)]) (S (nextTimer w)) w).

Definition clearTimeout (h : nat) : M unit :=
  modify (fun w =>
            set_timers (filter (fun t => negb (Nat.eqb (fst t) h)) (timers w))
                       (nextTimer w) w).

(** [a !== b] for a string and a [string | null]. *)
Definition strictNeqOpt (a : string) (b : option string) : bool :=
  match b with
  | Some s => negb (String.eqb a s)
  | None => true
  end.

(** *** Persistence format: [saveStore]'s field whitelist and [loadStore]'s
    defaults *)

(** A property whose value is [undefined] is left out by [JSON.stringify]. *)
Definition optField (k : string) (v : option Json) : list (string * Json) :=
  match v with
  | Some j => [(k, j)]
  | None => []
  end.

Definition scheduleToJson (s : Schedule) : Json :=
  JObj ([("kind", JStr (kind s))]
          ++ optField "atMs" (JNum <$> atMs s)
          ++ optField "everyMs" (JNum <$> everyMs s)
          ++ optField "expr" (JStr <$> expr s)
          ++ optField "tz" (JStr <$> tz s)).

Definition payloadToJson (p : JobPayload) : Json :=
  JObj ([("kind", JStr (payload_kind p));
         ("message", JStr (message p));
         ("deliver", JBool (deliver p))]
          ++ optField "channel" (JStr <$> channel p)
          ++ optField "to" (JStr <$> to p)).

Definition stateToJson (s : JobState) : Json :=
  JObj (optField "nextRunAtMs" (JNum <$> nextRunAtMs s)
          ++ optField "lastRunAtMs" (JNum <$> lastRunAtMs s)
          ++ optField "lastStatus" (JStr <$> lastStatus s)
          ++ optField "lastError" (JStr <$> lastError s)).

Definition jobToJson (j : ScheduledJob) : Json :=
  JObj [("id", JStr (id j));
        ("name", JStr (name j));
        ("enabled", JBool (enabled j));
        ("schedule", scheduleToJson (schedule j));
        ("payload", payloadToJson (payload j));
        ("state", stateToJson (state j));
        ("createdAtMs", JNum (createdAtMs j));
        ("updatedAtMs", JNum (updatedAtMs j));
        ("deleteAfterRun", JBool (deleteAfterRun j))].

Definition storeToJson (version : Z) (persistJobs : list ScheduledJob) : Json :=
  JObj [("version", JNum version); ("jobs", JArr (map jobToJson persistJobs))].

Definition lookupField (k : string) (fs : list (string * Json)) : option Json :=
  snd <$> find (fun kv => String.eqb (fst kv) k) fs.

Definition typeError : JsValue := JsError "TypeError" "Cannot read properties".

(** [v.k]: throws on [undefined] and [null], is [undefined] on the other
    values that are not objects. *)
Definition getProp (v : option Json) (k : string) : Res (option Json) :=
  match v with
  | None | Some JNull => Throw typeError
  | Some (JObj fs) => Ok (lookupField k fs)
  | Some _ => Ok None
  end.

(** [v?.k] for a [v] that was itself read without throwing. *)
Definition getPropOpt (v : option Json) (k : string) : option Json :=
  match v with
  | Some (JObj fs) => lookupField k fs
  | _ => None
  end.

Definition truthyJson (v : option Json) : bool :=
  match v with
  | None | Some JNull => false
  | Some (JBool b) => b
  | Some (JNum z) => truthyNum z
  | Some (JStr s) => truthyStr s
  | Some (JArr _) | Some (JObj _) => true
  end.

Definition nullish (v : option Json) : bool :=
  match v with
  | None | Some JNull => true
  | Some _ => false
  end.

(** The loader copies the parsed values as they are and TypeScript takes
    them to have the declared field types.  The typed records can hold only
    such values: a value of another JSON type is read as [undefined] (or as
    the empty string for the mandatory [id] and [name]), a boolean field by
    its truthiness. *)
Definition asString (v : option Json) : string :=
  match v with
  | Some (JStr s) => s
  | _ => ""
  end.

Definition asOptString (v : option Json) : option string :=
  match v with
  | Some (JStr s) => Some s
  | _ => None
  end.

Definition asOptNumber (v : option Json) : option Z :=
  match v with
  | Some (JNum z) => Some z
  | _ => None
  end.

Definition parseJob (j : Json) : Res ScheduledJob :=
  res_bind (getProp (Some j) "id") (fun j_id =>
  res_bind (getProp (Some j) "name") (fun j_name =>
  res_bind (getProp (Some j) "enabled") (fun j_enabled =>
  res_bind (getProp (Some j) "schedule") (fun j_schedule =>
  res_bind (getProp j_schedule "kind") (fun s_kind =>
  res_bind (getProp j_schedule "atMs") (fun s_atMs =>
  res_bind (getProp j_schedule "everyMs") (fun s_everyMs =>
  res_bind (getProp j_schedule "expr") (fun s_expr =>
  res_bind (getProp j_schedule "tz") (fun s_tz =>
  res_bind (getProp (Some j) "payload") (fun j_payload =>
  res_bind (getProp (Some j) "state") (fun j_state =>
  res_bind (getProp (Some j) "createdAtMs") (fun j_created =>
  res_bind (getProp (Some j) "updatedAtMs") (fun j_updated =>
  res_bind (getProp (Some j) "deleteAfterRun") (fun j_delete =>
  let p_kind := getPropOpt j_payload "kind" in
  let p_message := getPropOpt j_payload "message" in
  Ok {| id := asString j_id;
        name := asString j_name;
        enabled := if nullish j_enabled then true else truthyJson j_enabled;
        schedule := {| kind := asString s_kind;
                       atMs := asOptNumber s_atMs;
                       everyMs := asOptNumber s_everyMs;
                       expr := asOptString s_expr;
                       tz := asOptString s_tz |};
        payload := {| payload_kind :=
                        if truthyJson p_kind then asString p_kind else "agent_turn";
                      message :=
                        if truthyJson p_message then asString p_message else "";
                      deliver := truthyJson (getPropOpt j_payload "deliver");
                      channel := asOptString (getPropOpt j_payload "channel");
                      to := asOptString (getPropOpt j_payload "to") |};
        state := {| nextRunAtMs := asOptNumber (getPropOpt j_state "nextRunAtMs");
                    lastRunAtMs := asOptNumber (getPropOpt j_state "lastRunAtMs");
                    lastStatus := asOptString (getPropOpt j_state "lastStatus");
                    lastError := asOptString (getPropOpt j_state "lastError") |};
        createdAtMs := default 0 (asOptNumber j_created);
        updatedAtMs := default 0 (asOptNumber j_updated);
        deleteAfterRun := truthyJson j_delete |})))))))))))))).

(** [xs.map(f)] where [f] may throw. *)
Fixpoint mapRes {A B} (f : A -> Res B) (xs : list A) : Res (list B) :=
  match xs with
  | [] => Ok []
  | x :: rest =>
      res_bind (f x) (fun y => res_bind (mapRes f rest) (fun ys => Ok (y :: ys)))
  end.

(** The body of the [try] in [loadStore], after [JSON.parse]. *)
Definition parseStore (data : Json) : Res (Z * list ScheduledJob) :=
  res_bind (getProp (Some data) "jobs") (fun d_jobs =>
  res_bind (if truthyJson d_jobs
            then match d_jobs with
                 | Some (JArr items) => mapRes parseJob items
                 | _ => Throw (JsError "TypeError" "map is not a function")
                 end
            else Ok []) (fun jobs =>
  res_bind (getProp (Some data) "version") (fun d_version =>
  Ok (if truthyJson d_version then default 1 (asOptNumber d_version) else 1, jobs)))).

Definition createStore : JobStore := {| version := 1; jobs := [] |}.

(** Creation of a job object. *)
Definition newJob (j : ScheduledJob) : M ref :=
  fun w =>
    (Ok (nextRef w),
     set_nextRef (S (nextRef w))
       (set_heap (updateAt (heap w) (nextRef w) (fun _ => j)) w)).

Fixpoint newJobs (js : list ScheduledJob) : M (list ref) :=
  match js with
  | [] => ret []
  | j :: rest =>
      let* r := newJob j in
      let* rs := newJobs rest in
      ret (r :: rs)
  end.

Definition loadStore : M JobStore :=
  let* cached := gets store in
  match cached with
  | Some st => ret st
  | None =>
      let* file := gets storeFile in
      let* st :=
        match file with
        | JsonDoc data =>
            match parseStore data with
            | Ok (v, js) =>
                let* refs := newJobs js in
                ret {| version := v; jobs := refs |}
            | Throw _ => ret createStore
            end
        | NotJson => ret createStore
        | NoFile => ret createStore
        end in
      modify (set_store (Some st)) ;;
      ret st
  end.

Definition saveStore : M unit :=
  let* cur := gets store in
  match cur with
  | None => ret tt
  | Some st =>
      let* hb := gets heartbeatJobId in
      let* h := gets heap in
      let persistJobs := filter (fun r => strictNeqOpt (id (h r)) hb) (jobs st) in
      modify (set_storeFile (JsonDoc (storeToJson (version st) (map h persistJobs))))
  end.

(** [new Scheduler(...)] in a given environment: nothing loaded, no timer,
    not running, no heartbeat job. *)
Definition newScheduler (env : World) : World :=
  mkWorld None None false None (heap env) (nextRef env) (ticks env) (timers env)
          (nextTimer env) (storeFile env) (heartbeatFile env) (calls env).

(** ** The scheduler methods *)

Section Scheduler.

Context `{Collaborators}.

Definition nowMs : M Z :=
  fun w => (Ok (clock (ticks w)), set_ticks (S (ticks w)) w).

(** [checkHeartbeatFile]: [false] when the file does not exist or cannot be
    read, otherwise whether it has actionable content. *)
Definition checkHeartbeatFile : M bool :=
  let* f := gets heartbeatFile in
  match f with
  | Absent => ret false
  | Unreadable => ret false
  | Content text => ret (negb (Heartbeat.isHeartbeatEmpty (Some text)))
  end.

(** [await this.onJob(job)] *)
Definition invokeOnJob (cb : ScheduledJob -> Res unit) (job : ref) : M unit :=
  fun w => (cb (heap w job), set_calls (calls w ++ [heap w job]) w).

Definition executeJob (job : ref) : M unit :=
  let* startMs := nowMs in
  let* j := readJob job in
  let* skip :=
    (if String.eqb (payload_kind (payload j)) "heartbeat"
     then let* shouldRun := checkHeartbeatFile in ret (negb shouldRun)
     else ret false) in
  if skip then
    modifyJob job (set_lastStatus (Some "skipped")) ;;
    modifyJob job (set_lastRunAtMs (Some startMs)) ;;
    let* t := nowMs in
    modifyJob job (set_updatedAtMs t) ;;
    let* t' := nowMs in
    let* j' := readJob job in
    let* next := liftRes (computeNextRun (schedule j') t') in
    modifyJob job (set_nextRunAtMs next)
  else
    tryM ((match onJob with
           | Some cb => invokeOnJob cb job
           | None => ret tt
           end) ;;
          modifyJob job (set_lastStatus (Some "ok")) ;;
          modifyJob job (set_lastError None))
         (fun error =>
            modifyJob job (set_lastStatus (Some "error")) ;;
            modifyJob job (set_lastError (Some (String_ error)))) ;;
    modifyJob job (set_lastRunAtMs (Some startMs)) ;;
    let* t := nowMs in
    modifyJob job (set_updatedAtMs t) ;;
    let* j' := readJob job in
    if String.eqb (kind (schedule j')) "at" then
      let* cur := gets store in
      match cur with
      | Some st =>
          if deleteAfterRun j' then
            let* h := gets heap in
            modify (set_store
                      (Some {| version := version st;
                               jobs := filter (fun r => negb (String.eqb (id (h r)) (id j')))
                                              (jobs st) |}))
          else
            modifyJob job (set_enabled false) ;;
            modifyJob job (set_nextRunAtMs None)
      | None =>
          modifyJob job (set_enabled false) ;;
          modifyJob job (set_nextRunAtMs None)
      end
    else
      let* t' := nowMs in
      let* next := liftRes (computeNextRun (schedule j') t') in
      modifyJob job (set_nextRunAtMs next).

(** The filter of [getNextWakeMs]: [j.enabled && j.state.nextRunAtMs]. *)
Definition isPending (j : ScheduledJob) : bool :=
  enabled j && truthyOptNum (nextRunAtMs (state j)).

(** [Math.min(...times)] for a non-empty array. *)
Definition Math_min (first : Z) (others : list Z) : Z := fold_left Z.min others first.

Definition getNextWakeMs : M (option Z) :=
  let* cur := gets store in
  match cur with
  | None => ret None
  | Some st =>
      let* h := gets heap in
      let times :=
        map (fun r => default 0 (nextRunAtMs (state (h r))))
            (filter (fun r => isPending (h r)) (jobs st)) in
      match times with
      | [] => ret None
      | t :: ts => ret (Some (Math_min t ts))
      end
  end.

Definition armTimer : M unit :=
  let* old := gets timerTimeout in
  (match old with
   | Some h => clearTimeout h ;; modify (set_timerTimeout None)
   | None => ret tt
   end) ;;
  let* nextWake := getNextWakeMs in
  let* running := gets _running in
  if negb (truthyOptNum nextWake) || negb running then ret tt
  else
    let* now := nowMs in
    let delayMs := Z.max 0 (default 0 nextWake - now) in
    let* h := setTimeout delayMs in
    modify (set_timerTimeout (Some h)).

(** The filter of [onTimer]:
    [j.enabled && j.state.nextRunAtMs && now >= j.state.nextRunAtMs]. *)
Definition isDue (now : Z) (j : ScheduledJob) : bool :=
  enabled j && truthyOptNum (nextRunAtMs (state j)) &&
  (now >=? default 0 (nextRunAtMs (state j))).

Definition onTimer : M unit :=
  let* cur := gets store in
  match cur with
  | None => ret tt
  | Some st =>
      let* now := nowMs in
      let* h := gets heap in
      let dueJobs := filter (fun r => isDue now (h r)) (jobs st) in
      forEachM dueJobs executeJob ;;
      saveStore ;;
      armTimer
  end.

(** The callback of the timer armed by [armTimer]. *)
Definition timerCallback : M unit :=
  let* running := gets _running in
  if running then onTimer else ret tt.

(** *** [listJobs] *)

(** [a.state.nextRunAtMs || Infinity]: [None] stands for [Infinity]. *)
Definition sortKey (j : ScheduledJob) : option Z :=
  if truthyOptNum (nextRunAtMs (state j)) then nextRunAtMs (state j) else None.

(** Sign of the comparator's result; [Infinity - Infinity] is [NaN], which
    [Array.prototype.sort] treats as [+0]. *)
Definition compareJobs (a b : ScheduledJob) : comparison :=
  match sortKey a, sortKey b with
  | Some x, Some y => x ?= y
  | Some _, None => Lt
  | None, Some _ => Gt
  | None, None => Eq
  end.

(** [Array.prototype.sort] is a stable sort; for a comparator that is a
    consistent ordering its result is the one of stable insertion. *)
Fixpoint sortInsert {A} (cmp : A -> A -> comparison) (x : A) (sorted : list A) : list A :=
  match sorted with
  | [] => [x]
  | y :: rest =>
      match cmp x y with
      | Gt => y :: sortInsert cmp x rest
      | _ => x :: y :: rest
      end
  end.

Definition Array_sort {A} (cmp : A -> A -> comparison) (xs : list A) : list A :=
  fold_right (sortInsert cmp) [] xs.

Definition listJobs : M (list ref) :=
  let* st := loadStore in
  let* hb := gets heartbeatJobId in
  let* h := gets heap in
  ret (Array_sort (fun a b => compareJobs (h a) (h b))
         (filter (fun r => strictNeqOpt (id (h r)) hb) (jobs st))).

(** [runJob]: forced execution of a job found by its id. *)
Definition runJob (jobId : string) : M unit :=
  let* st := loadStore in
  let* h := gets heap in
  match find (fun r => String.eqb (id (h r)) jobId) (jobs st) with
  | Some job => executeJob job ;; saveStore ;; armTimer
  | None => ret tt
  end.

End Scheduler.

(** ** Vocabulary of the scheduler's properties *)

(** The field types that [core/types/scheduler.ts] declares and that the
    string-typed model does not enforce by itself. *)
Definition wellTyped (j : ScheduledJob) : Prop :=
  In (kind (schedule j)) ["at"; "every"; "cron"] /\
  In (payload_kind (payload j)) ["system_event"; "agent_turn"; "heartbeat"] /\
  In (lastStatus (state j)) [None; Some "ok"; Some "error"; Some "skipped"].

Section Vocabulary.

Context `{Collaborators}.

(** Whether the heartbeat gate lets a job through in a given world. *)
Definition hasTasks (f : HeartbeatFile) : bool :=
  match f with
  | Content text => negb (Heartbeat.isHeartbeatEmpty (Some text))
  | Absent | Unreadable => false
  end.

Definition gated (w : World) (j : ScheduledJob) : bool :=
  String.eqb (payload_kind (payload j)) "heartbeat" && negb (hasTasks (heartbeatFile w)).

(** The parts of the world that executing a job leaves alone. *)
Definition sameSurroundings (w w' : World) : Prop :=
  _running w' = _running w /\ heartbeatJobId w' = heartbeatJobId w /\
  heartbeatFile w' = heartbeatFile w /\ storeFile w' = storeFile w /\
  timers w' = timers w /\ nextTimer w' = nextTimer w /\
  timerTimeout w' = timerTimeout w /\ nextRef w' = nextRef w.

(** What the callback does with a job ([await this.onJob(job)] guarded by
    [if (this.onJob)]). *)
Definition outcome (j : ScheduledJob) : Res unit :=
  match onJob with
  | Some cb => cb j
  | None => Ok tt
  end.

(** The fields [executeJob] never assigns. *)
Definition sameIdentity (j j' : ScheduledJob) : Prop :=
  id j' = id j /\ name j' = name j /\ schedule j' = schedule j /\
  payload j' = payload j /\ createdAtMs j' = createdAtMs j /\
  deleteAfterRun j' = deleteAfterRun j.

Definition isSome {A} (o : option A) : bool :=
  match o with
  | Some _ => true
  | None => false
  end.

(** How a job object has changed once [executeJob] has run on it in a tick
    that began in world [w]. *)
Definition executedFrom (w : World) (j j' : ScheduledJob) : Prop :=
  sameIdentity j j' /\
  (exists k, (ticks w <= k)%nat /\ lastRunAtMs (state j') = Some (clock k)) /\
  if gated w j then lastStatus (state j') = Some "skipped"
  else match outcome j with
       | Ok _ => lastStatus (state j') = Some "ok" /\ lastError (state j') = None
       | Throw e => lastStatus (state j') = Some "error" /\
                    lastError (state j') = Some (String_ e)
       end.

(** The jobs the callback is invoked with when the jobs [l] are executed. *)
Definition invoked (w : World) (l : list ref) : list ScheduledJob :=
  if isSome onJob
  then map (heap w) (filter (fun r => negb (gated w (heap w r))) l)
  else [].

(** The value [getNextWakeMs] returns. *)
Definition pendingTimes (w : World) : list Z :=
  match store w with
  | None => []
  | Some st =>
      map (fun r => default 0 (nextRunAtMs (state (heap w r))))
          (filter (fun r => isPending (heap w r)) (jobs st))
  end.

Definition nextWakeOf (w : World) : option Z :=
  match pendingTimes w with
  | [] => None
  | t :: ts => Some (Math_min t ts)
  end.

(** The order the comparator of [listJobs] sorts by: a key that is
    [undefined] or zero counts as [Infinity]. *)
Definition keyLe (a b : option Z) : Prop :=
  match a, b with
  | Some x, Some y => x <= y
  | _, None => True
  | None, Some _ => False
  end.

Definition runsNoLater (a b : ScheduledJob) : Prop := keyLe (sortKey a) (sortKey b).

End Vocabulary.

(** ** The asynchronous queue of the message bus ([AsyncQueue<T>]) *)

Module AsyncQueue.

(** A resolver function held in [resolvers].  Each call of [pop] or
    [popWithTimeout] that has to wait creates one promise and one function:
    the promise's [resolve] for [pop], [wrappedResolve] for
    [popWithTimeout], which first clears the timer of that call.  A function
    is identified by the promise it settles. *)
Record Resolver : Type := mkResolver {
  promise : nat;
  timeout : option nat
}.

Definition Resolver_eqb (a b : Resolver) : bool :=
  Nat.eqb (promise a) (promise b) &&
  match timeout a, timeout b with
  | Some x, Some y => Nat.eqb x y
  | None, None => true
  | _, _ => false
  end.

(** What [indexOf] followed by [splice] leaves of the list: the first
    occurrence is removed. *)
Fixpoint removeFirst (f : Resolver) (rs : list Resolver) : list Resolver :=
  match rs with
  | [] => []
  | r :: rest => if Resolver_eqb r f then rest else r :: removeFirst f rest
  end.

Section Queue.

(** The items; [undefined] is not an item. *)
Variable T : Type.

(** The queue object with the part of the event loop it acts on: the pending
    timers (handle, the [wrappedResolve] of their callback, delay) and every
    call made so far of a promise's [resolve], in order ([None] is
    [resolve(null)]).  A promise takes the value of the first call. *)
Record State : Type := mkState {
  queue : list T;
  resolvers : list Resolver;
  timers : list (nat * Resolver * Z);
  resolved : list (nat * option T);
  nextPromise : nat;
  nextTimer : nat
}.

Definition empty : State := mkState [] [] [] [] 0 0.

(** What the caller of a method gets back. *)
Inductive Output : Type :=
| Buffered                (* push: the item went into the buffer *)
| HandedTo (p : nat)      (* push: the item was passed to promise [p]'s resolver *)
| Item (x : T)            (* pop: resolved at once with a buffered item *)
| Waiting (p : nat)       (* pop: pending promise [p] *)
| TimedOut (p : nat)      (* timer callback ran for promise [p] *)
| NoTimer.                (* no such timer is pending *)

Definition clearTimeout (h : nat) (ts : list (nat * Resolver * Z)) :=
  filter (fun t => negb (Nat.eqb (fst (fst t)) h)) ts.

(** Calling a resolver: [wrappedResolve] clears its timer first. *)
Definition callResolver (r : Resolver) (value : T) (s : State) : State :=
  mkState (queue s) (resolvers s)
          (match timeout r with
           | Some h => clearTimeout h (timers s)
           | None => timers s
           end)
          (resolved s ++ [(promise r, Some value)])
          (nextPromise s) (nextTimer s).

Definition push (item : T) (s : State) : State * Output :=
  match resolvers s with
  | resolver :: rest =>
      (callResolver resolver item
         (mkState (queue s) rest (timers s) (resolved s) (nextPromise s) (nextTimer s)),
       HandedTo (promise resolver))
  | [] =>
      (mkState (queue s ++ [item]) (resolvers s) (timers s) (resolved s)
               (nextPromise s) (nextTimer s),
       Buffered)
  end.

Definition pop (s : State) : State * Output :=
  match queue s with
  | item :: rest =>
      (mkState rest (resolvers s) (timers s) (resolved s) (nextPromise s) (nextTimer s),
       Item item)
  | [] =>
      let p := nextPromise s in
      (mkState (queue s) (resolvers s ++ [mkResolver p None]) (timers s) (resolved s)
               (S p) (nextTimer s),
       Waiting p)
  end.

Definition popWithTimeout (timeoutMs : Z) (s : State) : State * Output :=
  match queue s with
  | item :: rest =>
      (mkState rest (resolvers s) (timers s) (resolved s) (nextPromise s) (nextTimer s),
       Item item)
  | [] =>
      let p := nextPromise s in
      let h := nextTimer s in
      let wrappedResolve := mkResolver p (Some h) in
      (mkState (queue s) (resolvers s ++ [wrappedResolve])
               (timers s ++ [(h, wrappedResolve, timeoutMs)]) (resolved s)
               (S p) (S h),
       Waiting p)
  end.

(** [this.resolvers.indexOf(f)]: [None] is [-1]. *)
Fixpoint indexOf (rs : list Resolver) (f : Resolver) : option nat :=
  match rs with
  | [] => None
  | r :: rest =>
      if Resolver_eqb r f then Some O
      else match indexOf rest f with
           | Some i => Some (S i)
           | None => None
           end
  end.

(** [rs.splice(index, 1)] *)
Definition splice1 (index : nat) (rs : list Resolver) : list Resolver :=
  take index rs ++ drop (S index) rs.

(** The event loop runs the callback of pending timer [h]. *)
Definition timerFires (h : nat) (s : State) : State * Output :=
  match find (fun t => Nat.eqb (fst (fst t)) h) (timers s) with
  | None => (s, NoTimer)
  | Some (_, wrappedResolve, _) =>
      let rs := match indexOf (resolvers s) wrappedResolve with
                | Some index => splice1 index (resolvers s)
                | None => resolvers s
                end in
      (mkState (queue s) rs (clearTimeout h (timers s))
               (resolved s ++ [(promise wrappedResolve, None)])
               (nextPromise s) (nextTimer s),
       TimedOut (promise wrappedResolve))
  end.

(** What can happen to a queue. *)
Inductive Event : Type :=
| Push (item : T)
| Pop
| PopWithTimeout (timeoutMs : Z)
| TimerFires (h : nat).

Definition step (s : State) (e : Event) : State * Output :=
  match e with
  | Push item => push item s
  | Pop => pop s
  | PopWithTimeout ms => popWithTimeout ms s
  | TimerFires h => timerFires h s
  end.

(** A run: the final state and the outputs, one per event. *)
Fixpoint run (s : State) (es : list Event) : State * list Output :=
  match es with
  | [] => (s, [])
  | e :: rest =>
      let (s1, o) := step s e in
      let (s2, os) := run s1 rest in
      (s2, o :: os)
  end.

(** The calls of [resolve] made for promise [p]. *)
Definition resolutions (p : nat) (s : State) : list (option T) :=
  map snd (filter (fun c => Nat.eqb (fst c) p) (resolved s)).

(** Items pushed by a run, and items handed to consumers by it (by a [pop]
    that found the buffer non-empty, or by a [push] that called a waiting
    resolver), both in order. *)
Definition pushedItems (es : list Event) : list T :=
  flat_map (fun e => match e with Push x => [x] | _ => [] end) es.

Fixpoint deliveredItems (es : list Event) (os : list Output) : list T :=
  match es, os with
  | e :: es', o :: os' =>
      match e, o with
      | Push x, HandedTo _ => x :: deliveredItems es' os'
      | _, Item x => x :: deliveredItems es' os'
      | _, _ => deliveredItems es' os'
      end
  | _, _ => []
  end.

Definition isPush (e : Event) : bool :=
  match e with
  | Push _ => true
  | _ => false
  end.

(** *** Vocabulary of the properties *)

Local Open Scope nat_scope.

Definition promises (s : State) : list nat := map promise (resolvers s).
Definition settled (s : State) : list nat := map fst (resolved s).
Definition handles (s : State) : list nat := map (fun t => fst (fst t)) (timers s).

(** What every reachable state of a queue satisfies. *)
Record Inv (s : State) : Prop := mkInv {
  inv_exclusive : queue s = [] \/ resolvers s = [];
  inv_promises_nodup : NoDup (promises s);
  inv_waiting_fresh :
    forall r, r ∈ resolvers s -> promise r < nextPromise s /\ promise r ∉ settled s;
  inv_settled_once : NoDup (settled s);
  inv_settled_bound : forall p, p ∈ settled s -> p < nextPromise s;
  inv_timer_resolver :
    forall h r ms, (h, r, ms) ∈ timers s ->
                   r ∈ resolvers s /\ timeout r = Some h /\ h < nextTimer s;
  inv_handles_nodup : NoDup (handles s);
  inv_resolver_timer :
    forall r h, r ∈ resolvers s -> timeout r = Some h -> exists ms, (h, r, ms) ∈ timers s
}.

(** The call is still waiting: its resolver is registered, its timer is
    pending, its promise has not been resolved. *)
Definition waiting (p h : nat) (s : State) : Prop :=
  mkResolver p (Some h) ∈ resolvers s /\
  (exists ms, (h, mkResolver p (Some h), ms) ∈ timers s) /\
  resolutions p s = [].

(** The call is over with outcome [v]: [resolve] was called exactly once,
    with [v], and neither the resolver nor the timer is left behind. *)
Definition finished (p h : nat) (v : option T) (s : State) : Prop :=
  resolutions p s = [v] /\ (p ∉ promises s) /\ (h ∉ handles s) /\
  p < nextPromise s /\ h < nextTimer s.

Definition noPush (es : list Event) : bool := forallb (fun e => negb (isPush e)) es.

End Queue.

Arguments Buffered {T}.
Arguments HandedTo {T} p.
Arguments Item {T} x.
Arguments Waiting {T} p.
Arguments TimedOut {T} p.
Arguments NoTimer {T}.
Arguments Push {T} item.
Arguments Pop {T}.
Arguments PopWithTimeout {T} timeoutMs.
Arguments TimerFires {T} h.
Arguments empty {T}.
Arguments queue {T} s.
Arguments resolvers {T} s.
Arguments timers {T} s.
Arguments resolved {T} s.
Arguments nextPromise {T} s.
Arguments nextTimer {T} s.
Arguments step {T} s e.
Arguments run {T} s es.
Arguments push {T} item s.
Arguments pop {T} s.
Arguments popWithTimeout {T} timeoutMs s.
Arguments timerFires {T} h s.
Arguments resolutions {T} p s.
Arguments pushedItems {T} es.
Arguments deliveredItems {T} es os.
Arguments isPush {T} e.
Arguments promises {T} s.
Arguments settled {T} s.
Arguments handles {T} s.
Arguments Inv {T} s.
Arguments inv_exclusive {T} s _.
Arguments inv_promises_nodup {T} s _.
Arguments inv_waiting_fresh {T} s _.
Arguments inv_settled_once {T} s _.
Arguments inv_settled_bound {T} s _.
Arguments inv_timer_resolver {T} s _.
Arguments inv_handles_nodup {T} s _.
Arguments inv_resolver_timer {T} s _.
Arguments waiting {T} p h s.
Arguments finished {T} p h v s.
Arguments noPush {T} es.

End AsyncQueue.

(** ** The subagent loop ([SubagentManager.runSubagent]) *)

Module Subagent.

Record InboundMessage : Type := mkInboundMessage {
  channel : string;
  senderId : string;
  chatId : string;
  content : string;
  timestamp : Z;
  media : list string
}.

(** [createInboundMessage] with the four mandatory fields. *)
Definition createInboundMessage (now : Z) (channel senderId chatId content : string)
  : InboundMessage :=
  {| channel := channel; senderId := senderId; chatId := chatId; content := content;
     timestamp := now; media := [] |}.

Record Origin : Type := mkOrigin {
  origin_channel : string;
  origin_chatId : string
}.

Inductive Status : Type := ok | error.

Definition dquote : string := String (ascii_of_nat 34) EmptyString.
Definition nl : string := String (ascii_of_nat 10) EmptyString.

(** The text built by [announceResult]. *)
Definition announceContent (label task result : string) (status : Status) : string :=
  let statusText := match status with
                    | ok => "completed successfully"
                    | error => "failed"
                    end in
  "[Subagent '" ++ label ++ "' " ++ statusText ++ "]" ++ nl ++ nl ++
  "Task: " ++ task ++ nl ++ nl ++
  "Result:" ++ nl ++ result ++ nl ++ nl ++
  "Summarize this naturally for the user. Keep it brief (1-2 sentences). " ++
  "Do not mention technical details like " ++ dquote ++ "subagent" ++ dquote ++
  " or task IDs.".

Definition placeholder : string :=
  "Task completed but no final response was generated.".

Definition maxIterations : nat := 15.

Section Loop.

(** [Record<string, unknown>]: the arguments of a tool call. *)
Variable Args : Type.

Record ToolCallRequest : Type := mkToolCall {
  tc_id : string;
  tc_name : string;
  tc_arguments : Args
}.

Record LLMResponse : Type := mkResponse {
  response_content : option string;
  toolCalls : list ToolCallRequest;
  finishReason : string
}.

Inductive ContentPart : Type :=
| TextPart (text : string)
| ToolCallPart (toolCallId toolName : string) (args : Args)
| ToolResultPart (toolCallId toolName result : string).

Inductive CoreMessage : Type :=
| SystemMessage (text : string)
| UserMessage (text : string)
| AssistantMessage (parts : list ContentPart)
| ToolMessage (parts : list ContentPart).

(** The collaborators of the loop.  [provider.chat] may throw;
    [AIProvider.hasToolCalls] belongs to the provider
    ([infrastructure/llm/ai-sdk-provider.ts]) and is a parameter;
    [tools.execute] (the registry catches what a tool throws and returns a
    string) acts on an environment of its own; [buildSubagentPrompt] only
    formats text. *)
Variable Env : Type.
Variable provider_chat : list CoreMessage -> Res LLMResponse.
Variable hasToolCalls : LLMResponse -> bool.
Variable tools_execute : string -> Args -> Env -> string * Env.
Variable buildSubagentPrompt : string -> string.

(** The variables of the loop, with the number of [provider.chat] calls. *)
Record LoopState : Type := mkLoop {
  iteration : nat;
  messages : list CoreMessage;
  finalResult : option string;
  env : Env
}.

(** [for (const toolCall of response.toolCalls) { ... messages.push(...) }] *)
Fixpoint executeTools (calls : list ToolCallRequest) (msgs : list CoreMessage) (e : Env)
  : list CoreMessage * Env :=
  match calls with
  | [] => (msgs, e)
  | toolCall :: rest =>
      let (result, e') := tools_execute (tc_name toolCall) (tc_arguments toolCall) e in
      executeTools rest
        (msgs ++ [ToolMessage [ToolResultPart (tc_id toolCall) (tc_name toolCall) result]])%list
        e'
  end.

Definition assistantParts (response : LLMResponse) : list ContentPart :=
  ((match response_content response with
    | Some text => if truthyStr text then [TextPart text] else []
    | None => []
    end) ++
   map (fun tc => ToolCallPart (tc_id tc) (tc_name tc) (tc_arguments tc))
       (toolCalls response))%list.

(** [while (iteration < maxIterations) { ... }].  [fuel] bounds the number of
    turns of the loop the function unfolds; [None] means it was used up
    before the loop ended. *)
Fixpoint agentLoop (fuel : nat) (st : LoopState) : option (Res unit * LoopState) :=
  if Nat.ltb (iteration st) maxIterations then
    match fuel with
    | O => None
    | S fuel' =>
        let it := S (iteration st) in
        match provider_chat (messages st) with
        | Throw e => Some (Throw e, mkLoop it (messages st) (finalResult st) (env st))
        | Ok response =>
            if hasToolCalls response then
              let msgs := (messages st ++ [AssistantMessage (assistantParts response)])%list in
              let (msgs', e') := executeTools (toolCalls response) msgs (env st) in
              agentLoop fuel' (mkLoop it msgs' (finalResult st) e')
            else
              Some (Ok tt, mkLoop it (messages st) (response_content response) (env st))
        end
    end
  else Some (Ok tt, st).

(** What a run reports: the single message it publishes, the status given to
    [announceResult], and how many times the model was called. *)
Record Report : Type := mkReport {
  announced : InboundMessage;
  status : Status;
  result_text : string;
  chatCalls : nat
}.

Definition announceResult (now : Z) (label task result : string) (origin : Origin)
  (st : Status) : InboundMessage :=
  createInboundMessage now "system" "subagent"
    (origin_channel origin ++ ":" ++ origin_chatId origin)
    (announceContent label task result st).

(** [runSubagent]: the body of the [try] and the [catch].  The message is
    published with [bus.publishInbound], that is [inbound.push]. *)
Definition runSubagent (fuel : nat) (now : Z) (task label : string) (origin : Origin)
  (e0 : Env) (bus : AsyncQueue.State InboundMessage)
  : option (Report * AsyncQueue.State InboundMessage) :=
  let systemPrompt := buildSubagentPrompt task in
  let msgs := [SystemMessage systemPrompt; UserMessage task] in
  match agentLoop fuel (mkLoop 0 msgs None e0) with
  | None => None
  | Some (Ok _, st) =>
      let final := match finalResult st with
                   | Some text => text
                   | None => placeholder
                   end in
      let msg := announceResult now label task final origin ok in
      Some (mkReport msg ok final (iteration st), fst (AsyncQueue.push msg bus))
  | Some (Throw err, st) =>
      let errorMsg := "Error: " ++ String_ err in
      let msg := announceResult now label task errorMsg origin error in
      Some (mkReport msg error errorMsg (iteration st), fst (AsyncQueue.push msg bus))
  end.

End Loop.

End Subagent.

(** ** Concrete scenarios *)

Module Scenario.

(** A cron parser that knows one expression ([next()] is a minute after the
    current date), a clock that advances by one millisecond per read from
    1000, and a callback that rejects with the empty string for the job
    named "boom" and with an [Error] for the job named "fail". *)
#[export] Instance demo : Collaborators := {|
  CronInterval := Z;
  CronExpressionParser_parse := fun e currentMs _ =>
    if String.eqb e "* * * * *" then Ok currentMs
    else Throw (JsError "Error" "Invalid cron expression");
  interval_next := fun i => Ok (i + 60000);
  clock := fun n => 1000 + Z.of_nat n;
  onJob := Some (fun j =>
    if String.eqb (name j) "boom" then Throw (JsString "")
    else if String.eqb (name j) "fail" then Throw (JsError "Error" "no route")
    else Ok tt)
|}.

Definition agentTurn : JobPayload := mkJobPayload "agent_turn" "ping" false None None.
Definition heartbeatPayload : JobPayload := mkJobPayload "heartbeat" "check" false None None.

Definition every (ms : Z) : Schedule := mkSchedule "every" None (Some ms) None None.
Definition at_ (ms : Z) : Schedule := mkSchedule "at" (Some ms) None None None.
Definition cron (e : string) : Schedule := mkSchedule "cron" None None (Some e) None.

Definition job (i n : string) (s : Schedule) (p : JobPayload) (next : option Z)
  (del : bool) : ScheduledJob :=
  mkScheduledJob i n true s p (mkJobState next None None None) 0 0 del.

Definition heapOf (js : list ScheduledJob) : ref -> ScheduledJob :=
  fun r => nth r js (job "" "" (every 0) agentTurn None false).

(** A running scheduler holding the jobs [js]. *)
Definition worldOf (js : list ScheduledJob) (hb : option string) (f : HeartbeatFile)
  : World :=
  mkWorld (Some (mkJobStore 1 (seq 0 (length js)))) None true hb
          (heapOf js) (length js) 0 [] 0 NoFile f [].

(** Two due jobs, the first of which fails. *)
Definition failing : World :=
  worldOf [job "a1" "fail" (every 1000) agentTurn (Some 500) false;
           job "b2" "fine" (every 2000) agentTurn (Some 600) false]
          None Absent.

(** A due job whose callback rejects with the empty string. *)
Definition emptyRejection : World :=
  worldOf [job "a1" "boom" (every 1000) agentTurn (Some 500) false] None Absent.

(** A one-shot job with a heartbeat payload, to be deleted after its run,
    and no [HEARTBEAT.md]. *)
Definition gatedOneShot : World :=
  worldOf [job "a1" "once" (at_ 500) heartbeatPayload (Some 500) true] None Absent.

(** A one-shot job that is kept after its run. *)
Definition keptOneShot : World :=
  worldOf [job "a1" "once" (at_ 500) agentTurn (Some 500) false] None Absent.

(** A job whose [nextRunAtMs] is zero, listed with a job due at 5. *)
Definition zeroNextRun : World :=
  worldOf [job "a1" "zero" (every 1000) agentTurn (Some 0) false;
           job "b2" "five" (every 1000) agentTurn (Some 5) false]
          None Absent.

(** The heartbeat job and [HEARTBEAT.md] holding a heading and a bare
    checkbox. *)
Definition idleHeartbeat : World :=
  worldOf [job "heartbeat-1" "Heartbeat" (every 1800000) heartbeatPayload (Some 500) false]
          (Some "heartbeat-1")
          (Content ("# Notes" ++ String (ascii_of_nat 10) "- [ ] "
                      ++ String (ascii_of_nat 10) "")).

(** A store with the heartbeat job and a user job. *)
Definition withHeartbeat : World :=
  worldOf [job "heartbeat-1" "Heartbeat" (every 1800000) heartbeatPayload (Some 500) false;
           job "b2" "fine" (cron "* * * * *") agentTurn (Some 600) false]
          (Some "heartbeat-1") Absent.

(** The order the listing is said to have: ascending [nextRunAtMs], the
    undefined ones last. *)
Definition ascendingUndefinedLast (a b : ScheduledJob) : Prop :=
  match nextRunAtMs (state a), nextRunAtMs (state b) with
  | Some x, Some y => x <= y
  | _, None => True
  | None, Some _ => False
  end.

(** A model that always asks for one more tool call, and a tool. *)
Definition alwaysTools (msgs : list (Subagent.CoreMessage unit))
  : Res (Subagent.LLMResponse unit) :=
  Ok (Subagent.mkResponse unit None [Subagent.mkToolCall unit "c1" "list_dir" tt] "tool-calls").

Definition hasToolCalls (r : Subagent.LLMResponse unit) : bool :=
  match Subagent.toolCalls unit r with
  | [] => false
  | _ :: _ => true
  end.

Definition echoTool (name : string) (_ : unit) (e : nat) : string * nat :=
  (name, S e).

Definition prompt (task : string) : string := "# Subagent" ++ task.

End Scenario.

(** ** The rest of the scheduler's interface *)

(** Assignments to [this._running] and [this.heartbeatJobId]. *)
Definition set_running (v : bool) (w : World) : World :=
  mkWorld (store w) (timerTimeout w) v (heartbeatJobId w) (heap w) (nextRef w)
          (ticks w) (timers w) (nextTimer w) (storeFile w) (heartbeatFile w) (calls w).

Definition set_heartbeatJobId (v : option string) (w : World) : World :=
  mkWorld (store w) (timerTimeout w) (_running w) v (heap w) (nextRef w)
          (ticks w) (timers w) (nextTimer w) (storeFile w) (heartbeatFile w) (calls w).

(** The two heartbeat settings the constructor keeps; they are never
    assigned afterwards. *)
Record Options : Type := mkOptions {
  heartbeatEnabled : bool;
  heartbeatIntervalMs : Z
}.

Definition DEFAULT_HEARTBEAT_INTERVAL_MS : Z := 30 * 60 * 1000.

(** [options.heartbeatEnabled ?? true] and
    [options.heartbeatIntervalMs || DEFAULT_HEARTBEAT_INTERVAL_MS]. *)
Definition constructorOptions (enabled : option bool) (intervalMs : option Z) : Options :=
  {| heartbeatEnabled := default true enabled;
     heartbeatIntervalMs :=
       if truthyOptNum intervalMs then default 0 intervalMs
       else DEFAULT_HEARTBEAT_INTERVAL_MS |}.

Definition HEARTBEAT_PROMPT : string :=
  "Read HEARTBEAT.md in your workspace (if it exists)." ++ String (ascii_of_nat 10)
  ("Follow any instructions or tasks listed there." ++ String (ascii_of_nat 10)
   "If nothing needs attention, reply with just: HEARTBEAT_OK").

(** [AddJobOptions] ([core/interfaces/scheduler.ts]). *)
Record AddJobOptions : Type := mkAddJobOptions {
  opt_name : string;
  opt_schedule : Schedule;
  opt_payload : JobPayload;
  opt_enabled : option bool;
  opt_deleteAfterRun : option bool
}.

(** What [status()] returns. *)
Record SchedulerStatus : Type := mkSchedulerStatus {
  running : bool;
  jobCount : nat;
  nextWakeAt : option Z
}.

(** [s.slice(0, n)] *)
Definition slice0 (n : nat) (s : string) : string := substring 0 n s.

Section SchedulerApi.

Context `{Collaborators}.

(** [store.jobs.push(job)] on the store object held in [this.store]. *)
Definition pushJob (st : JobStore) (r : ref) : M unit :=
  modify (set_store (Some {| version := version st; jobs := jobs st ++ [r] |})).

(** The job object that [addHeartbeatJob] builds.  [uuid] is what
    [randomUUID()] returns. *)
Definition newHeartbeatJob (opts : Options) (uuid : string) (now : Z) : ScheduledJob :=
  {| id := "heartbeat-" ++ slice0 8 uuid;
     name := "Heartbeat";
     enabled := true;
     schedule := {| kind := "every"; atMs := None;
                    everyMs := Some (heartbeatIntervalMs opts);
                    expr := None; tz := None |};
     payload := {| payload_kind := "heartbeat"; message := HEARTBEAT_PROMPT;
                   deliver := false; channel := None; to := None |};
     state := {| nextRunAtMs := Some (now + heartbeatIntervalMs opts);
                 lastRunAtMs := None; lastStatus := None; lastError := None |};
     createdAtMs := now;
     updatedAtMs := now;
     deleteAfterRun := false |}.

Definition addHeartbeatJob (opts : Options) (uuid : string) : M unit :=
  let* cur := gets store in
  match cur with
  | None => ret tt
  | Some st =>
      let* h := gets heap in
      match find (fun r => String.eqb (payload_kind (payload (h r))) "heartbeat") (jobs st) with
      | Some existing => modify (set_heartbeatJobId (Some (id (h existing))))
      | None =>
          let* now := nowMs in
          let job := newHeartbeatJob opts uuid now in
          let* r := newJob job in
          modify (set_heartbeatJobId (Some (id job))) ;;
          pushJob st r
      end
  end.

(** The body of the loop of [recomputeNextRuns]. *)
Definition recomputeJob (now : Z) (job : ref) : M unit :=
  let* j := readJob job in
  if enabled j then
    let* next := liftRes (computeNextRun (schedule j) now) in
    modifyJob job (set_nextRunAtMs next)
  else ret tt.

Definition recomputeNextRuns : M unit :=
  let* cur := gets store in
  match cur with
  | None => ret tt
  | Some st =>
      let* now := nowMs in
      forEachM (jobs st) (recomputeJob now)
  end.

Definition start (opts : Options) (uuid : string) : M unit :=
  modify (set_running true) ;;
  let* _ := loadStore in
  (if heartbeatEnabled opts then addHeartbeatJob opts uuid else ret tt) ;;
  recomputeNextRuns ;;
  saveStore ;;
  armTimer.

Definition stop : M unit :=
  modify (set_running false) ;;
  let* t := gets timerTimeout in
  match t with
  | Some h => clearTimeout h ;; modify (set_timerTimeout None)
  | None => ret tt
  end.

(** [addJob]; the result is the new job object.  [uuid] is what
    [randomUUID()] returns. *)
Definition addJob (uuid : string) (options : AddJobOptions) : M ref :=
  let* st := loadStore in
  let* now := nowMs in
  let* next := liftRes (computeNextRun (opt_schedule options) now) in
  let job :=
    {| id := slice0 8 uuid;
       name := opt_name options;
       enabled := default true (opt_enabled options);
       schedule := opt_schedule options;
       payload := opt_payload options;
       state := {| nextRunAtMs := next;
                   lastRunAtMs := None; lastStatus := None; lastError := None |};
       createdAtMs := now;
       updatedAtMs := now;
       deleteAfterRun := default false (opt_deleteAfterRun options) |} in
  let* r := newJob job in
  pushJob st r ;;
  saveStore ;;
  armTimer ;;
  ret r.

Definition removeJob (jobId : string) : M bool :=
  let* st := loadStore in
  let before := length (jobs st) in
  let* h := gets heap in
  let kept := filter (fun r => negb (String.eqb (id (h r)) jobId)) (jobs st) in
  modify (set_store (Some {| version := version st; jobs := kept |})) ;;
  let removed := Nat.ltb (length kept) before in
  if removed then saveStore ;; armTimer ;; ret true
  else ret false.

Definition enableJob (jobId : string) (enabled : bool) : M bool :=
  let* st := loadStore in
  let* h := gets heap in
  match find (fun r => String.eqb (id (h r)) jobId) (jobs st) with
  | Some job =>
      modifyJob job (set_enabled enabled) ;;
      let* t := nowMs in
      modifyJob job (set_updatedAtMs t) ;;
      (if enabled then
         let* j := readJob job in
         let* t' := nowMs in
         let* next := liftRes (computeNextRun (schedule j) t') in
         modifyJob job (set_nextRunAtMs next)
       else modifyJob job (set_nextRunAtMs None)) ;;
      saveStore ;;
      armTimer ;;
      ret true
  | None => ret false
  end.

Definition status : M SchedulerStatus :=
  let* st := loadStore in
  let* r := gets _running in
  let* hb := gets heartbeatJobId in
  let* h := gets heap in
  let* nextWake := getNextWakeMs in
  ret {| running := r;
         jobCount := length (filter (fun r => strictNeqOpt (id (h r)) hb) (jobs st));
         nextWakeAt := nextWake |}.

(** [triggerHeartbeat]: no [try] around the callback. *)
Definition triggerHeartbeat : M unit :=
  let* hb := gets heartbeatJobId in
  if truthyOptStr hb then
    let* st := loadStore in
    let* h := gets heap in
    match find (fun r => String.eqb (id (h r)) (default "" hb)) (jobs st) with
    | Some job =>
        match onJob with
        | Some cb => invokeOnJob cb job
        | None => ret tt
        end
    | None => ret tt
    end
  else ret tt.

(** The event loop runs the callback of the pending timer [h], which is
    then no longer pending. *)
Definition fireTimer (h : nat) : M unit :=
  let* ts := gets timers in
  if existsb (fun t => Nat.eqb (fst t) h) ts then
    clearTimeout h ;; timerCallback
  else ret tt.

(** The calls a client of the scheduler can make, and the timer events. *)
Inductive Op : Type :=
| OpStart (opts : Options) (uuid : string)
| OpStop
| OpAddJob (uuid : string) (options : AddJobOptions)
| OpRemoveJob (jobId : string)
| OpEnableJob (jobId : string) (enabled : bool)
| OpRunJob (jobId : string)
| OpListJobs
| OpStatus
| OpTriggerHeartbeat
| OpFireTimer (h : nat).

Definition runOp (op : Op) : M unit :=
  match op with
  | OpStart opts uuid => start opts uuid
  | OpStop => stop
  | OpAddJob uuid options => let* _ := addJob uuid options in ret tt
  | OpRemoveJob jobId => let* _ := removeJob jobId in ret tt
  | OpEnableJob jobId enabled => let* _ := enableJob jobId enabled in ret tt
  | OpRunJob jobId => runJob jobId
  | OpListJobs => let* _ := listJobs in ret tt
  | OpStatus => let* _ := status in ret tt
  | OpTriggerHeartbeat => triggerHeartbeat
  | OpFireTimer h => fireTimer h
  end.

(** A history of calls.  Calls do not overlap: each one runs to its end
    before the next begins.  A call that throws leaves the scheduler in the
    state it had reached and the next call goes on from there. *)
Fixpoint runOps (ops : list Op) (w : World) : World :=
  match ops with
  | [] => w
  | op :: rest => runOps rest (snd (runOp op w))
  end.

(** *** Vocabulary of the interface's properties *)

(** From a state that satisfies [P] the method returns, without throwing,
    in a state that satisfies [Q]. *)
Definition hoare {A} (P : World -> Prop) (m : M A) (Q : A -> World -> Prop) : Prop :=
  forall w, P w -> exists a w', m w = (Ok a, w') /\ Q a w'.

(** Every pending timer is the one the scheduler remembers: there is at most
    one, and [clearTimeout(this.timerTimeout)] cancels it. *)
Definition oneTimer (w : World) : Prop :=
  timers w = [] \/
  exists h delayMs, timers w = [(h, delayMs)] /\ timerTimeout w = Some h.

(** A scheduler that runs has loaded its store. *)
Definition loadedIfRunning (w : World) : Prop :=
  _running w = true -> store w <> None.

(** The timer is armed exactly when the scheduler runs and a job is pending,
    and then for the earliest pending time, counted from a reading of the
    clock already made. *)
Definition armed (w : World) : Prop :=
  match nextWakeOf w with
  | Some nextWake =>
      if _running w
      then exists h k,
             timers w = [(h, Z.max 0 (nextWake - clock k))] /\
             timerTimeout w = Some h /\ (k < ticks w)%nat
      else timers w = []
  | None => timers w = []
  end.

(** The state [armTimer] leaves when every pending timer is the remembered
    one. *)
Definition rearmed (w : World) : World :=
  match nextWakeOf w with
  | Some nextWake =>
      if _running w then
        set_timerTimeout (Some (nextTimer w))
          (set_timers [(nextTimer w, Z.max 0 (nextWake - clock (ticks w)))]
                      (S (nextTimer w)) (set_ticks (S (ticks w)) w))
      else set_timerTimeout None (set_timers [] (nextTimer w) w)
  | None => set_timerTimeout None (set_timers [] (nextTimer w) w)
  end.

(** The timer side of the world, which only [armTimer], [stop], [start]
    and the firing of a timer act on. *)
Definition sameTimerSide (w w' : World) : Prop :=
  timers w' = timers w /\ nextTimer w' = nextTimer w /\
  timerTimeout w' = timerTimeout w /\ _running w' = _running w /\
  heartbeatFile w' = heartbeatFile w.

(** The job objects of the store are distinct and were created before the
    next one will be. *)
Definition allocated (w : World) : Prop :=
  forall st, store w = Some st ->
    NoDup (jobs st) /\ Forall (fun r => (r < nextRef w)%nat) (jobs st).

(** What the methods maintain while they work on the jobs, with the
    scheduler running or not as [b] says; and what holds between two calls. *)
Definition wellFormed (b : bool) (w : World) : Prop :=
  oneTimer w /\ loadedIfRunning w /\ allocated w /\ _running w = b.

Definition steady (w : World) : Prop :=
  armed w /\ loadedIfRunning w /\ allocated w.

(** Two states that differ at most in the job objects. *)
Definition sameButHeap (w w' : World) : Prop :=
  store w' = store w /\ heartbeatJobId w' = heartbeatJobId w /\
  nextRef w' = nextRef w /\ ticks w' = ticks w /\ storeFile w' = storeFile w /\
  calls w' = calls w /\ sameTimerSide w w'.

(** What [recomputeNextRuns] makes of a job object at time [now]. *)
Definition recomputed (now : Z) (j : ScheduledJob) : ScheduledJob :=
  if enabled j then
    match computeNextRun (schedule j) now with
    | Ok next => set_nextRunAtMs next j
    | Throw _ => j
    end
  else j.

Definition isHeartbeat (j : ScheduledJob) : bool :=
  String.eqb (payload_kind (payload j)) "heartbeat".

(** A job entry of the store file from which [loadStore] cannot read
    [j.schedule.kind]: it is not an object, or its [schedule] is missing or
    [null]. *)
Definition lacksSchedule (j : Json) : bool :=
  match j with
  | JObj fs =>
      match lookupField "schedule" fs with
      | None | Some JNull => true
      | Some _ => false
      end
  | _ => true
  end.

(** Whether the scheduler runs after a call. *)
Definition runningAfter (op : Op) (before : bool) : bool :=
  match op with
  | OpStart _ _ => true
  | OpStop => false
  | _ => before
  end.

Definition isStart (op : Op) : bool :=
  match op with
  | OpStart _ _ => true
  | _ => false
  end.

(** The ids of the jobs of a document written by [saveStore]. *)
Definition persistedIds (f : StoreFile) : list string :=
  match f with
  | JsonDoc (JObj fs) =>
      match lookupField "jobs" fs with
      | Some (JArr items) =>
          map (fun j => asString (getPropOpt (Some j) "id")) items
      | _ => []
      end
  | _ => []
  end.

End SchedulerApi.

(** *** Concrete cases for the interface *)

Module SchedulerCases.

Import Scenario.

(** A new environment: no store file, no [HEARTBEAT.md], no timer. *)
Definition freshEnv : World :=
  mkWorld None None false None (heapOf []) 0%nat 0%nat [] 0%nat NoFile Absent [].

Definition heartbeatOn : Options := constructorOptions None None.
Definition heartbeatOff : Options := constructorOptions (Some false) None.

Definition uuid1 : string := "3f2b8c1d-0a4e-4b6f-9c57-1e2d3a4b5c6d".
Definition uuid2 : string := "a81e0f4c-7d2b-4c3a-8e9f-0b1c2d3e4f5a".

(** A job that runs every second. *)
Definition everySecond : AddJobOptions :=
  mkAddJobOptions "tick" (every 1000) agentTurn None None.

(** A store file with a well-formed entry and one that has no schedule. *)
Definition goodEntry : Json := jobToJson (job "a1" "fine" (every 1000) agentTurn (Some 500) false).
Definition badEntry : Json := JObj [("id", JStr "b2"); ("name", JStr "broken")].

Definition damagedEnv : World :=
  mkWorld None None false None (heapOf []) 0%nat 0%nat [] 0%nat
          (JsonDoc (JObj [("version", JNum 1); ("jobs", JArr [goodEntry; badEntry])]))
          Absent [].

(** A session of calls: start, add a job, let the timer fire. *)
Definition session : list Op :=
  [OpStart heartbeatOn uuid1; OpAddJob uuid2 everySecond; OpFireTimer 1%nat].

End SchedulerCases.

(** ** Strings, as the tools and channels use them *)

Module Str.

(** [s.includes(c)] for a one-character string [c]. *)
Fixpoint includesChar (c : ascii) (s : string) : bool :=
  match s with
  | EmptyString => false
  | String a rest => Ascii.eqb a c || includesChar c rest
  end.

(** [s.split(c)] for a one-character separator: always at least one piece. *)
Fixpoint splitChar (c : ascii) (s : string) : list string :=
  match s with
  | EmptyString => [EmptyString]
  | String a rest =>
      if Ascii.eqb a c then EmptyString :: splitChar c rest
      else match splitChar c rest with
           | piece :: pieces => String a piece :: pieces
           | [] => [String a EmptyString]
           end
  end.

(** [s.slice(n)] and [s.slice(0, n)] for [n] not negative. *)
Fixpoint drop (n : nat) (s : string) : string :=
  match n, s with
  | O, _ => s
  | S n', String _ rest => drop n' rest
  | S _, EmptyString => EmptyString
  end.

Fixpoint take (n : nat) (s : string) : string :=
  match n, s with
  | S n', String a rest => String a (take n' rest)
  | _, _ => EmptyString
  end.

(** The first occurrence of [pat] in [s]: what is before it and what is
    after it.  The empty pattern occurs at the start. *)
Fixpoint firstOccurrence (pat s : string) : option (string * string) :=
  if Heartbeat.startsWith s pat then Some (EmptyString, drop (String.length pat) s)
  else match s with
       | EmptyString => None
       | String a rest =>
           match firstOccurrence pat rest with
           | Some (before, after) => Some (String a before, after)
           | None => None
           end
       end.

(** [s.includes(pat)] *)
Definition includes (pat s : string) : bool :=
  match firstOccurrence pat s with
  | Some _ => true
  | None => false
  end.

(** [s.split(pat)]: for the empty pattern the code units of [s], otherwise
    the pieces between the occurrences of [pat], found from left to right
    without overlap.  [fuel] bounds the number of pieces looked for; the
    length of [s] is enough. *)
Fixpoint splitFuel (fuel : nat) (pat s : string) : list string :=
  match fuel with
  | O => [s]
  | S fuel' =>
      match firstOccurrence pat s with
      | Some (before, after) => before :: splitFuel fuel' pat after
      | None => [s]
      end
  end.

Definition split (pat s : string) : list string :=
  match pat with
  | EmptyString => map (fun c => String c EmptyString) (list_ascii_of_string s)
  | String _ _ => splitFuel (String.length s) pat s
  end.

(** The replacement text of [s.replace(pat, replacement)] for a string
    pattern (no capture groups): [$$] is a dollar sign, [$&] the matched
    text, [$`] and [$'] what is before and after the match; any other
    dollar sign stands for itself. *)
Fixpoint getSubstitution (matched before after replacement : string) : string :=
  match replacement with
  | EmptyString => EmptyString
  | String c rest =>
      if Ascii.eqb c "$" then
        match rest with
        | String d rest' =>
            if Ascii.eqb d "$" then String "$" (getSubstitution matched before after rest')
            else if Ascii.eqb d "&" then matched ++ getSubstitution matched before after rest'
            else if Ascii.eqb d "`" then before ++ getSubstitution matched before after rest'
            else if Ascii.eqb d "'" then after ++ getSubstitution matched before after rest'
            else String c (getSubstitution matched before after rest)
        | EmptyString => String c EmptyString
        end
      else String c (getSubstitution matched before after rest)
  end.

(** [s.replace(pat, replacement)] for a string pattern: the first occurrence
    only. *)
Definition replace (pat replacement s : string) : string :=
  match firstOccurrence pat s with
  | Some (before, after) => before ++ getSubstitution pat before after replacement ++ after
  | None => s
  end.

(** [s.replace(/c/g, replacement)] for a pattern that is one literal
    character and a replacement without dollar sign. *)
Fixpoint replaceAllChar (c : ascii) (replacement : string) (s : string) : string :=
  match s with
  | EmptyString => EmptyString
  | String a rest =>
      if Ascii.eqb a c then replacement ++ replaceAllChar c replacement rest
      else String a (replaceAllChar c replacement rest)
  end.

(** [xs.join(sep)] *)
Definition join (sep : string) (xs : list string) : string := String.concat sep xs.

(** [xs.includes(x)] on an array of strings. *)
Definition arrayIncludes (xs : list string) (x : string) : bool :=
  existsb (String.eqb x) xs.

End Str.

(** ** Events and the message bus ([queue/events.ts], [MessageBus]) *)

Module Bus.

Import Subagent.

(** The fields of an inbound message that a caller of
    [createInboundMessage] may give or leave out. *)
Record PartialInbound : Type := mkPartialInbound {
  p_channel : string;
  p_senderId : string;
  p_chatId : string;
  p_content : string;
  p_timestamp : option Z;
  p_media : option (list string)
}.

(** [{ timestamp: new Date(), media: [], metadata: {}, ...partial }];
    [now] is the date of the call. *)
Definition createInboundMessage (now : Z) (partial : PartialInbound) : InboundMessage :=
  {| channel := p_channel partial;
     senderId := p_senderId partial;
     chatId := p_chatId partial;
     content := p_content partial;
     timestamp := default now (p_timestamp partial);
     media := default [] (p_media partial) |}.

Definition getSessionKey (msg : InboundMessage) : string :=
  channel msg ++ ":" ++ chatId msg.

Record OutboundMessage : Type := mkOutboundMessage {
  out_channel : string;
  out_chatId : string;
  out_content : string;
  out_replyTo : option string;
  out_media : list string
}.

(** A subscriber is a callback.  It is named by a number; called with a
    message it resolves or rejects, as [behaviour] says, and it acts on the
    bus in no other way. *)
Definition Callback : Type := nat.

Record MessageBus : Type := mkMessageBus {
  inbound : AsyncQueue.State InboundMessage;
  outbound : AsyncQueue.State OutboundMessage;
  outboundSubscribers : gmap string (list Callback);
  bus_running : bool;
  (* the calls made of subscribers, in order *)
  notified : list (Callback * OutboundMessage)
}.

Definition newMessageBus : MessageBus :=
  mkMessageBus AsyncQueue.empty AsyncQueue.empty ∅ false [].

Definition publishInbound (msg : InboundMessage) (b : MessageBus) : MessageBus :=
  mkMessageBus (fst (AsyncQueue.push msg (inbound b))) (outbound b)
               (outboundSubscribers b) (bus_running b) (notified b).

Definition publishOutbound (msg : OutboundMessage) (b : MessageBus) : MessageBus :=
  mkMessageBus (inbound b) (fst (AsyncQueue.push msg (outbound b)))
               (outboundSubscribers b) (bus_running b) (notified b).

Definition inboundSize (b : MessageBus) : nat := length (AsyncQueue.queue (inbound b)).
Definition outboundSize (b : MessageBus) : nat := length (AsyncQueue.queue (outbound b)).

Definition subscribeOutbound (channel : string) (callback : Callback) (b : MessageBus)
  : MessageBus :=
  let subscribers := default [] (outboundSubscribers b !! channel) in
  mkMessageBus (inbound b) (outbound b)
               (<[channel := (subscribers ++ [callback])%list]> (outboundSubscribers b))
               (bus_running b) (notified b).

Definition stop (b : MessageBus) : MessageBus :=
  mkMessageBus (inbound b) (outbound b) (outboundSubscribers b) false (notified b).

Section Dispatch.

Variable behaviour : Callback -> OutboundMessage -> Res unit.

(** [await callback(msg)] *)
Definition call (callback : Callback) (msg : OutboundMessage) (b : MessageBus)
  : Res unit * MessageBus :=
  (behaviour callback msg,
   mkMessageBus (inbound b) (outbound b) (outboundSubscribers b) (bus_running b)
                (notified b ++ [(callback, msg)])%list).

(** [for (const callback of subscribers) { try { await callback(msg) }
    catch (error) { logger.error(...) } }] *)
Fixpoint notifyAll (subscribers : list Callback) (msg : OutboundMessage) (b : MessageBus)
  : Res unit * MessageBus :=
  match subscribers with
  | [] => (Ok tt, b)
  | callback :: rest =>
      match call callback msg b with
      | (Ok _, b') => notifyAll rest msg b'
      | (Throw _, b') => notifyAll rest msg b'
      end
  end.

(** The body of the loop of [dispatchOutbound] for a message [msg] that
    [consumeOutboundWithTimeout] resolved to; [None] is the timeout. *)
Definition dispatchOne (msg : option OutboundMessage) (b : MessageBus)
  : Res unit * MessageBus :=
  match msg with
  | None => (Ok tt, b)
  | Some m =>
      let subscribers := default [] (outboundSubscribers b !! out_channel m) in
      notifyAll subscribers m b
  end.

(** [consumeOutboundWithTimeout(timeoutMs)]: what the call yields at once
    and the bus it leaves. *)
Definition consumeOutboundWithTimeout (timeoutMs : Z) (b : MessageBus)
  : AsyncQueue.Output OutboundMessage * MessageBus :=
  let (q, o) := AsyncQueue.popWithTimeout timeoutMs (outbound b) in
  (o, mkMessageBus (inbound b) q (outboundSubscribers b) (bus_running b) (notified b)).

(** How far the dispatcher has come. *)
Inductive LoopEnd : Type :=
| Returned                 (* [_running] was false at the loop test *)
| Awaiting (p : nat)       (* suspended on promise [p] of the outbound queue *)
| Rejected (e : JsValue)   (* an exception left the loop *)
| MoreTurns.               (* the turns counted by [fuel] are used up *)

(** [while (this._running) { ... }], as long as the message is there when
    it is asked for; no other call acts on the bus between two turns. *)
Fixpoint dispatchLoop (fuel : nat) (b : MessageBus) : LoopEnd * MessageBus :=
  match fuel with
  | O => (MoreTurns, b)
  | S fuel' =>
      if bus_running b then
        match consumeOutboundWithTimeout 1000 b with
        | (AsyncQueue.Item msg, b1) =>
            match dispatchOne (Some msg) b1 with
            | (Ok _, b2) => dispatchLoop fuel' b2
            | (Throw e, b2) => (Rejected e, b2)
            end
        | (AsyncQueue.Waiting p, b1) => (Awaiting p, b1)
        | (_, b1) => (MoreTurns, b1)   (* [popWithTimeout] has no other outcome *)
        end
      else (Returned, b)
  end.

(** The loop goes on when the promise it awaits is settled with [msg]
    ([None] is the [null] of the timeout). *)
Definition dispatchResume (fuel : nat) (msg : option OutboundMessage) (b : MessageBus)
  : LoopEnd * MessageBus :=
  match dispatchOne msg b with
  | (Ok _, b2) => dispatchLoop fuel b2
  | (Throw e, b2) => (Rejected e, b2)
  end.

Definition dispatchOutbound (fuel : nat) (b : MessageBus) : LoopEnd * MessageBus :=
  dispatchLoop fuel
    (mkMessageBus (inbound b) (outbound b) (outboundSubscribers b) true (notified b)).

End Dispatch.

(** The subscribers of a channel, in the order they subscribed. *)
Definition subscribersOf (b : MessageBus) (channel : string) : list Callback :=
  default [] (outboundSubscribers b !! channel).

(** A series of subscriptions (channel, callback), made in order. *)
Definition subscribeAll (subs : list (string * Callback)) (b : MessageBus) : MessageBus :=
  fold_left (fun b s => subscribeOutbound (fst s) (snd s) b) subs b.

(** A series of messages published to the channels, in order. *)
Definition publishAll (msgs : list OutboundMessage) (b : MessageBus) : MessageBus :=
  fold_left (fun b m => publishOutbound m b) msgs b.

(** The calls the dispatcher makes for a message: the subscribers of its
    channel, in the order they subscribed. *)
Definition callsFor (b : MessageBus) (msg : OutboundMessage)
  : list (Callback * OutboundMessage) :=
  map (fun callback => (callback, msg)) (subscribersOf b (out_channel msg)).

Definition hasColon (s : string) : bool := Str.includesChar ":" s.

End Bus.

(** ** Channels ([channels/base.ts]) *)

Module Channel.

Import Subagent.

(** [isAllowed]: [allowFrom] is the allow list of the channel's
    configuration ([None] when the configuration has none). *)
Definition isAllowed (allowFrom : option (list string)) (senderId : string) : bool :=
  let allowList := default [] allowFrom in
  if Nat.eqb (length allowList) 0 then true
  else if Str.arrayIncludes allowList senderId then true
  else if Str.includesChar "|" senderId
       then existsb (fun part => truthyStr part && Str.arrayIncludes allowList part)
                    (Str.splitChar "|" senderId)
       else false.

(** [handleMessage]; [name] is the channel's name and [now] the date of the
    call. *)
Definition handleMessage (name : string) (allowFrom : option (list string)) (now : Z)
  (senderId chatId content : string) (media : option (list string)) (bus : Bus.MessageBus)
  : Bus.MessageBus :=
  if negb (isAllowed allowFrom senderId) then bus
  else
    let msg := Bus.createInboundMessage now
                 {| Bus.p_channel := name;
                    Bus.p_senderId := senderId;
                    Bus.p_chatId := chatId;
                    Bus.p_content := content;
                    Bus.p_timestamp := None;
                    Bus.p_media := Some (default [] media) |} in
    Bus.publishInbound msg bus.

(** The senders an allow list lets in. *)
Definition admits (allowList : list string) (senderId : string) : Prop :=
  senderId ∈ allowList \/
  exists part, part ∈ Str.splitChar "|" senderId /\ part <> "" /\ part ∈ allowList.

End Channel.

(** ** The tool registry ([tools/registry.ts]) *)

Module ToolRegistry.

Section Registry.

(** The parameters of a call ([Record<string, unknown>]) and the
    environment the tools act on. *)
Variables (Params Env : Type).

(** A tool, as far as the registry looks at it: its name and what
    [execute] does, which may throw. *)
Record Tool : Type := mkTool {
  tool_name : string;
  tool_execute : Params -> Env -> Res string * Env
}.

(** [private tools: Map<string, Tool>] *)
Definition Registry : Type := gmap string Tool.

Definition newRegistry : Registry := ∅.

Definition register (tool : Tool) (tools : Registry) : Registry :=
  <[tool_name tool := tool]> tools.

Definition unregister (name : string) (tools : Registry) : Registry :=
  delete name tools.

Definition get (name : string) (tools : Registry) : option Tool := tools !! name.

Definition has (name : string) (tools : Registry) : bool :=
  match tools !! name with
  | Some _ => true
  | None => false
  end.

Definition registrySize (tools : Registry) : nat := size tools.

Definition execute (tools : Registry) (name : string) (params : Params) (e : Env)
  : Res string * Env :=
  match tools !! name with
  | None => (Ok ("Error: Tool '" ++ name ++ "' not found"), e)
  | Some tool =>
      match tool_execute tool params e with
      | (Ok text, e') => (Ok text, e')
      | (Throw error, e') =>
          (Ok ("Error executing " ++ name ++ ": " ++ String_ error), e')
      end
  end.

(** What the agent loops get from [tools.execute]: a text in every case. *)
Definition executeText (tools : Registry) (name : string) (params : Params) (e : Env)
  : string * Env :=
  match execute tools name params e with
  | (Ok text, e') => (text, e')
  | (Throw error, e') => (String_ error, e')
  end.

(** A history of registrations. *)
Inductive Change : Type :=
| Register (tool : Tool)
| Unregister (name : string).

Definition apply (tools : Registry) (c : Change) : Registry :=
  match c with
  | Register tool => register tool tools
  | Unregister name => unregister name tools
  end.

(** The tool a history leaves registered under a name: the one of the last
    registration under that name, unless the name was unregistered
    since. *)
Fixpoint lastRegistered (name : string) (history : list Change) (known : option Tool)
  : option Tool :=
  match history with
  | [] => known
  | Register tool :: rest =>
      lastRegistered name rest (if String.eqb (tool_name tool) name then Some tool else known)
  | Unregister n :: rest =>
      lastRegistered name rest (if String.eqb n name then None else known)
  end.

End Registry.

End ToolRegistry.

(** ** Spawning subagents ([SubagentManager.spawn], [tools/spawn.ts]) *)

Module Spawn.

Import Subagent.

Record SpawnOptions : Type := mkSpawnOptions {
  task : string;
  label : option string;
  originChannel : option string;
  originChatId : option string
}.

(** [options.label || options.task.slice(0, 30) + (options.task.length > 30
    ? "..." : "")] *)
Definition displayLabel (options : SpawnOptions) : string :=
  if truthyOptStr (label options) then default "" (label options)
  else Str.take 30 (task options) ++
       (if Nat.ltb 30 (String.length (task options)) then "..." else "").

Definition originOf (options : SpawnOptions) : Origin :=
  {| origin_channel := if truthyOptStr (originChannel options)
                       then default "" (originChannel options) else "cli";
     origin_chatId := if truthyOptStr (originChatId options)
                      then default "" (originChatId options) else "direct" |}.

Definition startedText (displayLabel taskId : string) : string :=
  "Subagent [" ++ displayLabel ++ "] started (id: " ++ taskId ++
  "). I'll notify you when it completes.".

(** The manager: the tasks that are running (the [AbortController] kept
    for each is never used) and the bus it announces on. *)
Record Manager : Type := mkManager {
  runningTasks : gmap string unit;
  bus : AsyncQueue.State InboundMessage
}.

Definition getRunningCount (m : Manager) : nat := size (runningTasks m).

(** A background run that [spawn] has started. *)
Record Background : Type := mkBackground {
  bg_taskId : string;
  bg_task : string;
  bg_label : string;
  bg_origin : Origin
}.

(** [spawn], up to its [return]: [uuid] is what [randomUUID()] returns. *)
Definition spawn (uuid : string) (options : SpawnOptions) (m : Manager)
  : string * Background * Manager :=
  let taskId := slice0 8 uuid in
  let displayLabel := displayLabel options in
  let origin := originOf options in
  (startedText displayLabel taskId,
   mkBackground taskId (task options) displayLabel origin,
   mkManager (<[taskId := tt]> (runningTasks m)) (bus m)).

Section Run.

Variables (Args Env : Type).
Variable provider_chat : list (CoreMessage Args) -> Res (LLMResponse Args).
Variable hasToolCalls : LLMResponse Args -> bool.
Variable tools_execute : string -> Args -> Env -> string * Env.
Variable buildSubagentPrompt : string -> string.

(** The background run comes to its end: [runSubagent] has announced its
    result on the bus as it is then, and [finally] forgets the task. *)
Definition settle (now : Z) (bg : Background) (e0 : Env) (m : Manager)
  : option (Report * Manager) :=
  match runSubagent Args Env provider_chat hasToolCalls tools_execute buildSubagentPrompt
          maxIterations now (bg_task bg) (bg_label bg) (bg_origin bg) e0 (bus m) with
  | Some (report, bus') =>
      Some (report, mkManager (delete (bg_taskId bg) (runningTasks m)) bus')
  | None => None
  end.

End Run.

(** [SpawnTool]: the origin it was last given with [setContext]. *)
Record SpawnTool : Type := mkSpawnTool {
  tool_originChannel : string;
  tool_originChatId : string
}.

Definition newSpawnTool : SpawnTool := mkSpawnTool "cli" "direct".

Definition setContext (channel chatId : string) (_ : SpawnTool) : SpawnTool :=
  mkSpawnTool channel chatId.

(** [SpawnTool.execute]: the options it calls [manager.spawn] with. *)
Definition spawnToolOptions (t : SpawnTool) (task : string) (label : option string)
  : SpawnOptions :=
  mkSpawnOptions task label (Some (tool_originChannel t)) (Some (tool_originChatId t)).

End Spawn.

(** ** The file edit tool ([tools/fs.ts], [EditFileTool]) *)

Module FsTools.

Section Tools.

(** The file system and the calls the tool makes on it.  [existsSync]
    never throws; [readFileSync] and [writeFileSync] may.  [expandUser]
    ([utils/paths.ts]) only rewrites the path.  [isEACCES error] is
    [(error as NodeJS.ErrnoException).code === "EACCES"]. *)
Variable FS : Type.
Variable expandUser : string -> string.
Variable existsSync : string -> FS -> bool.
Variable readFileSync : string -> FS -> Res string.
Variable writeFileSync : string -> string -> FS -> Res unit * FS.
Variable isEACCES : JsValue -> bool.

(** The [catch] block. *)
Definition editFailed (path : string) (error : JsValue) : string :=
  if isEACCES error then "Error: Permission denied: " ++ path
  else "Error editing file: " ++ String_ error.

Definition notFoundText : string :=
  "Error: old_text not found in file. Make sure it matches exactly.".

Definition ambiguousText (count : Z) : string :=
  "Warning: old_text appears " ++ pretty count ++
  " times. Please provide more context to make it unique.".

(** [content.split(old_text).length - 1] *)
Definition occurrences (old_text content : string) : Z :=
  Z.of_nat (length (Str.split old_text content)) - 1.

(** [EditFileTool.execute]: the text returned and the file system left. *)
Definition EditFileTool_execute (path old_text new_text : string) (fs : FS)
  : string * FS :=
  let filePath := expandUser path in
  if negb (existsSync filePath fs) then ("Error: File not found: " ++ path, fs)
  else
    match readFileSync filePath fs with
    | Throw error => (editFailed path error, fs)
    | Ok content =>
        if negb (Str.includes old_text content) then (notFoundText, fs)
        else
          let count := occurrences old_text content in
          if 1 <? count then (ambiguousText count, fs)
          else
            let content' := Str.replace old_text new_text content in
            match writeFileSync filePath content' fs with
            | (Ok _, fs') => ("Successfully edited " ++ path, fs')
            | (Throw error, fs') => (editFailed path error, fs')
            end
    end.

End Tools.

(** [pat] occurs in [s]. *)
Definition occursIn (pat s : string) : Prop :=
  exists before after, s = before ++ pat ++ after.

(** A file system of regular files that can all be read and written. *)
Definition Files : Type := gmap string string.

Definition files_exists (path : string) (fs : Files) : bool :=
  match fs !! path with
  | Some _ => true
  | None => false
  end.

Definition files_read (path : string) (fs : Files) : Res string :=
  match fs !! path with
  | Some content => Ok content
  | None => Throw (JsError "Error" ("ENOENT: no such file or directory, open '" ++ path ++ "'"))
  end.

Definition files_write (path content : string) (fs : Files) : Res unit * Files :=
  (Ok tt, <[path := content]> fs).

Definition edit_file : string -> string -> string -> Files -> string * Files :=
  EditFileTool_execute Files (fun path => path) files_exists files_read files_write
    (fun _ => false).

End FsTools.

(** ** The skills loader ([application/skills-loader.ts]) *)

Module Skills.

Inductive Source : Type := workspace | builtin.

Record SkillInfo : Type := mkSkill {
  skill_name : string;
  skill_path : string;
  skill_source : Source
}.

(** The front matter of a skill file, as far as the loader reads it. *)
Record SkillMetadata : Type := mkSkillMetadata {
  md_description : option string;
  md_always : bool;
  md_metadata : option string
}.

Record Requires : Type := mkRequires {
  bins : option (list string);
  env : option (list string)
}.

(** The [nanobot] object of the metadata, of the declared shape. *)
Record NanobotMetadata : Type := mkNanobot {
  nb_always : bool;
  requires : option Requires
}.

Definition noRequires : Requires := mkRequires None None.

(** [s.replace(/&/g, "&amp;").replace(/</g, "&lt;").replace(/>/g, "&gt;")] *)
Definition escapeXml (s : string) : string :=
  Str.replaceAllChar ">" "&gt;"
    (Str.replaceAllChar "<" "&lt;" (Str.replaceAllChar "&" "&amp;" s)).

(** What becomes of one character. *)
Definition escapeChar (c : ascii) : string :=
  if Ascii.eqb c "&" then "&amp;"
  else if Ascii.eqb c "<" then "&lt;"
  else if Ascii.eqb c ">" then "&gt;"
  else String c "".

Definition boolText (b : bool) : string := if b then "true" else "false".

Section Loader.

(** The surroundings of the loader: [path.join], the file system calls
    (all but [existsSync] may throw), [which] (an [execSync] in a
    [try]/[catch]), [process.env], [matter] of [gray-matter], and
    [parseNanobotMetadata], whose body is a [JSON.parse] in a
    [try]/[catch]. *)
Variable join : string -> string -> string.
Variable existsSync : string -> bool.
Variable readdirSync : string -> Res (list string).
Variable statSync_isDirectory : string -> Res bool.
Variable readFileSync : string -> Res string.
Variable which : string -> bool.
Variable processEnv : string -> option string.
Variable matter_data : string -> Res SkillMetadata.
Variable parseNanobotMetadata : string -> NanobotMetadata.
Variables workspaceSkills builtinSkills : string.

(** [for (const bin of ...) { if (!present(bin)) return false }] *)
Fixpoint allPresent (present : string -> bool) (names : list string) : bool :=
  match names with
  | [] => true
  | name :: rest => if negb (present name) then false else allPresent present rest
  end.

Definition envSet (name : string) : bool := truthyOptStr (processEnv name).

Definition checkRequirements (skillMeta : NanobotMetadata) : bool :=
  let requires := default noRequires (requires skillMeta) in
  if negb (allPresent which (default [] (bins requires))) then false
  else if negb (allPresent envSet (default [] (env requires))) then false
  else true.

(** [for (const x of ...) { if (!present(x)) missing.push(prefix + x) }] *)
Fixpoint pushMissing (present : string -> bool) (prefix : string) (names missing : list string)
  : list string :=
  match names with
  | [] => missing
  | name :: rest =>
      pushMissing present prefix rest
        (if negb (present name) then (missing ++ [(prefix ++ name)%string])%list else missing)
  end.

Definition getMissingRequirements (skillMeta : NanobotMetadata) : string :=
  let requires := default noRequires (requires skillMeta) in
  let missing := pushMissing which "CLI: " (default [] (bins requires)) [] in
  let missing := pushMissing envSet "ENV: " (default [] (env requires)) missing in
  Str.join ", " missing.

(** The body of the loop of [buildSkillsSummary] for one skill, given its
    description and its metadata. *)
Definition skillLines (skill : SkillInfo) (description : string) (skillMeta : NanobotMetadata)
  : list string :=
  let name := escapeXml (skill_name skill) in
  let path := skill_path skill in
  let desc := escapeXml description in
  let available := checkRequirements skillMeta in
  (["  <skill available=" ++ Subagent.dquote ++ boolText available ++ Subagent.dquote ++ ">";
    "    <name>" ++ name ++ "</name>";
    "    <description>" ++ desc ++ "</description>";
    "    <location>" ++ path ++ "</location>"]%string ++
   (if negb available then
      let missing := getMissingRequirements skillMeta in
      if truthyStr missing
      then [("    <requires>" ++ escapeXml missing ++ "</requires>")%string]
      else []
    else []) ++
   ["  </skill>"])%list.

(** The skill file of the entry [name] of [dir]; the entry is a directory
    that holds one; some skill of a list bears a name. *)
Definition fileOf (dir name : string) : string := join (join dir name) "SKILL.md".

Definition isSkillDir (dir name : string) : bool :=
  match statSync_isDirectory (join dir name) with
  | Ok true => existsSync (fileOf dir name)
  | _ => false
  end.

Definition named (skills : list SkillInfo) (name : string) : bool :=
  existsb (fun s => String.eqb (skill_name s) name) skills.

(** [loadSkill]: [None] is [null]. *)
Definition loadSkill (name : string) : Res (option string) :=
  let workspaceSkill := join (join workspaceSkills name) "SKILL.md" in
  if existsSync workspaceSkill then res_bind (readFileSync workspaceSkill) (fun c => Ok (Some c))
  else
    let builtinSkill := join (join builtinSkills name) "SKILL.md" in
    if existsSync builtinSkill then res_bind (readFileSync builtinSkill) (fun c => Ok (Some c))
    else Ok None.

Definition getSkillMetadata (name : string) : Res (option SkillMetadata) :=
  res_bind (loadSkill name) (fun content =>
  if negb (truthyOptStr content) then Ok None
  else try_catch (res_bind (matter_data (default "" content)) (fun data => Ok (Some data)))
                 (fun _ => Ok None)).

Definition getSkillMeta (name : string) : Res NanobotMetadata :=
  res_bind (getSkillMetadata name) (fun metadata =>
  let raw := match metadata with
             | Some m => if truthyOptStr (md_metadata m) then default "" (md_metadata m) else ""
             | None => ""
             end in
  Ok (parseNanobotMetadata raw)).

Definition getSkillDescription (name : string) : Res string :=
  res_bind (getSkillMetadata name) (fun metadata =>
  match metadata with
  | Some m => if truthyOptStr (md_description m) then Ok (default "" (md_description m))
              else Ok name
  | None => Ok name
  end).

(** The first loop of [listSkills]: the entries [names] of the workspace's
    skills directory. *)
Fixpoint scanWorkspace (names : list string) (skills : list SkillInfo)
  : Res (list SkillInfo) :=
  match names with
  | [] => Ok skills
  | name :: rest =>
      let skillDir := join workspaceSkills name in
      res_bind (statSync_isDirectory skillDir) (fun isDirectory =>
      if isDirectory then
        let skillFile := join skillDir "SKILL.md" in
        if existsSync skillFile
        then scanWorkspace rest (skills ++ [mkSkill name skillFile workspace])%list
        else scanWorkspace rest skills
      else scanWorkspace rest skills)
  end.

(** The second loop: the entries of the built-in skills directory. *)
Fixpoint scanBuiltin (names : list string) (skills : list SkillInfo)
  : Res (list SkillInfo) :=
  match names with
  | [] => Ok skills
  | name :: rest =>
      let skillDir := join builtinSkills name in
      res_bind (statSync_isDirectory skillDir) (fun isDirectory =>
      if isDirectory then
        let skillFile := join skillDir "SKILL.md" in
        if existsSync skillFile &&
           negb (existsb (fun s => String.eqb (skill_name s) name) skills)
        then scanBuiltin rest (skills ++ [mkSkill name skillFile builtin])%list
        else scanBuiltin rest skills
      else scanBuiltin rest skills)
  end.

(** [skills.filter((s) => this.checkRequirements(this.getSkillMeta(s.name)))] *)
Fixpoint filterAvailable (skills : list SkillInfo) : Res (list SkillInfo) :=
  match skills with
  | [] => Ok []
  | s :: rest =>
      res_bind (getSkillMeta (skill_name s)) (fun skillMeta =>
      res_bind (filterAvailable rest) (fun kept =>
      Ok (if checkRequirements skillMeta then s :: kept else kept)))
  end.

Definition listSkills (filterUnavailable : bool) : Res (list SkillInfo) :=
  res_bind (if existsSync workspaceSkills
            then res_bind (readdirSync workspaceSkills) (fun names => scanWorkspace names [])
            else Ok []) (fun skills =>
  res_bind (if existsSync builtinSkills
            then res_bind (readdirSync builtinSkills) (fun names => scanBuiltin names skills)
            else Ok skills) (fun skills =>
  if filterUnavailable then filterAvailable skills else Ok skills)).

(** The loop of [buildSkillsSummary]. *)
Fixpoint summaryLoop (skills : list SkillInfo) (lines : list string) : Res (list string) :=
  match skills with
  | [] => Ok lines
  | skill :: rest =>
      res_bind (getSkillDescription (skill_name skill)) (fun description =>
      res_bind (getSkillMeta (skill_name skill)) (fun skillMeta =>
      summaryLoop rest (lines ++ skillLines skill description skillMeta)%list))
  end.

Definition buildSkillsSummary : Res string :=
  res_bind (listSkills false) (fun allSkills =>
  if Nat.eqb (length allSkills) 0 then Ok ""
  else res_bind (summaryLoop allSkills ["<skills>"]) (fun lines =>
       Ok (Str.join Subagent.nl (lines ++ ["</skills>"])%list))).

End Loader.

End Skills.

(** ** The Feishu channel ([channels/feishu.ts], [onMessage]) *)

Module Feishu.

Import Subagent.

(** The event [im.message.receive_v1], as far as [onMessage] reads it;
    [None] is a property that is missing.  The identifiers, the message
    type and the content are strings, as the platform sends them; the
    content of a text message is JSON text of any shape. *)
Record SenderId : Type := mkSenderId {
  open_id : option string;
  user_id : option string
}.

Record Sender : Type := mkSender {
  sender_type : option string;
  sender_id : option SenderId
}.

Record Message : Type := mkMessage {
  chat_id : option string;
  message_type : option string;
  message_content : option string
}.

Record Event : Type := mkEvent {
  message : option Message;
  sender : option Sender
}.

(** [a || b] on strings that may be missing. *)
Definition orElse (a : option string) (b : string) : string :=
  if truthyOptStr a then default "" a else b.

(** The value of the variable [content]: a string or, when it comes from
    the [text] of the parsed content, any other JSON value. *)
Inductive Content : Type :=
| Text (s : string)
| Other (j : Json).

Definition ofJson (j : Json) : Content :=
  match j with
  | JStr s => Text s
  | _ => Other j
  end.

Definition truthyContent (c : Content) : bool :=
  match c with
  | Text s => truthyStr s
  | Other j => truthyJson (Some j)
  end.

(** [content.slice(0, 50)], evaluated for the log entry: strings and arrays
    have a [slice] method; on any other value the call throws a
    [TypeError]. *)
Definition hasSlice (c : Content) : bool :=
  match c with
  | Text _ => true
  | Other (JArr _) => true
  | Other _ => false
  end.

(** The call [this.handleMessage(senderId, chatId, content, [], ...)]. *)
Record Forward : Type := mkForward {
  fw_senderId : string;
  fw_chatId : string;
  fw_content : Content
}.

Section OnMessage.

(** [JSON.parse(message.content).text]: throws when the content is not
    JSON or is [null]; [None] when the value parsed has no [text];
    otherwise the JSON value of [text], of whatever type. *)
Variable parsedText : option string -> Res (option Json).

(** The branch of a text message: [textContent.text || ""], and
    [message.content || ""] in the [catch]. *)
Definition textContent (m : Message) : Content :=
  match parsedText (message_content m) with
  | Ok text => if truthyJson text then ofJson (default JNull text) else Text ""
  | Throw _ => Text (orElse (message_content m) "")
  end.

(** The content the channel forwards.  [contentParts] is filled only for
    the message types that leave [content] empty, so the two parts of the
    code after the [if] chain are written once for a text message, whose
    [contentParts] is empty, and once for the other types, whose [content]
    is a string. *)
Definition contentOf (m : Message) : Content :=
  let messageType := message_type m in
  if bool_decide (messageType = Some "text") then
    let content := textContent m in
    if negb (truthyContent content) then Text "[empty message]" else content
  else
    let '(content, contentParts) :=
      if bool_decide (messageType = Some "image") then ("", ["[image]"])
      else if bool_decide (messageType = Some "file") then ("", ["[file]"])
      else if bool_decide (messageType = Some "audio") then ("", ["[audio]"])
      else ("[Unsupported message type: " ++ default "undefined" messageType ++ "]", []) in
    let content :=
      if Nat.ltb 0 (length contentParts)
      then Str.join nl contentParts ++ (if truthyStr content then nl ++ content else "")
      else content in
    Text (if negb (truthyStr content) then "[empty message]" else content).

Definition senderIdOf (s : Sender) : string :=
  orElse (match sender_id s with Some i => open_id i | None => None end)
    (orElse (match sender_id s with Some i => user_id i | None => None end) "unknown").

(** [onMessage]: the call of [handleMessage] it makes, [None] when it
    returns before or when the exception of [content.slice] is caught by
    its [try]; [allowFrom] is the allow list of the configuration. *)
Definition onMessage (allowFrom : option (list string)) (event : Event) : option Forward :=
  match message event, sender event with
  | Some m, Some s =>
      if bool_decide (sender_type s = Some "app") then None
      else
        let senderId := senderIdOf s in
        let chatId := orElse (chat_id m) senderId in
        if negb (Channel.isAllowed allowFrom senderId) then None
        else
          let content := contentOf m in
          if negb (hasSlice content) then None
          else Some (mkForward senderId chatId content)
  | _, _ => None
  end.

End OnMessage.

End Feishu.

(** ** Cases for the bus, the channels, the registry and the spawn tool *)

Module BusCases.

Import Subagent Bus.

Definition toTelegram : OutboundMessage := mkOutboundMessage "telegram" "42" "hello" None [].
Definition toSlack : OutboundMessage := mkOutboundMessage "slack" "C7" "nobody listens" None [].
Definition toFeishu : OutboundMessage := mkOutboundMessage "feishu" "oc_1" "ni hao" None [].

(** Callback 1 rejects every message, the others resolve. *)
Definition firstFails (callback : Callback) (_ : OutboundMessage) : Res unit :=
  if Nat.eqb callback 1 then Throw (JsError "Error" "send failed") else Ok tt.

Definition threeSubscriptions : list (string * Callback) :=
  [("telegram", 1%nat); ("feishu", 2%nat); ("telegram", 3%nat)].

Definition fromTelegram : InboundMessage :=
  mkInboundMessage "telegram" "alice" "42:7" "hi" 0 [].

Definition fromTelegramLater : InboundMessage :=
  mkInboundMessage "telegram" "bob" "42:7" "hello" 5 [].

Definition allowList : option (list string) := Some ["alice"; "1001"].

(** Text messages from an allowed user: [{"text":"hello"}] and
    [{"text":42}]. *)
Definition helloJson : string :=
  "{" ++ dquote ++ "text" ++ dquote ++ ":" ++ dquote ++ "hello" ++ dquote ++ "}".
Definition numberJson : string := "{" ++ dquote ++ "text" ++ dquote ++ ":42}".

Definition textOf (content : option string) : Res (option Json) :=
  if bool_decide (content = Some helloJson) then Ok (Some (JStr "hello"))
  else if bool_decide (content = Some numberJson) then Ok (Some (JNum 42))
  else Throw (JsError "SyntaxError" "Unexpected token").

Definition fromAlice (content : string) : Feishu.Event :=
  Feishu.mkEvent
    (Some (Feishu.mkMessage (Some "oc_1") (Some "text") (Some content)))
    (Some (Feishu.mkSender (Some "user") (Some (Feishu.mkSenderId (Some "alice") None)))).

(** Two consumers wait on an empty queue, the second with a timeout. *)
Definition twoWaiting : AsyncQueue.State OutboundMessage :=
  fst (AsyncQueue.run AsyncQueue.empty [AsyncQueue.Pop; AsyncQueue.PopWithTimeout 1000]).

End BusCases.

Module SpawnCases.

Import Subagent Spawn.

Definition research : SpawnOptions :=
  mkSpawnOptions "Find the three most cited papers on interaction trees" None
                 (Some "telegram") (Some "42").

(** A model that answers at once, without tool calls. *)
Definition answersAtOnce (_ : list (CoreMessage unit)) : Res (LLMResponse unit) :=
  Ok (mkResponse unit (Some "done") [] "stop").

Definition noToolCalls (response : LLMResponse unit) : bool :=
  negb (Nat.eqb (length (toolCalls unit response)) 0).

Definition noTools (_ : string) (_ : unit) (e : unit) : string * unit := ("", e).

Definition idleManager : Manager := mkManager ∅ AsyncQueue.empty.

End SpawnCases.

(** ** Cases for the edit tool and the skills loader *)

Module FsCases.

Import FsTools.

Definition notes : Files := {["notes.txt" := "alpha beta gamma"]}.

End FsCases.

Module SkillsCases.

Import Skills.

Definition pathJoin (a b : string) : string := a ++ "/" ++ b.

Definition isOneOf (paths : list string) (path : string) : bool :=
  existsb (String.eqb path) paths.

(** A workspace with the skill [git] and a stray file, and built-in skills
    [git] and [summarize]. *)
Definition present : string -> bool :=
  isOneOf ["/w/skills"; "/app/skills"; "/w/skills/git/SKILL.md";
           "/app/skills/git/SKILL.md"; "/app/skills/summarize/SKILL.md"].

Definition entries (dir : string) : Res (list string) :=
  if String.eqb dir "/w/skills" then Ok ["git"; "notes.txt"]
  else if String.eqb dir "/app/skills" then Ok ["git"; "summarize"]
  else Throw (JsError "Error" "ENOENT").

Definition isDir (path : string) : Res bool :=
  Ok (isOneOf ["/w/skills/git"; "/app/skills/git"; "/app/skills/summarize"] path).

Definition fileText (path : string) : Res string := Ok ("# " ++ path).

(** A file system that ignores case: the workspace holds the skill [Git],
    which is also found under the name [git]. *)
Definition presentIgnoringCase : string -> bool :=
  isOneOf ["/w/skills"; "/app/skills"; "/w/skills/Git/SKILL.md"; "/w/skills/git/SKILL.md";
           "/app/skills/git/SKILL.md"].

Definition entriesIgnoringCase (dir : string) : Res (list string) :=
  if String.eqb dir "/w/skills" then Ok ["Git"]
  else if String.eqb dir "/app/skills" then Ok ["git"]
  else Throw (JsError "Error" "ENOENT").

Definition isDirIgnoringCase (path : string) : Res bool :=
  Ok (isOneOf ["/w/skills/Git"; "/w/skills/git"; "/app/skills/git"] path).

Definition noFrontMatter (_ : string) : Res SkillMetadata :=
  Ok (mkSkillMetadata None false None).

Definition noMetadata (_ : string) : NanobotMetadata := mkNanobot false None.

End SkillsCases.

(** * Properties *)

(** ** Truthiness *)

Lemma truthyNum_true z : truthyNum z = true <-> z <> 0.
Proof.
  unfold truthyNum. destruct (Z.eqb_spec z 0); simpl; split; intros; congruence.
Qed.

Lemma truthyStr_true s : truthyStr s = true <-> s <> "".
Proof.
  unfold truthyStr. destruct (String.eqb_spec s ""); simpl; split; intros; congruence.
Qed.


(** ** Next-run computation *)

Section NextRunFacts.

Context `{Collaborators}.

(** The function has no escaping exception: whatever the parser does is
    caught. *)
Lemma computeNextRun_returns schedule currentMs :
  exists r, computeNextRun schedule currentMs = Ok r.
Proof.
  unfold computeNextRun.
  destruct (String.eqb (kind schedule) "at"); [eauto|].
  destruct (String.eqb (kind schedule) "every").
  - destruct (everyMs schedule) as [e|]; [|eauto].
    destruct (negb (truthyNum e) || (e <=? 0)); eauto.
  - destruct (String.eqb (kind schedule) "cron" && truthyOptStr (expr schedule)); [|eauto].
    destruct (CronExpressionParser_parse _ _ _) as [i|err]; simpl; [|eauto].
    destruct (interval_next i); simpl; eauto.
Qed.

Lemma computeNextRun_at schedule currentMs :
  kind schedule = "at" ->
  computeNextRun schedule currentMs =
    Ok (match atMs schedule with
        | Some a => if truthyNum a && (a >? currentMs) then Some a else None
        | None => None
        end).
Proof. intros Hk. unfold computeNextRun. rewrite Hk. reflexivity. Qed.

Lemma computeNextRun_every schedule currentMs n :
  kind schedule = "every" -> everyMs schedule = Some n -> n > 0 ->
  computeNextRun schedule currentMs = Ok (Some (currentMs + n)).
Proof.
  intros Hk He Hn. unfold computeNextRun. rewrite Hk, He. simpl.
  assert (truthyNum n = true) as -> by (apply truthyNum_true; lia).
  assert ((n <=? 0) = false) as -> by (apply Z.leb_gt; lia).
  reflexivity.
Qed.

(** C3: for a schedule of kind "at" and a current time that is not before
    the epoch (every call passes [Date.now()]), the result is [atMs] when
    [atMs] is strictly after the current time and [undefined] in every
    other case, a missing [atMs] included; a returned time is always
    strictly after the current time. *)
Theorem computeNextRun_at_spec (schedule : Schedule) (t : Z) :
  kind schedule = "at" ->
  0 <= t ->
  (forall a, atMs schedule = Some a -> a > t ->
             computeNextRun schedule t = Ok (Some a)) /\
  (forall a, atMs schedule = Some a -> a <= t ->
             computeNextRun schedule t = Ok None) /\
  (atMs schedule = None -> computeNextRun schedule t = Ok None) /\
  (forall r, computeNextRun schedule t = Ok (Some r) ->
             atMs schedule = Some r /\ r > t).
Proof.
  intros Hk Ht. rewrite (computeNextRun_at _ _ Hk).
  split; [|split; [|split]].
  - intros a Ha Hgt. rewrite Ha.
    assert (truthyNum a = true) as -> by (apply truthyNum_true; lia).
    assert ((a >? t) = true) as -> by (apply Z.gtb_lt; lia). reflexivity.
  - intros a Ha Hle. rewrite Ha.
    assert ((a >? t) = false) as ->.
    { destruct (Z.gtb_spec a t); [lia|reflexivity]. }
    rewrite andb_false_r. reflexivity.
  - intros Ha. rewrite Ha. reflexivity.
  - intros r. destruct (atMs schedule) as [a|]; [|discriminate].
    destruct (truthyNum a && (a >? t)) eqn:Hc; [|discriminate].
    intros [= <-]. apply andb_prop in Hc as [_ Hgt].
    apply Z.gtb_lt in Hgt. split; [reflexivity|lia].
Qed.

(** C8: a cron schedule whose expression fails to parse at the current time
    yields [undefined], and the call returns normally. *)
Theorem computeNextRun_cron_invalid (schedule : Schedule) (t : Z) :
  kind schedule = "cron" ->
  (forall e, expr schedule = Some e ->
             exists err, CronExpressionParser_parse e t (tz schedule) = Throw err) ->
  computeNextRun schedule t = Ok None.
Proof.
  intros Hk Hbad. unfold computeNextRun. rewrite Hk. simpl.
  destruct (expr schedule) as [e|] eqn:He; simpl; [|reflexivity].
  destruct (truthyStr e); [|reflexivity].
  destruct (Hbad e eq_refl) as [err ->]. reflexivity.
Qed.

End NextRunFacts.

(** ** The heartbeat file check *)

Module HeartbeatFacts.
Import Heartbeat.

#[local] Arguments String.append : simpl nomatch.

Lemma append_nil_r (s : string) : s ++ "" = s.
Proof. induction s as [|c s IH]; simpl; [reflexivity|now rewrite IH]. Qed.

Lemma append_assoc (a b c : string) : (a ++ b) ++ c = a ++ (b ++ c).
Proof. induction a as [|x a IH]; simpl; [reflexivity|now rewrite IH]. Qed.

Lemma allWs_nil : allWs "".
Proof. constructor. Qed.

Lemma allWs_cons c s : allWs (String c s) <-> isWhiteSpace c = true /\ allWs s.
Proof.
  unfold allWs. simpl. split.
  - intros H. inversion H; subst. auto.
  - intros [H1 H2]. constructor; assumption.
Qed.

Lemma allWs_app a b : allWs (a ++ b) <-> allWs a /\ allWs b.
Proof.
  induction a as [|c a IH]; simpl.
  - split; [intros H; split; [apply allWs_nil|exact H]|intros [_ H]; exact H].
  - rewrite !allWs_cons, IH. tauto.
Qed.

Lemma isEmptyStr_true s : isEmptyStr s = true <-> s = "".
Proof. destruct s; simpl; split; congruence. Qed.

Lemma startsWith_iff s p : startsWith s p = true <-> exists rest, s = p ++ rest.
Proof.
  revert s. induction p as [|a p IH]; intros s; simpl.
  - split; [intros _; exists s; reflexivity|reflexivity].
  - destruct s as [|b s].
    + split; [discriminate|intros [rest H]; discriminate].
    + rewrite andb_true_iff, Ascii.eqb_eq, IH. split.
      * intros [-> [rest ->]]. exists rest. reflexivity.
      * intros [rest [= -> ->]]. split; [reflexivity|exists rest; reflexivity].
Qed.

(** [trimStart] strips a maximal white-space prefix. *)
Lemma trimStart_decomp s :
  exists indent, s = indent ++ trimStart s /\ allWs indent /\
    (trimStart s = "" \/
     exists c r, trimStart s = String c r /\ isWhiteSpace c = false).
Proof.
  induction s as [|c s (indent & Heq & Hws & Hhd)]; simpl.
  - exists "". split; [reflexivity|]. split; [apply allWs_nil|]. left. reflexivity.
  - destruct (isWhiteSpace c) eqn:Hc.
    + exists (String c indent). simpl. split; [congruence|].
      split; [apply allWs_cons; auto|exact Hhd].
    + exists "". split; [reflexivity|]. split; [apply allWs_nil|].
      right. exists c, s. auto.
Qed.

Lemma trimStart_app_ws indent s : allWs indent -> trimStart (indent ++ s) = trimStart s.
Proof.
  induction indent as [|c a IH]; simpl; intros H; [reflexivity|].
  apply allWs_cons in H as [-> H]. auto.
Qed.

Lemma trimStart_allWs s : allWs s -> trimStart s = "".
Proof.
  induction s as [|c s IH]; simpl; intros H; [reflexivity|].
  apply allWs_cons in H as [-> H]. auto.
Qed.

(** [trimEnd] strips a maximal white-space suffix. *)
Lemma trimEnd_decomp s :
  exists trail, s = trimEnd s ++ trail /\ allWs trail.
Proof.
  induction s as [|c s (trail & Heq & Hws)]; simpl.
  - exists "". split; [reflexivity|apply allWs_nil].
  - destruct (isWhiteSpace c && isEmptyStr (trimEnd s)) eqn:Hc.
    + apply andb_prop in Hc as [Hc He]. apply isEmptyStr_true in He.
      rewrite He in Heq. simpl in Heq. subst s.
      exists (String c trail). split; [reflexivity|]. apply allWs_cons; auto.
    + exists trail. simpl. split; [congruence|assumption].
Qed.

Lemma trimEnd_allWs s : allWs s -> trimEnd s = "".
Proof.
  induction s as [|c s IH]; simpl; intros H; [reflexivity|].
  apply allWs_cons in H as [-> H]. rewrite (IH H). reflexivity.
Qed.

Lemma trimEnd_cons_nonws c s :
  isWhiteSpace c = false -> trimEnd (String c s) = String c (trimEnd s).
Proof. intros H. simpl. rewrite H. reflexivity. Qed.

Lemma trimEnd_cons_nonempty c s :
  trimEnd s <> "" -> trimEnd (String c s) = String c (trimEnd s).
Proof.
  intros H. simpl. destruct (trimEnd s); [congruence|].
  simpl. rewrite andb_false_r. reflexivity.
Qed.

Lemma trimStart_nonws c s :
  isWhiteSpace c = false -> trimStart (String c s) = String c s.
Proof. intros H. simpl. rewrite H. reflexivity. Qed.

Lemma trimEnd_app_ws s trail : allWs trail -> trimEnd (s ++ trail) = trimEnd s.
Proof.
  intros H. induction s as [|c s IH]; simpl.
  - apply trimEnd_allWs, H.
  - rewrite IH. reflexivity.
Qed.

Lemma trim_decomp l :
  exists indent trail, l = indent ++ trim l ++ trail /\ allWs indent /\ allWs trail.
Proof.
  destruct (trimStart_decomp l) as (indent & Heq & Hws & _).
  destruct (trimEnd_decomp (trimStart l)) as (trail & Heq' & Hws').
  exists indent, trail. unfold trim. rewrite <- Heq'. auto.
Qed.

Lemma trim_core indent core trail c r :
  allWs indent -> allWs trail ->
  core = String c r -> isWhiteSpace c = false ->
  trim (indent ++ core ++ trail) = trimEnd core.
Proof.
  intros Hi Ht -> Hc. unfold trim.
  rewrite trimStart_app_ws by assumption.
  change (String c r ++ trail) with (String c (r ++ trail)).
  rewrite trimStart_nonws by assumption.
  change (String c (r ++ trail)) with (String c r ++ trail).
  apply trimEnd_app_ws, Ht.
Qed.

Lemma has_skipPatterns s :
  has skipPatterns s = true <->
  s = "- [ ]" \/ s = "* [ ]" \/ s = "- [x]" \/ s = "* [x]".
Proof.
  unfold has, skipPatterns. simpl.
  rewrite !orb_true_iff, !String.eqb_eq. intuition congruence.
Qed.

(** The loop's [continue] condition is exactly "the line is inert". *)
Lemma lineSkipped_inert l : lineSkipped l = true <-> inertLine l.
Proof.
  unfold lineSkipped, inertLine. rewrite !orb_true_iff. split.
  - destruct (trim_decomp l) as (indent & trail & Heq & Hi & Ht).
    intros [[[Hb|Hh]|Hc]|Hm].
    + left. unfold blankLine.
      destruct (trim l); [|discriminate]. rewrite Heq.
      apply allWs_app. split; [assumption|]. apply allWs_app. split; [constructor|assumption].
    + right; left. apply startsWith_iff in Hh as [rest Hr].
      exists indent, (rest ++ trail). split; [|assumption].
      rewrite Heq at 1. rewrite Hr. now rewrite append_assoc.
    + right; right; left. apply startsWith_iff in Hc as [rest Hr].
      exists indent, (rest ++ trail). split; [|assumption].
      rewrite Heq at 1. rewrite Hr. now rewrite append_assoc.
    + right; right; right. apply has_skipPatterns in Hm.
      exists indent, (trim l), trail. auto.
  - intros [Hb|[Hh|[Hc|Hm]]].
    + left; left; left. unfold trim. rewrite (trimStart_allWs l Hb). reflexivity.
    + left; left; right. destruct Hh as (indent & rest & -> & Hi).
      rewrite <- (append_nil_r rest) at 1.
      change ("#" ++ rest ++ "") with (String "#" rest ++ "").
      rewrite (trim_core indent (String "#" rest) "" "#" rest Hi allWs_nil eq_refl eq_refl).
      rewrite trimEnd_cons_nonws by reflexivity. reflexivity.
    + left; right. destruct Hc as (indent & rest & -> & Hi).
      rewrite <- (append_nil_r rest) at 1.
      change ("<!--" ++ rest ++ "") with (String "<" ("!--" ++ rest) ++ "").
      rewrite (trim_core indent (String "<" ("!--" ++ rest)) "" "<" ("!--" ++ rest)
                 Hi allWs_nil eq_refl eq_refl).
      change ("!--" ++ rest) with (String "!" (String "-" (String "-" rest))).
      rewrite !trimEnd_cons_nonws by reflexivity.
      reflexivity.
    + right. destruct Hm as (indent & marker & trail & -> & Hi & Ht & Hm).
      apply has_skipPatterns.
      assert (trim (indent ++ marker ++ trail) = marker) as ->; [|exact Hm].
      destruct Hm as [-> | [-> | [-> | ->]]];
        (erewrite trim_core; [reflexivity|assumption|assumption|reflexivity|reflexivity]).
Qed.

Lemma isHeartbeatEmpty_loop_Forall lines :
  isHeartbeatEmpty_loop lines = true <-> Forall inertLine lines.
Proof.
  induction lines as [|l lines IH]; simpl.
  - split; [constructor|reflexivity].
  - destruct (lineSkipped l) eqn:Hl.
    + rewrite IH. apply lineSkipped_inert in Hl. split.
      * intros H. constructor; assumption.
      * intros H. inversion H; assumption.
    + split; [discriminate|]. intros H. inversion H as [|? ? Hi _]; subst.
      apply lineSkipped_inert in Hi. congruence.
Qed.

(** A present file is "empty" exactly when each of its lines is inert. *)
Lemma isHeartbeatEmpty_Some content :
  isHeartbeatEmpty (Some content) = true <-> Forall inertLine (split_newline content).
Proof.
  unfold isHeartbeatEmpty. destruct content as [|c rest].
  - simpl. split; [|reflexivity]. intros _. constructor; [|constructor].
    left. apply allWs_nil.
  - change (negb (truthyStr (String c rest))) with false. cbv iota.
    apply isHeartbeatEmpty_loop_Forall.
Qed.

End HeartbeatFacts.

(** ** The asynchronous queue *)

Module AsyncQueueFacts.
Import AsyncQueue.

Local Open Scope nat_scope.
Local Open Scope list_scope.

Lemma map_fmap {A B} (f : A -> B) (l : list A) : map f l = f <$> l.
Proof. reflexivity. Qed.

Lemma elem_of_map {A B} (f : A -> B) (l : list A) (y : B) :
  y ∈ map f l <-> exists x, y = f x /\ x ∈ l.
Proof. rewrite map_fmap. apply list_elem_of_fmap. Qed.

Lemma elem_of_map_2 {A B} (f : A -> B) (l : list A) (x : A) : x ∈ l -> f x ∈ map f l.
Proof. intros H. apply elem_of_map. eauto. Qed.

Section Facts.

Context {T : Type}.

Lemma Resolver_eqb_eq a b : Resolver_eqb a b = true <-> a = b.
Proof.
  destruct a as [pa ta], b as [pb tb]. unfold Resolver_eqb. simpl.
  rewrite andb_true_iff, Nat.eqb_eq. split.
  - intros [-> H]. destruct ta, tb; try discriminate; [|reflexivity].
    apply Nat.eqb_eq in H. now subst.
  - intros [= -> ->]. split; [reflexivity|]. destruct tb; [apply Nat.eqb_refl|reflexivity].
Qed.

Lemma indexOf_splice f rs :
  match indexOf rs f with
  | Some index => splice1 index rs
  | None => rs
  end = removeFirst f rs.
Proof.
  induction rs as [|r rs IH]; simpl; [reflexivity|].
  destruct (Resolver_eqb r f); [reflexivity|].
  destruct (indexOf rs f) as [i|]; rewrite <- IH; reflexivity.
Qed.

Lemma removeFirst_elem f rs x : x ∈ removeFirst f rs -> x ∈ rs.
Proof.
  induction rs as [|r rs IH]; simpl; [tauto|].
  rewrite elem_of_cons.
  destruct (Resolver_eqb r f); [tauto|]. rewrite elem_of_cons. tauto.
Qed.

Lemma removeFirst_keeps f rs x : x ∈ rs -> x <> f -> x ∈ removeFirst f rs.
Proof.
  induction rs as [|r rs IH]; simpl; [tauto|].
  rewrite elem_of_cons. intros [->|Hin] Hne.
  - destruct (Resolver_eqb r f) eqn:E; [apply Resolver_eqb_eq in E; congruence|].
    apply elem_of_cons. left; reflexivity.
  - destruct (Resolver_eqb r f); [assumption|]. apply elem_of_cons. right. auto.
Qed.

Lemma removeFirst_NoDup f rs :
  NoDup (map promise rs) -> NoDup (map promise (removeFirst f rs)).
Proof.
  induction rs as [|r rs IH]; simpl; [auto|].
  rewrite NoDup_cons. intros [Hnot Hnd].
  destruct (Resolver_eqb r f); [assumption|].
  simpl. apply NoDup_cons. split; [|auto].
  intros Hin. apply Hnot. apply elem_of_map in Hin as (x & Hx & Hin).
  apply elem_of_map. exists x. split; [assumption|]. eapply removeFirst_elem; eauto.
Qed.

Lemma removeFirst_gone f rs :
  NoDup (map promise rs) -> f ∈ rs -> promise f ∉ map promise (removeFirst f rs).
Proof.
  induction rs as [|r rs IH]; simpl.
  - intros _ H. apply elem_of_nil in H. contradiction.
  - rewrite NoDup_cons, elem_of_cons. intros [Hnot Hnd] Hin.
    destruct (Resolver_eqb r f) eqn:E.
    + apply Resolver_eqb_eq in E. subst. assumption.
    + destruct Hin as [->|Hin].
      * rewrite (proj2 (Resolver_eqb_eq r r) eq_refl) in E. discriminate.
      * simpl. rewrite elem_of_cons. intros [Heq|Hin'].
        -- apply Hnot. rewrite <- Heq. apply elem_of_map_2. assumption.
        -- exact (IH Hnd Hin Hin').
Qed.

Lemma clearTimeout_elem h (ts : list (nat * Resolver * Z)) t :
  t ∈ clearTimeout h ts <-> t ∈ ts /\ fst (fst t) <> h.
Proof.
  unfold clearTimeout. rewrite list_elem_of_filter.
  rewrite negb_True, Is_true_true, Nat.eqb_eq. tauto.
Qed.

Lemma clearTimeout_NoDup h (ts : list (nat * Resolver * Z)) :
  NoDup (map (fun t => fst (fst t)) ts) ->
  NoDup (map (fun t => fst (fst t)) (clearTimeout h ts)).
Proof.
  unfold clearTimeout. induction ts as [|t ts IH]; simpl; [auto|].
  rewrite NoDup_cons. intros [Hnot Hnd].
  rewrite filter_cons. destruct (decide _); [|auto].
  simpl. apply NoDup_cons. split; [|auto].
  intros Hin. apply Hnot. apply elem_of_map in Hin as (x & Hx & Hin).
  apply elem_of_map. exists x. split; [assumption|].
  apply (clearTimeout_elem h ts x) in Hin. tauto.
Qed.

Lemma clearTimeout_handles h h' (ts : list (nat * Resolver * Z)) :
  h' ∈ map (fun t => fst (fst t)) (clearTimeout h ts) ->
  h' ∈ map (fun t => fst (fst t)) ts.
Proof.
  intros Hin. apply elem_of_map in Hin as (t & Ht & Hin).
  apply clearTimeout_elem in Hin as [Hin _].
  apply elem_of_map. exists t. auto.
Qed.

Lemma removeFirst_promises f rs q :
  q ∈ map promise (removeFirst f rs) -> q ∈ map promise rs.
Proof.
  intros Hin. apply elem_of_map in Hin as (r & Hr & Hin).
  apply elem_of_map. exists r. split; [assumption|]. eapply removeFirst_elem; eauto.
Qed.

Lemma find_timer h (ts : list (nat * Resolver * Z)) :
  match find (fun t => Nat.eqb (fst (fst t)) h) ts with
  | Some t => t ∈ ts /\ fst (fst t) = h
  | None => forall t, t ∈ ts -> fst (fst t) <> h
  end.
Proof.
  destruct (find _ ts) as [t|] eqn:E.
  - apply find_some in E as [Hin Heq]. apply Nat.eqb_eq in Heq.
    apply list_elem_of_In in Hin. auto.
  - intros t Hin Heq. apply list_elem_of_In in Hin. apply (find_none _ _ E) in Hin.
    apply Nat.eqb_neq in Hin. contradiction.
Qed.

Lemma handles_unique (ts : list (nat * Resolver * Z)) t1 t2 :
  NoDup (map (fun t => fst (fst t)) ts) ->
  t1 ∈ ts -> t2 ∈ ts -> fst (fst t1) = fst (fst t2) -> t1 = t2.
Proof.
  induction ts as [|t ts IH]; simpl.
  - intros _ H. apply elem_of_nil in H. contradiction.
  - rewrite NoDup_cons, !elem_of_cons. intros [Hnot Hnd] [->|H1] [->|H2] Heq; auto.
    + exfalso. apply Hnot. rewrite Heq.
      apply (elem_of_map_2 (fun t => fst (fst t))). assumption.
    + exfalso. apply Hnot. rewrite <- Heq.
      apply (elem_of_map_2 (fun t => fst (fst t))). assumption.
Qed.

Lemma Inv_empty : Inv (@empty T).
Proof.
  constructor; simpl.
  - left; reflexivity.
  - apply NoDup_nil_2.
  - intros r H. destruct (not_elem_of_nil _ H).
  - apply NoDup_nil_2.
  - intros p H. destruct (not_elem_of_nil _ H).
  - intros h r ms H. destruct (not_elem_of_nil _ H).
  - apply NoDup_nil_2.
  - intros r h H. destruct (not_elem_of_nil _ H).
Qed.

Lemma settled_snoc (l : list (nat * option T)) p v :
  map fst (l ++ [(p, v)]) = map fst l ++ [p].
Proof. rewrite map_app. reflexivity. Qed.

Lemma NoDup_snoc {A} (l : list A) x : NoDup l -> x ∉ l -> NoDup (l ++ [x]).
Proof.
  intros Hnd Hx. apply NoDup_app. split; [assumption|]. split.
  - intros y Hy Hin. apply list_elem_of_singleton in Hin. subst. contradiction.
  - apply NoDup_singleton.
Qed.

Lemma NoDup_map_inj {A B} (f : A -> B) (l : list A) x y :
  NoDup (map f l) -> x ∈ l -> y ∈ l -> f x = f y -> x = y.
Proof.
  induction l as [|a l IH]; simpl.
  - intros _ H. destruct (not_elem_of_nil _ H).
  - rewrite NoDup_cons, !elem_of_cons. intros [Hnot Hnd] [->|Hx] [->|Hy] Heq; auto.
    + exfalso. apply Hnot. rewrite Heq. apply elem_of_map_2. assumption.
    + exfalso. apply Hnot. rewrite <- Heq. apply elem_of_map_2. assumption.
Qed.

Lemma Inv_push x (s : State T) : Inv s -> Inv (fst (push x s)).
Proof.
  intros [Hex Hpn Hwf Hso Hsb Htr Hhn Hrt]. unfold push.
  unfold promises, settled, handles in *.
  destruct (resolvers s) as [|r rest] eqn:Hrs; simpl.
  - constructor; unfold promises, settled, handles; simpl; auto.
  - simpl in Hpn. apply NoDup_cons in Hpn as [Hr Hrest].
    assert (Hrin : r ∈ r :: rest) by (apply elem_of_cons; auto).
    destruct (Hwf r Hrin) as [Hrb Hrs'].
    constructor; simpl.
    + left. destruct Hex as [Hq|Hn]; [assumption|discriminate].
    + exact Hrest.
    + intros r' Hin.
      assert (Hin' : r' ∈ r :: rest) by (apply elem_of_cons; auto).
      destruct (Hwf r' Hin') as [Hb Hs]. split; [assumption|].
      unfold settled. simpl. rewrite settled_snoc, elem_of_app, list_elem_of_singleton.
      intros [H|H]; [contradiction|].
      apply Hr. rewrite <- H. apply elem_of_map_2. assumption.
    + unfold settled. simpl. rewrite settled_snoc. apply NoDup_snoc; assumption.
    + intros p. unfold settled. simpl.
      rewrite settled_snoc, elem_of_app, list_elem_of_singleton.
      intros [H| ->]; auto.
    + intros h r' ms Hin.
      assert (Hold : (h, r', ms) ∈ timers s /\ (forall hr, timeout r = Some hr -> h <> hr)).
      { destruct (timeout r) as [hr|].
        - apply clearTimeout_elem in Hin as [Hin Hne]. split; [assumption|].
          intros ? [= <-]. exact Hne.
        - split; [assumption|discriminate]. }
      destruct Hold as [Hold Hne]. destruct (Htr h r' ms Hold) as (Hr' & Hto & Hb).
      split; [|auto]. apply elem_of_cons in Hr' as [->|Hr']; [|assumption].
      destruct (Hne h Hto eq_refl).
    + unfold handles. simpl. destruct (timeout r); [|assumption].
      apply clearTimeout_NoDup. assumption.
    + intros r' h Hin Hto.
      assert (Hin' : r' ∈ r :: rest) by (apply elem_of_cons; auto).
      destruct (Hrt r' h Hin' Hto) as [ms Hms]. exists ms.
      destruct (timeout r) as [hr|] eqn:Hr0; [|assumption].
      apply clearTimeout_elem. split; [assumption|]. simpl. intros ->.
      destruct (Hrt r hr Hrin Hr0) as [ms' Hms'].
      assert ((hr, r', ms) = (hr, r, ms')) as [= -> _]
        by (eapply handles_unique; eauto).
      apply Hr. apply elem_of_map_2. assumption.
Qed.

Lemma Inv_pop (s : State T) : Inv s -> Inv (fst (pop s)).
Proof.
  intros [Hex Hpn Hwf Hso Hsb Htr Hhn Hrt]. unfold pop.
  destruct (queue s) as [|item rest] eqn:Hq; simpl.
  - constructor; simpl; rewrite ?Hq.
    + left; reflexivity.
    + unfold promises. simpl. rewrite map_app. simpl. apply NoDup_snoc; [assumption|].
      intros Hin. apply elem_of_map in Hin as (r & Hr & Hin).
      destruct (Hwf r Hin) as [Hb _]. lia.
    + intros r Hin. apply elem_of_app in Hin as [Hin|Hin].
      * destruct (Hwf r Hin). split; [lia|assumption].
      * apply list_elem_of_singleton in Hin. subst. simpl. split; [lia|].
        intros Hin. apply Hsb in Hin. lia.
    + assumption.
    + intros p Hin. apply Hsb in Hin. lia.
    + intros h r ms Hin. destruct (Htr h r ms Hin) as (Hr & Hto & Hb).
      split; [apply elem_of_app; auto|auto].
    + assumption.
    + intros r h Hin Hto. apply elem_of_app in Hin as [Hin|Hin]; [eauto|].
      apply list_elem_of_singleton in Hin. subst. discriminate.
  - destruct Hex as [Hq'|Hrs]; [discriminate|].
    constructor; simpl; auto.
Qed.

Lemma Inv_popWithTimeout ms (s : State T) : Inv s -> Inv (fst (popWithTimeout ms s)).
Proof.
  intros [Hex Hpn Hwf Hso Hsb Htr Hhn Hrt]. unfold popWithTimeout.
  destruct (queue s) as [|item rest] eqn:Hq; simpl.
  - constructor; simpl; rewrite ?Hq.
    + left; reflexivity.
    + unfold promises. simpl. rewrite map_app. simpl. apply NoDup_snoc; [assumption|].
      intros Hin. apply elem_of_map in Hin as (r & Hr & Hin).
      destruct (Hwf r Hin) as [Hb _]. lia.
    + intros r Hin. apply elem_of_app in Hin as [Hin|Hin].
      * destruct (Hwf r Hin). split; [lia|assumption].
      * apply list_elem_of_singleton in Hin. subst. simpl. split; [lia|].
        intros Hin. apply Hsb in Hin. lia.
    + assumption.
    + intros p Hin. apply Hsb in Hin. lia.
    + intros h r ms' Hin. apply elem_of_app in Hin as [Hin|Hin].
      * destruct (Htr h r ms' Hin) as (Hr & Hto & Hb).
        split; [apply elem_of_app; auto|]. split; [assumption|lia].
      * apply list_elem_of_singleton in Hin. injection Hin as -> -> ->.
        split; [apply elem_of_app; right; apply list_elem_of_singleton; reflexivity|].
        split; [reflexivity|lia].
    + unfold handles. simpl. rewrite map_app. simpl. apply NoDup_snoc; [assumption|].
      intros Hin. apply elem_of_map in Hin as ([[h r] ms'] & Hh & Hin). simpl in Hh.
      destruct (Htr h r ms' Hin) as (_ & _ & Hb). lia.
    + intros r h Hin Hto. apply elem_of_app in Hin as [Hin|Hin].
      * destruct (Hrt r h Hin Hto) as [ms' Hms]. exists ms'. apply elem_of_app. auto.
      * apply list_elem_of_singleton in Hin. subst. injection Hto as <-.
        exists ms. apply elem_of_app. right. apply list_elem_of_singleton. reflexivity.
  - destruct Hex as [Hq'|Hrs]; [discriminate|].
    constructor; simpl; auto.
Qed.

(** The state after the callback of a pending timer, with the removal
    written as [removeFirst]. *)
Lemma timerFires_found h (s : State T) wr ms :
  (h, wr, ms) ∈ timers s -> NoDup (handles s) ->
  timerFires h s =
    (mkState T (queue s) (removeFirst wr (resolvers s)) (clearTimeout h (timers s))
             (resolved s ++ [(promise wr, None)]) (nextPromise s) (nextTimer s),
     TimedOut (promise wr)).
Proof.
  intros Hin Hnd. unfold timerFires.
  pose proof (find_timer h (timers s)) as Hf.
  destruct (find _ (timers s)) as [[[h' wr'] ms']|].
  - destruct Hf as [Hin' Hh]. simpl in Hh. subst h'.
    assert ((h, wr', ms') = (h, wr, ms)) as [= -> ->]
      by (eapply handles_unique; eauto).
    rewrite indexOf_splice. reflexivity.
  - exfalso. exact (Hf _ Hin eq_refl).
Qed.

Lemma timerFires_none h (s : State T) :
  (forall t, t ∈ timers s -> fst (fst t) <> h) -> timerFires h s = (s, NoTimer).
Proof.
  intros Hno. unfold timerFires.
  pose proof (find_timer h (timers s)) as Hf.
  destruct (find _ (timers s)) as [t|]; [|reflexivity].
  destruct Hf as [Hin Hh]. destruct (Hno t Hin Hh).
Qed.

Lemma timer_cases h (s : State T) :
  (exists wr ms, (h, wr, ms) ∈ timers s) \/ (forall t, t ∈ timers s -> fst (fst t) <> h).
Proof.
  pose proof (find_timer h (timers s)) as Hf.
  destruct (find _ (timers s)) as [[[h' wr] ms]|].
  - destruct Hf as [Hin Hh]. simpl in Hh. subst. left. eauto.
  - right. assumption.
Qed.

Lemma Inv_timerFires h (s : State T) : Inv s -> Inv (fst (timerFires h s)).
Proof.
  intros HI. destruct (timer_cases h s) as [(wr & ms & Hin)|Hno].
  2: { rewrite timerFires_none by assumption. exact HI. }
  destruct HI as [Hex Hpn Hwf Hso Hsb Htr Hhn Hrt].
  rewrite (timerFires_found h s wr ms Hin Hhn). simpl.
  destruct (Htr h wr ms Hin) as (Hwr & Hto & Hb).
  destruct (Hwf wr Hwr) as [Hwb Hws].
  constructor; simpl.
  - left. destruct Hex as [Hq|Hrs]; [assumption|].
    rewrite Hrs in Hwr. destruct (not_elem_of_nil _ Hwr).
  - apply removeFirst_NoDup. assumption.
  - intros r Hr. pose proof (removeFirst_elem _ _ _ Hr) as Hr'.
    destruct (Hwf r Hr') as [Hrb Hrs]. split; [assumption|].
    unfold settled. simpl. rewrite settled_snoc, elem_of_app, list_elem_of_singleton.
    intros [H|H]; [contradiction|].
    apply (removeFirst_gone wr (resolvers s)); [assumption|assumption|].
    rewrite <- H. apply elem_of_map_2. assumption.
  - unfold settled. simpl. rewrite settled_snoc. apply NoDup_snoc; assumption.
  - intros p. unfold settled. simpl.
    rewrite settled_snoc, elem_of_app, list_elem_of_singleton.
    intros [H| ->]; auto.
  - intros h2 r ms2 Hin2. apply clearTimeout_elem in Hin2 as [Hin2 Hne]. simpl in Hne.
    destruct (Htr h2 r ms2 Hin2) as (Hr & Hto2 & Hb2).
    split; [|auto]. apply removeFirst_keeps; [assumption|].
    intros ->. congruence.
  - apply clearTimeout_NoDup. assumption.
  - intros r h2 Hr Hto2. pose proof (removeFirst_elem _ _ _ Hr) as Hr'.
    destruct (Hrt r h2 Hr' Hto2) as [ms2 Hms2]. exists ms2.
    apply clearTimeout_elem. split; [assumption|]. simpl. intros ->.
    assert ((h, r, ms2) = (h, wr, ms)) as [= -> _]
      by (eapply handles_unique; eauto).
    apply (removeFirst_gone wr (resolvers s)); [assumption|assumption|].
    apply elem_of_map_2. assumption.
Qed.

Lemma Inv_step (s : State T) e : Inv s -> Inv (fst (step s e)).
Proof.
  destruct e; simpl.
  - apply Inv_push.
  - apply Inv_pop.
  - apply Inv_popWithTimeout.
  - apply Inv_timerFires.
Qed.

Lemma run_cons (s : State T) e es :
  run s (e :: es) =
    (fst (run (fst (step s e)) es), snd (step s e) :: snd (run (fst (step s e)) es)).
Proof.
  simpl. destruct (step s e) as [s1 o]. simpl. destruct (run s1 es). reflexivity.
Qed.

Lemma run_app (s : State T) es1 es2 :
  fst (run s (es1 ++ es2)) = fst (run (fst (run s es1)) es2).
Proof.
  revert s. induction es1 as [|e es1 IH]; intros s; [reflexivity|].
  rewrite <- app_comm_cons, !run_cons. simpl. apply IH.
Qed.

Lemma Inv_run es (s : State T) : Inv s -> Inv (fst (run s es)).
Proof.
  revert s. induction es as [|e es IH]; intros s HI; [exact HI|].
  rewrite run_cons. simpl. apply IH, Inv_step, HI.
Qed.

(** *** Conservation of items *)

Lemma conservation es :
  forall s : State T, Inv s ->
    deliveredItems es (snd (run s es)) ++ queue (fst (run s es))
    = queue s ++ pushedItems es.
Proof.
  induction es as [|e es IH]; intros s HI.
  - simpl. rewrite app_nil_r. reflexivity.
  - rewrite run_cons. pose proof (Inv_step s e HI) as HI'. specialize (IH _ HI').
    destruct e as [x| |ms|h]; simpl in *.
    + unfold push in *. destruct (resolvers s) as [|r rest] eqn:Hrs; simpl in *.
      * rewrite IH, <- app_assoc. reflexivity.
      * destruct (inv_exclusive s HI) as [Hq|Hr]; [|congruence].
        rewrite Hq in *. simpl in *. rewrite IH. reflexivity.
    + unfold pop in *. destruct (queue s) as [|item rest] eqn:Hq; simpl in *.
      * exact IH.
      * rewrite IH. reflexivity.
    + unfold popWithTimeout in *. destruct (queue s) as [|item rest] eqn:Hq; simpl in *.
      * exact IH.
      * rewrite IH. reflexivity.
    + destruct (timer_cases h s) as [(wr & ms & Hin)|Hno].
      * rewrite (timerFires_found h s wr ms Hin (inv_handles_nodup s HI)) in *.
        simpl in *. exact IH.
      * rewrite (timerFires_none h s Hno) in *. simpl. exact IH.
Qed.

(** *** Calls of [resolve] *)

Lemma resolutions_snoc p q v (s s' : State T) :
  resolved s' = resolved s ++ [(q, v)] ->
  resolutions p s' = resolutions p s ++ (if Nat.eqb q p then [v] else []).
Proof.
  intros H. unfold resolutions. rewrite H, filter_app, map_app. f_equal.
  rewrite filter_cons, filter_nil. simpl.
  destruct (Nat.eqb q p); destruct (decide _) as [Hd|Hd]; simpl in Hd; try reflexivity;
    contradiction.
Qed.

Lemma resolutions_same p (s s' : State T) :
  resolved s' = resolved s -> resolutions p s' = resolutions p s.
Proof. intros H. unfold resolutions. rewrite H. reflexivity. Qed.

Lemma filter_unsettled p (l : list (nat * option T)) :
  p ∉ map fst l -> filter (fun c => Nat.eqb (fst c) p) l = [].
Proof.
  induction l as [|[q v] l IH]; simpl; [reflexivity|].
  rewrite elem_of_cons. intros Hnot. rewrite filter_cons. simpl.
  destruct (decide _) as [Hd|Hd].
  - apply Is_true_true, Nat.eqb_eq in Hd. subst. tauto.
  - apply IH. tauto.
Qed.

Lemma resolutions_unsettled p (s : State T) : p ∉ settled s -> resolutions p s = [].
Proof.
  intros H. unfold resolutions. rewrite filter_unsettled; [reflexivity|exact H].
Qed.

Lemma resolutions_at_most_once p (s : State T) :
  NoDup (settled s) -> length (resolutions p s) <= 1.
Proof.
  unfold resolutions, settled. induction (resolved s) as [|[q v] l IH]; simpl; [lia|].
  rewrite NoDup_cons. intros [Hnot Hnd]. rewrite filter_cons. simpl.
  destruct (decide _) as [Hd|Hd]; [|auto].
  apply Is_true_true, Nat.eqb_eq in Hd. subst.
  rewrite filter_unsettled by exact Hnot. simpl. lia.
Qed.

(** *** One call of [popWithTimeout]: its promise [p] and its timer [h] *)

Section OneCall.

Variables (p h : nat).

Let wrappedResolve : Resolver := mkResolver p (Some h).

#[local] Abbreviation waiting := (AsyncQueue.waiting p h).
#[local] Abbreviation finished := (AsyncQueue.finished p h).

Lemma handles_elem (s : State T) h' r ms : (h', r, ms) ∈ timers s -> h' ∈ handles s.
Proof. intros H. apply (elem_of_map_2 (fun t => fst (fst t)) _ _ H). Qed.

Lemma promises_elem (s : State T) r : r ∈ resolvers s -> promise r ∈ promises s.
Proof. apply elem_of_map_2. Qed.

Lemma finished_step v (s : State T) e : Inv s -> finished v s -> finished v (fst (step s e)).
Proof.
  intros HI (Hres & Hp & Hh & Hpb & Hhb).
  destruct e as [x| |ms|h']; simpl.
  - unfold push. destruct (resolvers s) as [|r rest] eqn:Hrs; simpl.
    + repeat split; try assumption. unfold promises. simpl.
      apply not_elem_of_nil.
    + assert (Hne : promise r <> p).
      { intros <-. apply Hp. unfold promises. rewrite Hrs. simpl.
        apply elem_of_cons. auto. }
      repeat split; try assumption.
      * rewrite (resolutions_snoc _ _ _ s) by reflexivity. simpl.
        apply Nat.eqb_neq in Hne. rewrite Hne, app_nil_r. exact Hres.
      * intros Hin. apply Hp. unfold promises in *. rewrite Hrs. simpl in *.
        apply elem_of_cons. auto.
      * intros Hin. apply Hh. unfold handles in *. simpl in Hin.
        destruct (timeout r); [|assumption].
        eapply clearTimeout_handles; eauto.
  - unfold pop. destruct (queue s) as [|item rest] eqn:Hq; simpl.
    + repeat split; simpl; try assumption; try lia.
      unfold promises. simpl. rewrite map_app, elem_of_app. simpl.
      rewrite list_elem_of_singleton. intros [H|H]; [contradiction|lia].
    + repeat split; assumption.
  - unfold popWithTimeout. destruct (queue s) as [|item rest] eqn:Hq; simpl.
    + repeat split; simpl; try assumption; try lia.
      * unfold promises. simpl. rewrite map_app, elem_of_app. simpl.
        rewrite list_elem_of_singleton. intros [H|H]; [contradiction|lia].
      * unfold handles. simpl. rewrite map_app, elem_of_app. simpl.
        rewrite list_elem_of_singleton. intros [H|H]; [contradiction|lia].
    + repeat split; assumption.
  - destruct (timer_cases h' s) as [(wr & ms & Hin)|Hno].
    + rewrite (timerFires_found h' s wr ms Hin (inv_handles_nodup s HI)). simpl.
      destruct (inv_timer_resolver s HI _ _ _ Hin) as (Hwr & _ & _).
      assert (Hne : promise wr <> p).
      { intros <-. apply Hp. apply promises_elem. assumption. }
      repeat split; try assumption.
      * rewrite (resolutions_snoc _ _ _ s) by reflexivity. simpl.
        apply Nat.eqb_neq in Hne. rewrite Hne, app_nil_r. exact Hres.
      * intros Hin'. apply Hp. unfold promises in *. simpl in Hin'.
        eapply removeFirst_promises; eauto.
      * intros Hin'. apply Hh. unfold handles in *. simpl in Hin'.
        eapply clearTimeout_handles; eauto.
    + rewrite (timerFires_none h' s Hno). simpl. repeat split; assumption.
Qed.

Lemma finished_run v es : forall s : State T, Inv s -> finished v s -> finished v (fst (run s es)).
Proof.
  induction es as [|e es IH]; intros s HI Hf; [exact Hf|].
  rewrite run_cons. simpl. apply IH; [apply Inv_step, HI|apply finished_step; assumption].
Qed.

Lemma waiting_bounds (s : State T) :
  Inv s -> waiting s -> p < nextPromise s /\ h < nextTimer s /\ (p ∉ settled s).
Proof.
  intros HI (Hwr & (ms & Hms) & _).
  destruct (inv_waiting_fresh s HI _ Hwr) as [Hb Hs].
  destruct (inv_timer_resolver s HI _ _ _ Hms) as (_ & _ & Hhb). auto.
Qed.

(** The timer of the call fires while it is waiting. *)
Lemma waiting_timerFires (s : State T) : Inv s -> waiting s -> finished None (fst (timerFires h s)).
Proof.
  intros HI Hw. destruct (waiting_bounds s HI Hw) as (Hpb & Hhb & Hps).
  destruct Hw as (Hwr & (ms & Hms) & Hres).
  rewrite (timerFires_found h s _ ms Hms (inv_handles_nodup s HI)). simpl.
  repeat split; simpl; try assumption.
  - rewrite (resolutions_snoc _ _ _ s) by reflexivity. simpl.
    rewrite Nat.eqb_refl, Hres. reflexivity.
  - apply (removeFirst_gone wrappedResolve (resolvers s));
      [exact (inv_promises_nodup s HI)|assumption].
  - unfold handles. simpl. intros Hin. apply elem_of_map in Hin as (t & Ht & Hin).
    apply clearTimeout_elem in Hin as [_ Hne]. congruence.
Qed.

Lemma waiting_other_timer (s : State T) h' :
  Inv s -> waiting s -> h' <> h -> waiting (fst (timerFires h' s)).
Proof.
  intros HI Hw Hne. destruct (timer_cases h' s) as [(wr & ms' & Hin)|Hno].
  2: { rewrite timerFires_none by assumption. exact Hw. }
  destruct Hw as (Hwr & (ms & Hms) & Hres).
  rewrite (timerFires_found h' s wr ms' Hin (inv_handles_nodup s HI)). simpl.
  destruct (inv_timer_resolver s HI _ _ _ Hin) as (Hwr' & Hto' & _).
  assert (Hdiff : wrappedResolve <> wr).
  { intros <-. simpl in Hto'. congruence. }
  repeat split; simpl.
  - apply removeFirst_keeps; assumption.
  - exists ms. apply clearTimeout_elem. split; [assumption|]. simpl. congruence.
  - rewrite (resolutions_snoc _ _ _ s) by reflexivity. simpl.
    destruct (Nat.eqb_spec (promise wr) p) as [Heq|_]; [|rewrite app_nil_r; exact Hres].
    exfalso. apply Hdiff. symmetry.
    eapply (NoDup_map_inj promise); eauto. exact (inv_promises_nodup s HI).
Qed.

Lemma waiting_pop (s : State T) : waiting s -> waiting (fst (pop s)).
Proof.
  intros (Hwr & (ms & Hms) & Hres). unfold pop.
  destruct (queue s); simpl; repeat split; simpl; eauto.
  apply elem_of_app. auto.
Qed.

Lemma waiting_popWithTimeout ms' (s : State T) : waiting s -> waiting (fst (popWithTimeout ms' s)).
Proof.
  intros (Hwr & (ms & Hms) & Hres). unfold popWithTimeout.
  destruct (queue s); simpl; repeat split; simpl; eauto.
  - apply elem_of_app. auto.
  - exists ms. apply elem_of_app. auto.
Qed.

(** A push either passes the call by or hands it the item. *)
Lemma waiting_push x (s : State T) :
  Inv s -> waiting s ->
  waiting (fst (push x s)) \/ finished (Some x) (fst (push x s)).
Proof.
  intros HI Hw. destruct (waiting_bounds s HI Hw) as (Hpb & Hhb & Hps).
  destruct Hw as (Hwr & (ms & Hms) & Hres).
  pose proof (inv_promises_nodup s HI) as Hnd.
  pose proof (inv_resolver_timer s HI) as Hrt.
  pose proof (inv_handles_nodup s HI) as Hhn.
  unfold push, promises in *.
  destruct (resolvers s) as [|r rest] eqn:Hrs; [destruct (not_elem_of_nil _ Hwr)|].
  simpl in Hnd. apply NoDup_cons in Hnd as [Hr Hrest].
  assert (Hrin : r ∈ r :: rest) by (apply elem_of_cons; auto).
  destruct (Resolver_eqb r wrappedResolve) eqn:E.
  - apply Resolver_eqb_eq in E. subst r. right. simpl.
    repeat split; simpl; try assumption.
    + rewrite (resolutions_snoc _ _ _ s) by reflexivity. simpl.
      rewrite Nat.eqb_refl, Hres. reflexivity.
    + unfold handles. simpl. intros Hin. apply elem_of_map in Hin as (t & Ht & Hin).
      apply clearTimeout_elem in Hin as [_ Hne]. congruence.
  - assert (Hdiff : r <> wrappedResolve).
    { intros Heq. apply Resolver_eqb_eq in Heq. congruence. }
    unfold wrappedResolve in Hdiff.
    apply elem_of_cons in Hwr as [Heq|Hwr]; [congruence|].
    left. repeat split; simpl.
    + assumption.
    + exists ms. destruct (timeout r) as [hr|] eqn:Hto; [|assumption].
      apply clearTimeout_elem. split; [assumption|]. simpl. intros <-.
      destruct (Hrt r h Hrin Hto) as [ms' Hms'].
      assert ((h, r, ms') = (h, wrappedResolve, ms)) as [= Heq _]
        by (eapply handles_unique; eauto).
      contradiction.
    + rewrite (resolutions_snoc _ _ _ s) by reflexivity. simpl.
      destruct (Nat.eqb_spec (promise r) p) as [Heq|_]; [|rewrite app_nil_r; exact Hres].
      exfalso. apply Hr. rewrite Heq.
      apply (elem_of_map_2 promise _ wrappedResolve). assumption.
Qed.

(** Once the timer event has happened, whatever raced with it, the call is
    over with exactly one outcome; without a push the outcome is [null]. *)
Lemma waiting_run es :
  forall s : State T, Inv s -> waiting s -> TimerFires h ∈ es ->
    exists v, finished v (fst (run s es)) /\ (noPush es = true -> v = None).
Proof.
  induction es as [|e es IH]; intros s HI Hw Hin.
  - destruct (not_elem_of_nil _ Hin).
  - rewrite run_cons. simpl. pose proof (Inv_step s e HI) as HI'.
    apply elem_of_cons in Hin.
    destruct e as [x| |ms|h'].
    + destruct Hin as [Heq|Hin]; [discriminate|].
      destruct (waiting_push x s HI Hw) as [Hw'|Hf].
      * destruct (IH _ HI' Hw' Hin) as (v & Hv & _). exists v. split; [exact Hv|].
        simpl. discriminate.
      * exists (Some x). split; [|simpl; discriminate].
        apply finished_run; assumption.
    + destruct Hin as [Heq|Hin]; [discriminate|].
      destruct (IH _ HI' (waiting_pop s Hw) Hin) as (v & Hv & Hn).
      exists v. split; [exact Hv|]. simpl. exact Hn.
    + destruct Hin as [Heq|Hin]; [discriminate|].
      destruct (IH _ HI' (waiting_popWithTimeout ms s Hw) Hin) as (v & Hv & Hn).
      exists v. split; [exact Hv|]. simpl. exact Hn.
    + destruct (Nat.eq_dec h' h) as [->|Hne].
      * exists None. split; [|reflexivity].
        apply finished_run; [assumption|]. apply waiting_timerFires; assumption.
      * destruct Hin as [Heq|Hin]; [congruence|].
        destruct (IH _ HI' (waiting_other_timer s h' HI Hw Hne) Hin) as (v & Hv & Hn).
        exists v. split; [exact Hv|]. simpl. exact Hn.
Qed.

End OneCall.

Lemma popWithTimeout_waiting ms (s : State T) :
  Inv s -> queue s = [] ->
  snd (popWithTimeout ms s) = Waiting (nextPromise s) /\
  waiting (nextPromise s) (nextTimer s) (fst (popWithTimeout ms s)).
Proof.
  intros HI Hq. unfold popWithTimeout. rewrite Hq. simpl. split; [reflexivity|].
  repeat split; simpl.
  - apply elem_of_app. right. apply list_elem_of_singleton. reflexivity.
  - exists ms. apply elem_of_app. right. apply list_elem_of_singleton. reflexivity.
  - apply resolutions_unsettled. intros Hin.
    apply (inv_settled_bound s HI) in Hin. lia.
Qed.

(** C2: a [popWithTimeout] on an empty queue either times out or is handed an
    item, never both.  If its timer fires and no push came before, the
    promise is resolved with [null], the resolver is no longer registered,
    and nothing that happens later resolves the promise again; if pushes race
    with the timer, [resolve] is still called at most once, and exactly once
    as soon as the timer event has happened. *)
Theorem popWithTimeout_single_outcome (pre : list (Event T)) (timeoutMs : Z) :
  let s0 := fst (run empty pre) in
  queue s0 = [] ->
  let p := nextPromise s0 in
  let h := nextTimer s0 in
  let s1 := fst (popWithTimeout timeoutMs s0) in
  snd (popWithTimeout timeoutMs s0) = Waiting p /\
  (forall mid later, noPush mid = true ->
     let s2 := fst (run s1 (mid ++ [TimerFires h])) in
     resolutions p s2 = [None] /\ (p ∉ promises s2) /\ (h ∉ handles s2) /\
     resolutions p (fst (run s2 later)) = [None]) /\
  (forall es,
     length (resolutions p (fst (run s1 es))) <= 1 /\
     (TimerFires h ∈ es ->
      exists v, resolutions p (fst (run s1 es)) = [v] /\
                (p ∉ promises (fst (run s1 es))) /\ (h ∉ handles (fst (run s1 es))))).
Proof.
  intros s0 Hq p h s1.
  assert (HI0 : Inv s0) by (apply Inv_run, Inv_empty).
  destruct (popWithTimeout_waiting timeoutMs s0 HI0 Hq) as [Hout Hw].
  assert (HI1 : Inv s1) by (apply Inv_popWithTimeout, HI0).
  split; [exact Hout|]. split.
  - intros mid later Hmid s2.
    assert (Hin : TimerFires h ∈ mid ++ [TimerFires h]).
    { apply elem_of_app. right. apply list_elem_of_singleton. reflexivity. }
    destruct (waiting_run p h _ s1 HI1 Hw Hin) as (v & Hf & Hn).
    assert (v = None) as ->.
    { apply Hn. unfold noPush in *. rewrite forallb_app, Hmid. reflexivity. }
    fold s2 in Hf.
    assert (HI2 : Inv s2) by (apply Inv_run, HI1).
    pose proof (finished_run p h None later s2 HI2 Hf) as (Hl & _).
    destruct Hf as (Hr & Hp & Hh & _). auto.
  - intros es. split.
    + apply resolutions_at_most_once, inv_settled_once, Inv_run, HI1.
    + intros Hin. destruct (waiting_run p h _ s1 HI1 Hw Hin) as (v & Hf & _).
      exists v. destruct Hf as (Hr & Hp & Hh & _). auto.
Qed.


End Facts.

End AsyncQueueFacts.

(** ** The persistence format *)

Module PersistenceFacts.

Lemma asOptNumber_fmap o : asOptNumber (JNum <$> o) = o.
Proof. destruct o; reflexivity. Qed.

Lemma asOptString_fmap o : asOptString (JStr <$> o) = o.
Proof. destruct o; reflexivity. Qed.

Lemma job_fields j :
  let v := Some (jobToJson j) in
  getProp v "id" = Ok (Some (JStr (id j))) /\
  getProp v "name" = Ok (Some (JStr (name j))) /\
  getProp v "enabled" = Ok (Some (JBool (enabled j))) /\
  getProp v "schedule" = Ok (Some (scheduleToJson (schedule j))) /\
  getProp v "payload" = Ok (Some (payloadToJson (payload j))) /\
  getProp v "state" = Ok (Some (stateToJson (state j))) /\
  getProp v "createdAtMs" = Ok (Some (JNum (createdAtMs j))) /\
  getProp v "updatedAtMs" = Ok (Some (JNum (updatedAtMs j))) /\
  getProp v "deleteAfterRun" = Ok (Some (JBool (deleteAfterRun j))).
Proof. repeat split; reflexivity. Qed.

Lemma schedule_fields s :
  let v := Some (scheduleToJson s) in
  getProp v "kind" = Ok (Some (JStr (kind s))) /\
  getProp v "atMs" = Ok (JNum <$> atMs s) /\
  getProp v "everyMs" = Ok (JNum <$> everyMs s) /\
  getProp v "expr" = Ok (JStr <$> expr s) /\
  getProp v "tz" = Ok (JStr <$> tz s).
Proof.
  destruct s as [k [a|] [e|] [x|] [t|]]; repeat split; reflexivity.
Qed.

Lemma payload_fields p :
  let v := Some (payloadToJson p) in
  getPropOpt v "kind" = Some (JStr (payload_kind p)) /\
  getPropOpt v "message" = Some (JStr (message p)) /\
  getPropOpt v "deliver" = Some (JBool (deliver p)) /\
  getPropOpt v "channel" = JStr <$> channel p /\
  getPropOpt v "to" = JStr <$> to p.
Proof.
  destruct p as [k m d [c|] [t|]]; repeat split; reflexivity.
Qed.

Lemma state_fields st :
  let v := Some (stateToJson st) in
  getPropOpt v "nextRunAtMs" = JNum <$> nextRunAtMs st /\
  getPropOpt v "lastRunAtMs" = JNum <$> lastRunAtMs st /\
  getPropOpt v "lastStatus" = JStr <$> lastStatus st /\
  getPropOpt v "lastError" = JStr <$> lastError st.
Proof.
  destruct st as [[n|] [l|] [s|] [e|]]; repeat split; reflexivity.
Qed.

Lemma message_default m : (if truthyStr m then m else "") = m.
Proof. destruct m; reflexivity. Qed.

(** What the loader reads back from a job written by [saveStore]: the job
    itself, up to the default for an empty payload kind. *)
Lemma parseJob_jobToJson j :
  payload_kind (payload j) <> "" -> parseJob (jobToJson j) = Ok j.
Proof.
  intros Hk. unfold parseJob.
  destruct (job_fields j) as (-> & -> & -> & -> & -> & -> & -> & -> & ->).
  cbn [res_bind].
  destruct (schedule_fields (schedule j)) as (-> & -> & -> & -> & ->).
  cbn [res_bind].
  destruct (payload_fields (payload j)) as (-> & -> & -> & -> & ->).
  destruct (state_fields (state j)) as (-> & -> & -> & ->).
  rewrite !asOptNumber_fmap, !asOptString_fmap. cbn [truthyJson nullish asString asOptNumber default].
  rewrite message_default. apply truthyStr_true in Hk. rewrite Hk.
  destruct j as [i n e [] [] [] c u d]. reflexivity.
Qed.

Lemma wellTyped_kind j : wellTyped j -> payload_kind (payload j) <> "".
Proof.
  intros (_ & Hp & _) Heq. rewrite Heq in Hp. simpl in Hp.
  intuition discriminate.
Qed.

Lemma mapRes_parseJob js :
  Forall (fun j => payload_kind (payload j) <> "") js ->
  mapRes parseJob (map jobToJson js) = Ok js.
Proof.
  induction 1 as [|j js Hj _ IH]; [reflexivity|].
  cbn [map mapRes].
  rewrite (parseJob_jobToJson j Hj). cbn [res_bind].
  rewrite IH. reflexivity.
Qed.

Lemma parseStore_storeToJson v js :
  Forall (fun j => payload_kind (payload j) <> "") js ->
  parseStore (storeToJson v js) = Ok (if truthyNum v then v else 1, js).
Proof.
  intros Hjs. unfold parseStore, storeToJson.
  change (getProp (Some (JObj [("version", JNum v); ("jobs", JArr (map jobToJson js))])) "jobs")
    with (Ok (A:=option Json) (Some (JArr (map jobToJson js)))).
  cbn [res_bind truthyJson].
  rewrite (mapRes_parseJob js Hjs). reflexivity.
Qed.

End PersistenceFacts.

(** ** The scheduler *)

Section SchedulerFacts.

Context `{Collaborators}.

#[local] Arguments updateAt : simpl never.

Lemma updateAt_same h r f : updateAt h r f r = f (h r).
Proof. unfold updateAt. rewrite Nat.eqb_refl. reflexivity. Qed.

Lemma updateAt_other h r f r' : r' <> r -> updateAt h r f r' = h r'.
Proof.
  intros Hne. unfold updateAt. apply Nat.eqb_neq in Hne. rewrite Hne. reflexivity.
Qed.

Lemma id_updateAt h r f r0 :
  (forall j, id (f j) = id j) -> id (updateAt h r f r0) = id (h r0).
Proof.
  intros Hf. unfold updateAt. destruct (Nat.eqb r0 r); [apply Hf|reflexivity].
Qed.

Lemma checkHeartbeatFile_eq w : checkHeartbeatFile w = (Ok (hasTasks (heartbeatFile w)), w).
Proof.
  unfold checkHeartbeatFile, bind, gets, ret, hasTasks.
  destruct (heartbeatFile w); reflexivity.
Qed.

(** Everything [executeJob] does, by cases. *)
Lemma executeJob_effect w r :
  let j := heap w r in
  exists w',
    executeJob r w = (Ok tt, w') /\
    (forall r', r' <> r -> heap w' r' = heap w r') /\
    sameSurroundings w w' /\
    sameIdentity j (heap w' r) /\
    lastRunAtMs (state (heap w' r)) = Some (clock (ticks w)) /\
    (ticks w < ticks w')%nat /\
    if gated w j then
      lastStatus (state (heap w' r)) = Some "skipped" /\
      lastError (state (heap w' r)) = lastError (state j) /\
      calls w' = calls w /\ store w' = store w /\
      enabled (heap w' r) = enabled j /\
      computeNextRun (schedule j) (clock (2 + ticks w))
        = Ok (nextRunAtMs (state (heap w' r)))
    else
      calls w' = (calls w ++ if isSome onJob then [j] else [])%list /\
      match outcome j with
      | Ok _ =>
          lastStatus (state (heap w' r)) = Some "ok" /\
          lastError (state (heap w' r)) = None
      | Throw e =>
          lastStatus (state (heap w' r)) = Some "error" /\
          lastError (state (heap w' r)) = Some (String_ e)
      end /\
      if String.eqb (kind (schedule j)) "at" then
        match store w with
        | Some st =>
            if deleteAfterRun j then
              store w' =
                Some {| version := version st;
                        jobs := filter (fun r' => negb (String.eqb (id (heap w r')) (id j)))
                                       (jobs st) |} /\
              enabled (heap w' r) = enabled j /\
              nextRunAtMs (state (heap w' r)) = nextRunAtMs (state j)
            else
              store w' = store w /\ enabled (heap w' r) = false /\
              nextRunAtMs (state (heap w' r)) = None
        | None =>
            store w' = store w /\ enabled (heap w' r) = false /\
            nextRunAtMs (state (heap w' r)) = None
        end
      else
        store w' = store w /\ enabled (heap w' r) = enabled j /\
        computeNextRun (schedule j) (clock (2 + ticks w))
          = Ok (nextRunAtMs (state (heap w' r))).
Proof.
  intros j. subst j.
  destruct (computeNextRun_returns
              (schedule (heap w r)) (clock (S (S (ticks w))))) as [next Hnext].
  unfold executeJob, gated, outcome, bind, nowMs, readJob, gets. simpl.
  destruct (String.eqb (payload_kind (payload (heap w r))) "heartbeat") eqn:Hk; simpl;
    [rewrite checkHeartbeatFile_eq; simpl;
     destruct (hasTasks (heartbeatFile w)) eqn:Hf; simpl|].
  2: { unfold modifyJob, modify, liftRes. simpl. rewrite !updateAt_same. simpl.
       rewrite Hnext. eexists. split; [reflexivity|]. simpl. rewrite !updateAt_same. simpl.
       repeat split; auto; try lia.
       intros r' Hne. rewrite !updateAt_other by assumption. reflexivity. }
  all: unfold tryM, invokeOnJob, ret, modifyJob, modify, liftRes, isSome.
  all: destruct onJob as [cb|]; simpl;
    [destruct (cb (heap w r)) as [[]|e] eqn:Hcb|]; simpl; rewrite ?updateAt_same; simpl.
  all: destruct (String.eqb (kind (schedule (heap w r))) "at") eqn:Hat; simpl;
    [destruct (store w) as [st|] eqn:Hst; simpl;
     [destruct (deleteAfterRun (heap w r)) eqn:Hdel; simpl|]
    |rewrite ?updateAt_same; simpl; rewrite Hnext; simpl].
  all: eexists; (split; [reflexivity|]); simpl; rewrite ?updateAt_same; simpl.
  all: rewrite ?app_nil_r.
  all: repeat split; auto; try lia.
  all: try (intros r' Hne; rewrite !updateAt_other by assumption; reflexivity).
  all: do 2 f_equal; apply list_filter_iff; intros r0;
    rewrite !id_updateAt by (intros; reflexivity); reflexivity.
Qed.

(** *** The heartbeat gate *)

Lemma hasTasks_inert text :
  hasTasks (Content text) = false <->
  Forall Heartbeat.inertLine (Heartbeat.split_newline text).
Proof.
  unfold hasTasks. rewrite negb_false_iff. apply HeartbeatFacts.isHeartbeatEmpty_Some.
Qed.

Lemma hasTasks_actionable text :
  Exists (fun l => ~ Heartbeat.inertLine l) (Heartbeat.split_newline text) ->
  hasTasks (Content text) = true.
Proof.
  intros Hex. destruct (hasTasks (Content text)) eqn:E; [reflexivity|].
  apply hasTasks_inert in E. apply Exists_exists in Hex as (l & Hin & Hl).
  rewrite Forall_forall in E. destruct (Hl (E l Hin)).
Qed.


(** *** Sorting *)

Section Sorting.

Context {A : Type} (cmp : A -> A -> comparison) (le : A -> A -> Prop).

Hypothesis cmp_Gt : forall x y, cmp x y = Gt -> le y x.
Hypothesis cmp_not_Gt : forall x y, cmp x y <> Gt -> le x y.

Lemma sortInsert_perm x l : sortInsert cmp x l ≡ₚ x :: l.
Proof.
  induction l as [|y l IH]; simpl; [reflexivity|].
  destruct (cmp x y); try reflexivity.
  rewrite IH. apply Permutation_swap.
Qed.

Lemma Array_sort_perm l : Array_sort cmp l ≡ₚ l.
Proof.
  induction l as [|x l IH]; simpl; [reflexivity|].
  change (fold_right (sortInsert cmp) [] l) with (Array_sort cmp l).
  rewrite sortInsert_perm, IH. reflexivity.
Qed.

Lemma sortInsert_HdRel x y l :
  le y x -> HdRel le y l -> HdRel le y (sortInsert cmp x l).
Proof.
  intros Hyx Hhd. destruct l as [|z l]; simpl; [constructor; assumption|].
  inversion Hhd; subst. destruct (cmp x z); constructor; assumption.
Qed.

Lemma sortInsert_Sorted x l : Sorted le l -> Sorted le (sortInsert cmp x l).
Proof.
  induction l as [|y l IH]; simpl; intros Hs.
  - repeat constructor.
  - inversion Hs as [|? ? Hl Hhd]; subst.
    destruct (cmp x y) eqn:E.
    + constructor; [assumption|]. constructor. apply cmp_not_Gt. congruence.
    + constructor; [assumption|]. constructor. apply cmp_not_Gt. congruence.
    + constructor; [apply IH; assumption|].
      apply sortInsert_HdRel; [apply cmp_Gt; assumption|assumption].
Qed.

Lemma Array_sort_Sorted l : Sorted le (Array_sort cmp l).
Proof.
  induction l as [|x l IH]; simpl; [constructor|].
  apply sortInsert_Sorted. exact IH.
Qed.

End Sorting.

(** *** Loading the store *)

Lemma newJobs_ok js :
  forall w, exists w',
    newJobs js w = (Ok (seq (nextRef w) (length js)), w') /\
    nextRef w' = (nextRef w + length js)%nat /\
    (forall r, (r < nextRef w)%nat -> heap w' r = heap w r) /\
    map (heap w') (seq (nextRef w) (length js)) = js /\
    store w' = store w /\ heartbeatJobId w' = heartbeatJobId w /\
    storeFile w' = storeFile w.
Proof.
  induction js as [|j js IH]; intros w.
  - exists w. simpl. unfold ret. repeat split; auto; lia.
  - simpl. unfold bind, newJob.
    destruct (IH (set_nextRef (S (nextRef w))
                    (set_heap (updateAt (heap w) (nextRef w) (fun _ => j)) w)))
      as (w' & Hrun & Hnext & Hold & Hmap & Hst & Hhb & Hsf).
    simpl in *. rewrite Hrun. unfold ret. exists w'.
    split; [reflexivity|]. split; [lia|]. split.
    { intros r Hr. rewrite Hold by lia. apply updateAt_other. lia. }
    split; [|auto].
    rewrite Hmap. f_equal. rewrite Hold by lia. apply updateAt_same.
Qed.

Lemma loadStore_cached w st : store w = Some st -> loadStore w = (Ok st, w).
Proof. intros Hst. unfold loadStore, bind, gets. rewrite Hst. reflexivity. Qed.

Lemma loadStore_ok w :
  exists st w', loadStore w = (Ok st, w') /\ store w' = Some st /\
                heartbeatJobId w' = heartbeatJobId w.
Proof.
  destruct (store w) as [st|] eqn:Hst.
  - exists st, w. rewrite (loadStore_cached w st Hst). auto.
  - unfold loadStore, bind, gets, modify, ret. rewrite Hst.
    destruct (storeFile w) as [| |data]; simpl; try (eexists _, _; split; [reflexivity|]; auto).
    destruct (parseStore data) as [[v js]|e]; simpl.
    + destruct (newJobs_ok js w) as (w' & Hrun & _ & _ & _ & _ & Hhb & _).
      unfold bind. rewrite Hrun. simpl.
      eexists _, _. split; [reflexivity|]. simpl. auto.
    + eexists _, _. split; [reflexivity|]. auto.
Qed.

(** *** Listing *)

Lemma keyLe_trans a b c : keyLe a b -> keyLe b c -> keyLe a c.
Proof. destruct a, b, c; simpl; try tauto; lia. Qed.

Lemma compareJobs_Gt a b : compareJobs a b = Gt -> runsNoLater b a.
Proof.
  unfold compareJobs, runsNoLater. destruct (sortKey a), (sortKey b); simpl; try discriminate.
  - intros Hc. apply Z.compare_gt_iff in Hc. lia.
  - auto.
Qed.

Lemma compareJobs_not_Gt a b : compareJobs a b <> Gt -> runsNoLater a b.
Proof.
  unfold compareJobs, runsNoLater. destruct (sortKey a), (sortKey b); simpl; tauto.
Qed.

Lemma listJobs_spec w :
  exists l w' st,
    listJobs w = (Ok l, w') /\ store w' = Some st /\
    (forall st0, store w = Some st0 -> w' = w /\ st = st0) /\
    l ≡ₚ filter (fun r => strictNeqOpt (id (heap w' r)) (heartbeatJobId w')) (jobs st) /\
    StronglySorted (fun a b => runsNoLater (heap w' a) (heap w' b)) l.
Proof.
  destruct (store w) as [st0|] eqn:Hst0.
  - exists (Array_sort (fun a b => compareJobs (heap w a) (heap w b))
              (filter (fun r => strictNeqOpt (id (heap w r)) (heartbeatJobId w)) (jobs st0))),
      w, st0.
    unfold listJobs, bind. rewrite (loadStore_cached w st0 Hst0). simpl.
    split; [reflexivity|]. split; [assumption|].
    split; [intros ? [= <-]; auto|]. split; [apply Array_sort_perm|].
    apply Sorted_StronglySorted.
    + intros a b c. apply keyLe_trans.
    + apply (Array_sort_Sorted _ (fun a b => runsNoLater (heap w a) (heap w b))).
      * intros x y. apply compareJobs_Gt.
      * intros x y. apply compareJobs_not_Gt.
  - destruct (loadStore_ok w) as (st & w' & Hload & Hst & Hhb).
    exists (Array_sort (fun a b => compareJobs (heap w' a) (heap w' b))
              (filter (fun r => strictNeqOpt (id (heap w' r)) (heartbeatJobId w')) (jobs st))),
      w', st.
    unfold listJobs, bind. rewrite Hload. simpl.
    split; [reflexivity|]. split; [assumption|].
    split; [discriminate|]. split; [apply Array_sort_perm|].
    apply Sorted_StronglySorted.
    + intros a b c. apply keyLe_trans.
    + apply (Array_sort_Sorted _ (fun a b => runsNoLater (heap w' a) (heap w' b))).
      * intros x y. apply compareJobs_Gt.
      * intros x y. apply compareJobs_not_Gt.
Qed.

(** C9 (as amended): [listJobs] returns exactly the jobs of the store whose
    id differs from the heartbeat job's, each once, ordered by ascending
    [nextRunAtMs], where a [nextRunAtMs] that is undefined or zero counts as
    infinite and sorts last. *)
Theorem listJobs_sorted (w : World) :
  exists l w' st,
    listJobs w = (Ok l, w') /\ store w' = Some st /\
    l ≡ₚ filter (fun r => strictNeqOpt (id (heap w' r)) (heartbeatJobId w')) (jobs st) /\
    StronglySorted (fun a b => runsNoLater (heap w' a) (heap w' b)) l.
Proof.
  destruct (listJobs_spec w) as (l & w' & st & H1 & H2 & _ & H3 & H4).
  exists l, w', st. auto.
Qed.

(** *** After a job has run *)

(** C4 (as amended): after [executeJob] on a job of the store that the
    heartbeat gate lets through, a job of kind "at" is removed from the
    store (with every job of the same id) when [deleteAfterRun] is set, and
    is otherwise kept in the store with [enabled = false] and [nextRunAtMs]
    undefined, and is returned by [listJobs] unless its id is the heartbeat
    job's; a job of another kind gets the [nextRunAtMs] that [computeNextRun]
    gives for the current clock reading, whether it was gated or not. *)
Theorem one_shot_after_run (w : World) (st : JobStore) (r : ref) :
  store w = Some st -> r ∈ jobs st ->
  exists w',
    executeJob r w = (Ok tt, w') /\
    (kind (schedule (heap w r)) = "at" -> gated w (heap w r) = false ->
     if deleteAfterRun (heap w r)
     then exists st', store w' = Some st' /\ (r ∉ jobs st') /\
                      (forall r', r' ∈ jobs st' -> id (heap w' r') <> id (heap w r))
     else store w' = Some st /\
          enabled (heap w' r) = false /\
          nextRunAtMs (state (heap w' r)) = None /\
          (strictNeqOpt (id (heap w r)) (heartbeatJobId w) = true ->
           exists l, listJobs w' = (Ok l, w') /\ r ∈ l)) /\
    (kind (schedule (heap w r)) <> "at" ->
     computeNextRun (schedule (heap w r)) (clock (2 + ticks w))
       = Ok (nextRunAtMs (state (heap w' r)))).
Proof.
  intros Hst Hin.
  destruct (executeJob_effect w r)
    as (w' & Hrun & Hframe & Hsame & Hid & _ & _ & Hcases).
  exists w'. split; [exact Hrun|]. split.
  - intros Hat Hgate. rewrite Hgate, Hat, Hst in Hcases. simpl in Hcases.
    destruct Hcases as (_ & _ & Hcases).
    destruct (deleteAfterRun (heap w r)).
    + destruct Hcases as (Hst' & _ & _). eexists. split; [exact Hst'|]. simpl.
      assert (Hfilter : forall r', r' ∈ filter
                 (fun r' => negb (String.eqb (id (heap w r')) (id (heap w r)))) (jobs st) ->
                 id (heap w r') <> id (heap w r)).
      { intros r' Hr'. apply list_elem_of_filter in Hr' as [Hne _].
        apply negb_True in Hne. intros Heq. apply Hne. rewrite Heq.
        apply Is_true_true, String.eqb_refl. }
      split.
      * intros Hr. exact (Hfilter r Hr eq_refl).
      * intros r' Hr'. pose proof (Hfilter r' Hr') as Hne.
        destruct (Nat.eq_dec r' r) as [->|Hdiff]; [congruence|].
        rewrite (Hframe r' Hdiff). exact Hne.
    + destruct Hcases as (Hst' & Hen & Hnext).
      split; [congruence|]. split; [assumption|]. split; [assumption|].
      intros Hhb.
      destruct (listJobs_spec w') as (l & w'' & st'' & Hlist & Hst'' & Hcached & Hperm & _).
      destruct (Hcached st Hst') as [-> ->].
      exists l. split; [exact Hlist|]. rewrite Hperm.
      apply list_elem_of_filter. split; [|assumption].
      destruct Hid as (-> & _). destruct Hsame as (_ & -> & _).
      apply Is_true_true. exact Hhb.
  - intros Hkind.
    assert (String.eqb (kind (schedule (heap w r))) "at" = false) as Hat
      by (apply String.eqb_neq; assumption).
    rewrite Hat in Hcases.
    destruct (gated w (heap w r)); tauto.
Qed.

(** *** A tick of the timer *)

Lemma gated_same w w' j : heartbeatFile w' = heartbeatFile w -> gated w' j = gated w j.
Proof. intros Hf. unfold gated. rewrite Hf. reflexivity. Qed.

Lemma sameSurroundings_trans w1 w2 w3 :
  sameSurroundings w1 w2 -> sameSurroundings w2 w3 -> sameSurroundings w1 w3.
Proof. unfold sameSurroundings. intuition congruence. Qed.

Lemma invoked_same w w' l :
  heartbeatFile w' = heartbeatFile w ->
  (forall r, r ∈ l -> heap w' r = heap w r) ->
  invoked w' l = invoked w l.
Proof.
  intros Hf Hh. unfold invoked. destruct (isSome onJob); [|reflexivity].
  induction l as [|r l IH]; [reflexivity|].
  assert (Hr : heap w' r = heap w r) by (apply Hh, elem_of_cons; auto).
  assert (Hl : forall r0, r0 ∈ l -> heap w' r0 = heap w r0)
    by (intros r0 Hr0; apply Hh, elem_of_cons; auto).
  destruct (gated w (heap w r)) eqn:Hg.
  - rewrite !filter_cons_False; [exact (IH Hl)| |].
    + rewrite Hg. simpl. tauto.
    + rewrite Hr, (gated_same w w' _ Hf), Hg. simpl. tauto.
  - rewrite !filter_cons_True; [simpl; rewrite Hr, (IH Hl); reflexivity| |].
    + rewrite Hg. exact I.
    + rewrite Hr, (gated_same w w' _ Hf), Hg. exact I.
Qed.

Lemma invoked_cons w r l :
  invoked w (r :: l) =
    ((if gated w (heap w r) then [] else if isSome onJob then [heap w r] else [])
       ++ invoked w l)%list.
Proof.
  unfold invoked. destruct (isSome onJob).
  - destruct (gated w (heap w r)) eqn:Hg.
    + rewrite filter_cons_False; [reflexivity|]. rewrite Hg. simpl. tauto.
    + rewrite filter_cons_True; [reflexivity|]. rewrite Hg. exact I.
  - destruct (gated w (heap w r)); reflexivity.
Qed.

Lemma forEach_executeJob l :
  forall w, NoDup l ->
    exists w',
      forEachM l executeJob w = (Ok tt, w') /\
      (forall r, r ∉ l -> heap w' r = heap w r) /\
      sameSurroundings w w' /\
      (forall r, r ∈ l -> executedFrom w (heap w r) (heap w' r)) /\
      calls w' = (calls w ++ invoked w l)%list /\
      (ticks w <= ticks w')%nat /\
      (forall st, store w = Some st ->
         exists st', store w' = Some st' /\ version st' = version st /\
                     jobs st' ⊆ jobs st).
Proof.
  induction l as [|r l IH]; intros w Hnd.
  - exists w. simpl. unfold ret. split; [reflexivity|]. split; [auto|].
    split; [unfold sameSurroundings; tauto|]. split.
    { intros r Hr. destruct (not_elem_of_nil _ Hr). }
    split; [unfold invoked; destruct (isSome onJob); simpl; rewrite app_nil_r; reflexivity|].
    split; [lia|]. intros st Hst. exists st. auto.
  - apply NoDup_cons in Hnd as [Hr Hnd].
    destruct (executeJob_effect w r)
      as (w1 & Hrun & Hframe & Hsame & Hid & Hlast & Hticks & Hcases).
    destruct (IH w1 Hnd) as (w' & Hloop & Hframe' & Hsame' & Hexec' & Hcalls' & Hticks' & Hst').
    exists w'. simpl. unfold bind. rewrite Hrun, Hloop.
    assert (Hhb : heartbeatFile w1 = heartbeatFile w) by (destruct Hsame; tauto).
    split; [reflexivity|]. split.
    { intros r0 Hr0. rewrite elem_of_cons in Hr0.
      rewrite Hframe' by tauto. apply Hframe. tauto. }
    split; [eapply sameSurroundings_trans; eauto|]. split.
    { intros r0 Hr0. apply elem_of_cons in Hr0 as [->|Hr0].
      - rewrite (Hframe' r Hr). split; [exact Hid|]. split.
        + exists (ticks w). split; [lia|exact Hlast].
        + destruct (gated w (heap w r)); [tauto|].
          destruct Hcases as (_ & Hout & _). exact Hout.
      - assert (r0 <> r) as Hne by (intros ->; contradiction).
        specialize (Hexec' r0 Hr0). rewrite (Hframe r0 Hne) in Hexec'.
        destruct Hexec' as (Hid0 & (k & Hk & Hlast0) & Hst0).
        split; [exact Hid0|]. split; [exists k; split; [lia|exact Hlast0]|].
        rewrite (gated_same w w1 _ Hhb) in Hst0. exact Hst0. }
    split.
    { rewrite Hcalls', invoked_cons.
      rewrite (invoked_same w w1 l Hhb).
      2: { intros r0 Hr0. apply Hframe. intros ->. contradiction. }
      rewrite app_assoc. f_equal.
      destruct (gated w (heap w r)).
      - destruct Hcases as (_ & _ & -> & _). rewrite app_nil_r. reflexivity.
      - destruct Hcases as (-> & _). reflexivity. }
    split; [lia|].
    intros st Hst.
    assert (exists st1, store w1 = Some st1 /\ version st1 = version st /\
                        jobs st1 ⊆ jobs st) as (st1 & Hst1 & Hv1 & Hsub1).
    { assert (Hkeep : store w1 = store w ->
                exists st1, store w1 = Some st1 /\ version st1 = version st /\
                            jobs st1 ⊆ jobs st).
      { intros Hs. exists st. split; [congruence|]. split; [reflexivity|].
        intros x Hx. exact Hx. }
      destruct (gated w (heap w r)).
      - apply Hkeep. tauto.
      - destruct Hcases as (_ & _ & Hs).
        destruct (String.eqb (kind (schedule (heap w r))) "at"); [|apply Hkeep; tauto].
        rewrite Hst in Hs.
        destruct (deleteAfterRun (heap w r)); [|apply Hkeep; rewrite Hst; tauto].
        destruct Hs as (Hs & _). eexists. split; [exact Hs|]. simpl.
        split; [reflexivity|]. intros x Hx.
        apply list_elem_of_filter in Hx. tauto. }
    destruct (Hst' st1 Hst1) as (st' & Hs' & Hv' & Hsub').
    exists st'. split; [exact Hs'|]. split; [congruence|].
    intros x Hx. auto.
Qed.

Lemma saveStore_effect w :
  exists w',
    saveStore w = (Ok tt, w') /\
    heap w' = heap w /\ store w' = store w /\ calls w' = calls w /\
    ticks w' = ticks w /\ _running w' = _running w /\
    timers w' = timers w /\ nextTimer w' = nextTimer w /\
    timerTimeout w' = timerTimeout w /\ heartbeatJobId w' = heartbeatJobId w.
Proof.
  unfold saveStore, bind, gets, modify, ret.
  destruct (store w) as [st|] eqn:Hst; eexists; (split; [reflexivity|]);
    simpl; repeat split; auto.
Qed.

Lemma getNextWakeMs_eq w : getNextWakeMs w = (Ok (nextWakeOf w), w).
Proof.
  unfold getNextWakeMs, nextWakeOf, pendingTimes, bind, gets, ret.
  destruct (store w) as [st|]; [|reflexivity].
  destruct (map _ _); reflexivity.
Qed.

Lemma Math_min_elem t ts : Math_min t ts ∈ t :: ts.
Proof.
  unfold Math_min. revert t. induction ts as [|x ts IH]; intros t; simpl.
  - apply elem_of_cons. auto.
  - specialize (IH (Z.min t x)). apply elem_of_cons in IH as [IH|IH].
    + rewrite IH. destruct (Z.min_spec t x) as [[_ ->]|[_ ->]].
      * apply elem_of_cons. auto.
      * apply elem_of_cons. right. apply elem_of_cons. auto.
    + apply elem_of_cons. right. apply elem_of_cons. auto.
Qed.

Lemma fold_min_le_init ts a : fold_left Z.min ts a <= a.
Proof.
  revert a. induction ts as [|y ts IH]; intros a; simpl; [lia|].
  specialize (IH (Z.min a y)). lia.
Qed.

Lemma Math_min_le t ts x : x ∈ t :: ts -> Math_min t ts <= x.
Proof.
  unfold Math_min. intros Hx. apply elem_of_cons in Hx as [->|Hx].
  - apply fold_min_le_init.
  - revert t. induction ts as [|y ts IH]; intros t; simpl.
    + destruct (not_elem_of_nil _ Hx).
    + apply elem_of_cons in Hx as [->|Hx].
      * pose proof (fold_min_le_init ts (Z.min t y)). lia.
      * apply IH. exact Hx.
Qed.

Lemma pendingTimes_truthy w t : t ∈ pendingTimes w -> truthyNum t = true.
Proof.
  unfold pendingTimes. destruct (store w) as [st|]; [|intros Hin; destruct (not_elem_of_nil _ Hin)].
  intros Hin. apply AsyncQueueFacts.elem_of_map in Hin as (r & -> & Hr).
  apply list_elem_of_filter in Hr as [Hp _]. apply Is_true_true in Hp.
  unfold isPending in Hp. apply andb_prop in Hp as [_ Hp].
  destruct (nextRunAtMs (state (heap w r))); [exact Hp|discriminate].
Qed.

Lemma nextWakeOf_truthy w : truthyOptNum (nextWakeOf w) = isSome (nextWakeOf w).
Proof.
  unfold nextWakeOf. destruct (pendingTimes w) as [|t ts] eqn:Hp; [reflexivity|].
  simpl. apply (pendingTimes_truthy w). rewrite Hp. apply Math_min_elem.
Qed.

Lemma nextWakeOf_ext w' w : store w' = store w -> heap w' = heap w -> nextWakeOf w' = nextWakeOf w.
Proof. intros Hs Hh. unfold nextWakeOf, pendingTimes. rewrite Hs, Hh. reflexivity. Qed.

(** [armTimer]: the previous timer is cancelled; a new one is set exactly
    when the scheduler is running and a job is pending, for the earliest
    pending time. *)
Lemma armTimer_effect w :
  exists w',
    armTimer w = (Ok tt, w') /\
    heap w' = heap w /\ store w' = store w /\ calls w' = calls w /\
    storeFile w' = storeFile w /\ _running w' = _running w /\
    match nextWakeOf w with
    | Some nextWake =>
        if _running w then
          timerTimeout w' = Some (nextTimer w) /\
          (nextTimer w, Z.max 0 (nextWake - clock (ticks w))) ∈ timers w'
        else timerTimeout w' = None
    | None => timerTimeout w' = None
    end.
Proof.
  unfold armTimer, bind, gets.
  destruct (timerTimeout w) as [old|] eqn:Hold; simpl; unfold clearTimeout, modify, ret; simpl.
  all: rewrite getNextWakeMs_eq; simpl.
  all: rewrite nextWakeOf_truthy.
  1: change (nextWakeOf (set_timerTimeout None
                 (set_timers (filter (fun t => negb (Nat.eqb (fst t) old)) (timers w))
                    (nextTimer w) w))) with (nextWakeOf w).
  all: destruct (nextWakeOf w) as [nw|] eqn:Hnw; simpl.
  all: destruct (_running w) eqn:Hrun; simpl.
  all: unfold nowMs, setTimeout; simpl.
  all: eexists; (split; [reflexivity|]); simpl; repeat split; auto.
  all: apply elem_of_app; right; apply list_elem_of_singleton; reflexivity.
Qed.

Lemma String_Error_nonempty name message :
  name <> "" -> String_ (JsError name message) <> "".
Proof.
  intros Hn. simpl. destruct (String.eqb_spec name ""); [contradiction|].
  destruct (String.eqb_spec message ""); [assumption|].
  destruct name; [contradiction|]. discriminate.
Qed.

(** C1 (as amended): a tick never throws; a due job whose callback throws
    [e] ends with [lastStatus = "error"] and [lastError = String(e)], which
    is non-empty for every [Error] with a name; every due job of the tick is
    executed all the same (its [lastRunAtMs] is a clock reading of this tick
    and its status is set), the callback being invoked for each due job the
    heartbeat gate lets through, in order; and [armTimer] runs afterwards, so
    that a running scheduler with a pending job has a timer for the earliest
    pending time. *)
Theorem onTimer_isolates_failures (w : World) (st : JobStore) :
  store w = Some st -> NoDup (jobs st) ->
  let due := filter (fun r => isDue (clock (ticks w)) (heap w r)) (jobs st) in
  exists w',
    onTimer w = (Ok tt, w') /\
    (forall r e,
       r ∈ due -> gated w (heap w r) = false -> outcome (heap w r) = Throw e ->
       lastStatus (state (heap w' r)) = Some "error" /\
       lastError (state (heap w' r)) = Some (String_ e) /\
       (forall name message, e = JsError name message -> name <> "" ->
                             lastError (state (heap w' r)) <> Some "")) /\
    (forall r, r ∈ due -> executedFrom w (heap w r) (heap w' r)) /\
    calls w' = (calls w ++ invoked w due)%list /\
    (_running w = true ->
     forall nextWake, nextWakeOf w' = Some nextWake ->
       exists handle k,
         timerTimeout w' = Some handle /\
         (handle, Z.max 0 (nextWake - clock k)) ∈ timers w').
Proof.
  intros Hst Hnd due.
  assert (Hdue : NoDup due) by (apply NoDup_filter; exact Hnd).
  destruct (forEach_executeJob due (set_ticks (S (ticks w)) w) Hdue)
    as (w1 & Hloop & _ & Hsame & Hexec & Hcalls & _ & _).
  destruct (saveStore_effect w1)
    as (w2 & Hsave & Hheap2 & Hstore2 & Hcalls2 & Hticks2 & Hrun2 & _).
  destruct (armTimer_effect w2) as (w3 & Harm & Hheap3 & Hstore3 & Hcalls3 & _ & _ & Htimer).
  exists w3.
  assert (Hexec' : forall r, r ∈ due -> executedFrom w (heap w r) (heap w3 r)).
  { intros r Hr. rewrite Hheap3, Hheap2.
    destruct (Hexec r Hr) as (Hid & (k & Hk & Hlast) & Hstatus).
    split; [exact Hid|]. split; [|exact Hstatus].
    exists k. simpl in Hk. split; [lia|exact Hlast]. }
  split.
  { unfold onTimer, bind, gets, nowMs. rewrite Hst. simpl.
    fold due. rewrite Hloop, Hsave, Harm. reflexivity. }
  split.
  { intros r e Hr Hgate Hthrow.
    destruct (Hexec' r Hr) as (_ & _ & Hstatus).
    rewrite Hgate, Hthrow in Hstatus. destruct Hstatus as [Hs He].
    split; [exact Hs|]. split; [exact He|].
    intros name message -> Hname. rewrite He. intros [= Heq].
    exact (String_Error_nonempty name message Hname Heq). }
  split; [exact Hexec'|]. split.
  { rewrite Hcalls3, Hcalls2, Hcalls. reflexivity. }
  intros Hrunning nextWake Hnw.
  rewrite (nextWakeOf_ext w3 w2 Hstore3 Hheap3) in Hnw. rewrite Hnw in Htimer.
  assert (_running w2 = true) as Hr2.
  { rewrite Hrun2. destruct Hsame as (-> & _). exact Hrunning. }
  rewrite Hr2 in Htimer. destruct Htimer as [Ht Hin].
  exists (nextTimer w2), (ticks w2). auto.
Qed.

(** *** Persisting and reloading *)

(** C5: what [saveStore] writes holds the jobs of the store except those
    with the heartbeat job's id, and no job with that id; parsing the
    document the way [loadStore] does gives those jobs back field for field,
    and a new scheduler that loads the file holds exactly them.  The payload
    kind of a job is one of three non-empty strings ([wellTyped_kind]); that
    it is not empty is all the round trip needs. *)
Theorem persist_reload_roundtrip (w : World) (st : JobStore) :
  store w = Some st ->
  let kept := filter (fun r => strictNeqOpt (id (heap w r)) (heartbeatJobId w)) (jobs st) in
  Forall (fun r => payload_kind (payload (heap w r)) <> "") kept ->
  exists w1 data,
    saveStore w = (Ok tt, w1) /\ storeFile w1 = JsonDoc data /\
    exists v js,
      parseStore data = Ok (v, js) /\
      js = map (heap w) kept /\
      (forall j, j ∈ js -> Some (id j) <> heartbeatJobId w) /\
      exists st2 w2,
        loadStore (newScheduler w1) = (Ok st2, w2) /\
        store w2 = Some st2 /\
        map (heap w2) (jobs st2) = map (heap w) kept.
Proof.
  intros Hst kept Htyped.
  assert (Hjs : Forall (fun j => payload_kind (payload j) <> "") (map (heap w) kept)).
  { apply Forall_forall. intros j Hj. apply AsyncQueueFacts.elem_of_map in Hj as (r & -> & Hr).
    rewrite Forall_forall in Htyped. apply Htyped. exact Hr. }
  pose proof (PersistenceFacts.parseStore_storeToJson (version st) _ Hjs) as Hparse.
  eexists _, _. split.
  { unfold saveStore, bind, gets, modify. rewrite Hst. reflexivity. }
  split; [reflexivity|].
  eexists _, _. split; [exact Hparse|]. split; [reflexivity|]. split.
  { intros j Hj. apply AsyncQueueFacts.elem_of_map in Hj as (r & -> & Hr).
    apply list_elem_of_filter in Hr as [Hne _]. apply Is_true_true in Hne.
    unfold strictNeqOpt in Hne. destruct (heartbeatJobId w) as [hb|]; [|discriminate].
    intros [= Heq]. rewrite Heq, String.eqb_refl in Hne. discriminate. }
  unfold loadStore, bind, gets, modify, ret. cbn [store storeFile newScheduler set_storeFile].
  unfold kept in Hparse. rewrite Hparse.
  match goal with |- context [newJobs ?js ?w0] =>
    destruct (newJobs_ok js w0) as (w' & Hrun & _ & _ & Hmap & _) end.
  rewrite Hrun. eexists _, _. split; [reflexivity|]. split; [reflexivity|].
  exact Hmap.
Qed.

End SchedulerFacts.

(** ** The subagent loop *)

Module SubagentFacts.
Import Subagent.

Local Open Scope nat_scope.

Section LoopFacts.

Variables (Args Env : Type).
Variable provider_chat : list (CoreMessage Args) -> Res (LLMResponse Args).
Variable hasToolCalls : LLMResponse Args -> bool.
Variable tools_execute : string -> Args -> Env -> string * Env.
Variable buildSubagentPrompt : string -> string.

#[local] Abbreviation loop :=
  (agentLoop Args Env provider_chat hasToolCalls tools_execute).
#[local] Abbreviation runWith :=
  (runSubagent Args Env provider_chat hasToolCalls tools_execute buildSubagentPrompt).

(** The loop never calls the model more than [maxIterations] times. *)
Lemma agentLoop_bound fuel :
  forall st r st',
    loop fuel st = Some (r, st') ->
    iteration Args Env st <= maxIterations ->
    iteration Args Env st' <= maxIterations.
Proof.
  unfold maxIterations. induction fuel as [|fuel IH]; intros st r st' Hrun Hle; simpl in Hrun;
    unfold maxIterations in *.
  - destruct (Nat.ltb_spec (iteration Args Env st) 15); [discriminate|].
    injection Hrun as _ <-. exact Hle.
  - destruct (Nat.ltb_spec (iteration Args Env st) 15) as [Hlt|Hge].
    + destruct (provider_chat (messages Args Env st)) as [response|e].
      * destruct (hasToolCalls response).
        -- destruct (executeTools Args Env tools_execute _ _ _) as [msgs' e'] eqn:Ht.
           apply IH in Hrun; [exact Hrun|]. simpl. lia.
        -- injection Hrun as _ <-. simpl. lia.
      * injection Hrun as _ <-. simpl. lia.
    + injection Hrun as _ <-. exact Hle.
Qed.

(** With [maxIterations] turns of fuel the loop always comes to its end. *)
Lemma agentLoop_terminates fuel :
  forall st,
    maxIterations - iteration Args Env st <= fuel ->
    exists r st', loop fuel st = Some (r, st').
Proof.
  unfold maxIterations. induction fuel as [|fuel IH]; intros st Hfuel; simpl;
    unfold maxIterations in *.
  - destruct (Nat.ltb_spec (iteration Args Env st) 15); [lia|eauto].
  - destruct (Nat.ltb_spec (iteration Args Env st) 15) as [Hlt|Hge]; [|eauto].
    destruct (provider_chat (messages Args Env st)) as [response|e]; [|eauto].
    destruct (hasToolCalls response); [|eauto].
    destruct (executeTools Args Env tools_execute _ _ _) as [msgs' e'] eqn:Ht.
    apply IH. simpl. lia.
Qed.

(** When every answer of the model carries tool calls, the loop stops at the
    ceiling with no final result. *)
Lemma agentLoop_ceiling fuel :
  (forall msgs, exists resp, provider_chat msgs = Ok resp /\ hasToolCalls resp = true) ->
  forall st,
    iteration Args Env st <= maxIterations ->
    maxIterations - iteration Args Env st <= fuel ->
    exists st',
      loop fuel st = Some (Ok tt, st') /\
      iteration Args Env st' = maxIterations /\
      finalResult Args Env st' = finalResult Args Env st.
Proof.
  unfold maxIterations. intros Hall.
  induction fuel as [|fuel IH]; intros st Hle Hfuel; simpl; unfold maxIterations in *.
  - destruct (Nat.ltb_spec (iteration Args Env st) 15); [lia|].
    exists st. split; [reflexivity|]. split; [lia|reflexivity].
  - destruct (Nat.ltb_spec (iteration Args Env st) 15) as [Hlt|Hge].
    + destruct (Hall (messages Args Env st)) as (resp & -> & ->).
      destruct (executeTools Args Env tools_execute _ _ _) as [msgs' e'] eqn:Ht.
      destruct (IH (mkLoop Args Env (S (iteration Args Env st)) msgs'
                      (finalResult Args Env st) e')) as (st' & Hrun & Hit & Hfin);
        simpl; try lia.
      exists st'. auto.
    + exists st. split; [reflexivity|]. split; [lia|reflexivity].
Qed.


End LoopFacts.

End SubagentFacts.

(** ** The scenarios *)

Module ScenarioFacts.
Import Scenario.

(** The heartbeat file of the specification's scenario, and variations. *)
Example isHeartbeatEmpty_notes :
  Heartbeat.isHeartbeatEmpty
    (Some ("# Notes" ++ String Heartbeat.newline "- [ ] " ++ String Heartbeat.newline ""))
  = true.
Proof. reflexivity. Qed.

Example isHeartbeatEmpty_oven :
  Heartbeat.isHeartbeatEmpty (Some "Check the oven") = false.
Proof. reflexivity. Qed.

Example isHeartbeatEmpty_checkbox_with_text :
  Heartbeat.isHeartbeatEmpty (Some "- [ ] water the plants") = false.
Proof. reflexivity. Qed.

Example isHeartbeatEmpty_upper_case_mark :
  Heartbeat.isHeartbeatEmpty (Some "- [X]") = false.
Proof. reflexivity. Qed.

Example trim_example : Heartbeat.trim "   <!-- later -->  " = "<!-- later -->".
Proof. reflexivity. Qed.

Example split_newline_example :
  Heartbeat.split_newline ("a" ++ String Heartbeat.newline "") = ["a"; ""].
Proof. reflexivity. Qed.

Example computeNextRun_every_example : computeNextRun (every 1000) 5000 = Ok (Some 6000).
Proof. reflexivity. Qed.

Example computeNextRun_cron_example :
  computeNextRun (cron "* * * * *") 5000 = Ok (Some 65000).
Proof. reflexivity. Qed.

Example String_Error_example : String_ (JsError "TypeError" "x is null") = "TypeError: x is null".
Proof. reflexivity. Qed.

(** A queue: a waiter, two pushes, a pop. *)
Example queue_run_example :
  snd (AsyncQueue.run (@AsyncQueue.empty nat)
         [AsyncQueue.Pop; AsyncQueue.Push 1%nat; AsyncQueue.Push 2%nat; AsyncQueue.Pop])
  = [AsyncQueue.Waiting 0%nat; AsyncQueue.HandedTo 0%nat; AsyncQueue.Buffered;
     AsyncQueue.Item 2%nat].
Proof. reflexivity. Qed.

(** A push that comes before the timer of a [popWithTimeout]: the item is
    the outcome and the timer is cancelled; the other way round the outcome
    is [null] and the item waits in the buffer. *)
Example push_wins_race :
  let s := fst (AsyncQueue.run (@AsyncQueue.empty nat)
                  [AsyncQueue.PopWithTimeout 50; AsyncQueue.Push 7%nat;
                   AsyncQueue.TimerFires 0%nat]) in
  AsyncQueue.resolutions 0%nat s = [Some 7%nat] /\
  AsyncQueue.queue s = [] /\ AsyncQueue.timers s = [].
Proof. repeat split. Qed.

Example timer_wins_race :
  let s := fst (AsyncQueue.run (@AsyncQueue.empty nat)
                  [AsyncQueue.PopWithTimeout 50; AsyncQueue.TimerFires 0%nat;
                   AsyncQueue.Push 7%nat]) in
  AsyncQueue.resolutions 0%nat s = [None] /\
  AsyncQueue.queue s = [7%nat] /\ AsyncQueue.resolvers s = [].
Proof. repeat split. Qed.

(** A tick with a failing job and a healthy one. *)
Example failing_tick :
  let w := snd (onTimer failing) in
  map (fun r => lastStatus (state (heap w r))) [0%nat; 1%nat] = [Some "error"; Some "ok"] /\
  map (fun r => nextRunAtMs (state (heap w r))) [0%nat; 1%nat] = [Some 2003; Some 3006] /\
  map name (calls w) = ["fail"; "fine"] /\
  timers w = [(0%nat, 996)].
Proof. vm_compute. repeat split. Qed.

(** The listing hides the heartbeat job. *)
Example listJobs_example : fst (listJobs withHeartbeat) = Ok [1%nat].
Proof. reflexivity. Qed.

(** An "at" schedule in the future and one in the past. *)
Lemma computeNextRun_at_spec_witness :
  kind (at_ 5000) = "at" /\ 0 <= 1000 /\
  computeNextRun (at_ 5000) 1000 = Ok (Some 5000) /\
  computeNextRun (at_ 500) 1000 = Ok None.
Proof.
  split; [reflexivity|]. split; [lia|]. split.
  - apply (proj1 (computeNextRun_at_spec (at_ 5000) 1000 eq_refl ltac:(lia)) 5000);
      [reflexivity|lia].
  - apply (proj1 (proj2 (computeNextRun_at_spec (at_ 500) 1000 eq_refl ltac:(lia))) 500);
      [reflexivity|lia].
Defined.

(** The condition on the current time is needed: the guard
    [schedule.atMs && ...] takes [atMs = 0] for a missing value, which shows
    only for a current time before the epoch. *)
Example computeNextRun_at_before_epoch :
  computeNextRun (at_ 0) (-1) = Ok None.
Proof. reflexivity. Qed.

(** A malformed cron expression. *)
Lemma computeNextRun_cron_invalid_witness :
  kind (cron "every day") = "cron" /\
  (forall e, expr (cron "every day") = Some e ->
             exists err, CronExpressionParser_parse e 1000 (tz (cron "every day")) = Throw err) /\
  computeNextRun (cron "every day") 1000 = Ok None.
Proof.
  assert (Hbad : forall e, expr (cron "every day") = Some e ->
            exists err, CronExpressionParser_parse e 1000 (tz (cron "every day")) = Throw err).
  { intros e [= <-]. eexists. reflexivity. }
  split; [reflexivity|]. split; [exact Hbad|].
  exact (computeNextRun_cron_invalid (cron "every day") 1000 eq_refl Hbad).
Defined.


(** A one-shot job that is kept: disabled in place and still listed. *)
Lemma one_shot_after_run_witness :
  store keptOneShot = Some (mkJobStore 1 [0%nat]) /\
  0%nat ∈ jobs (mkJobStore 1 [0%nat]) /\
  exists w',
    executeJob 0%nat keptOneShot = (Ok tt, w') /\
    enabled (heap w' 0%nat) = false /\
    nextRunAtMs (state (heap w' 0%nat)) = None /\
    exists l, listJobs w' = (Ok l, w') /\ 0%nat ∈ l.
Proof.
  assert (Hin : 0%nat ∈ jobs (mkJobStore 1 [0%nat])) by (apply elem_of_cons; auto).
  split; [reflexivity|]. split; [exact Hin|].
  destruct (one_shot_after_run keptOneShot (mkJobStore 1 [0%nat]) 0%nat eq_refl Hin)
    as (w' & Hrun & Hat & _).
  exists w'. split; [exact Hrun|].
  destruct (Hat eq_refl eq_refl) as (_ & Hen & Hnext & Hlist).
  split; [exact Hen|]. split; [exact Hnext|]. exact (Hlist eq_refl).
Defined.

(** C4 as stated fails for a one-shot job with a heartbeat payload and
    [deleteAfterRun] when there is no [HEARTBEAT.md]: the job is skipped and
    stays in the store, enabled. *)
Lemma gated_one_shot_counterexample :
  kind (schedule (heap gatedOneShot 0%nat)) = "at" /\
  deleteAfterRun (heap gatedOneShot 0%nat) = true /\
  isDue (clock 0) (heap gatedOneShot 0%nat) = true /\
  fst (executeJob 0%nat gatedOneShot) = Ok tt /\
  store (snd (executeJob 0%nat gatedOneShot)) = Some (mkJobStore 1 [0%nat]) /\
  enabled (heap (snd (executeJob 0%nat gatedOneShot)) 0%nat) = true /\
  lastStatus (state (heap (snd (executeJob 0%nat gatedOneShot)) 0%nat)) = Some "skipped".
Proof. vm_compute. repeat split. Qed.

(** Two due jobs, the first of which throws. *)
Lemma onTimer_isolates_failures_witness :
  store failing = Some (mkJobStore 1 [0%nat; 1%nat]) /\
  NoDup (jobs (mkJobStore 1 [0%nat; 1%nat])) /\
  exists w',
    onTimer failing = (Ok tt, w') /\
    lastStatus (state (heap w' 0%nat)) = Some "error" /\
    lastError (state (heap w' 0%nat)) = Some "Error: no route" /\
    executedFrom failing (heap failing 1%nat) (heap w' 1%nat) /\
    exists handle k, timerTimeout w' = Some handle /\
                     (handle, Z.max 0 (2003 - clock k)) ∈ timers w'.
Proof.
  assert (Hnd : NoDup (jobs (mkJobStore 1 [0%nat; 1%nat]))) by (simpl; compute_done).
  split; [reflexivity|]. split; [exact Hnd|].
  destruct (onTimer_isolates_failures failing (mkJobStore 1 [0%nat; 1%nat]) eq_refl Hnd)
    as (w' & Hrun & Herr & Hexec & _ & Htimer).
  exists w'. split; [exact Hrun|].
  assert (H0 : 0%nat ∈ filter (fun r => isDue (clock (ticks failing)) (heap failing r))
                 (jobs (mkJobStore 1 [0%nat; 1%nat]))) by compute_done.
  assert (H1 : 1%nat ∈ filter (fun r => isDue (clock (ticks failing)) (heap failing r))
                 (jobs (mkJobStore 1 [0%nat; 1%nat]))) by compute_done.
  destruct (Herr 0%nat (JsError "Error" "no route") H0 eq_refl eq_refl) as (Hs & He & _).
  split; [exact Hs|]. split; [exact He|]. split; [exact (Hexec 1%nat H1)|].
  apply (Htimer eq_refl).
  assert (Hw : snd (onTimer failing) = w') by (rewrite Hrun; reflexivity).
  rewrite <- Hw. vm_compute. reflexivity.
Defined.

(** C1 as stated fails when the callback rejects with the empty string:
    the rendering recorded in [lastError] is empty. *)
Lemma empty_rejection_counterexample :
  isDue (clock 0) (heap emptyRejection 0%nat) = true /\
  outcome (heap emptyRejection 0%nat) = Throw (JsString "") /\
  fst (onTimer emptyRejection) = Ok tt /\
  lastStatus (state (heap (snd (onTimer emptyRejection)) 0%nat)) = Some "error" /\
  lastError (state (heap (snd (onTimer emptyRejection)) 0%nat)) = Some "".
Proof. vm_compute. repeat split. Qed.

(** C9 as stated fails for a job whose [nextRunAtMs] is zero: it is listed
    after the job due at 5. *)
Lemma listJobs_zero_counterexample :
  fst (listJobs zeroNextRun) = Ok [1%nat; 0%nat] /\
  nextRunAtMs (state (heap zeroNextRun 1%nat)) = Some 5 /\
  nextRunAtMs (state (heap zeroNextRun 0%nat)) = Some 0 /\
  ~ Sorted ascendingUndefinedLast (map (heap zeroNextRun) [1%nat; 0%nat]).
Proof.
  split; [vm_compute; reflexivity|]. split; [reflexivity|]. split; [reflexivity|].
  intros Hs. inversion Hs as [|? ? _ Hhd]; subst. inversion Hhd as [|? ? Hle]; subst.
  vm_compute in Hle. apply Hle. reflexivity.
Qed.

(** A store with the heartbeat job and a user job, saved and reloaded. *)
Lemma persist_reload_roundtrip_witness :
  store withHeartbeat = Some (mkJobStore 1 [0%nat; 1%nat]) /\
  Forall (fun r => payload_kind (payload (heap withHeartbeat r)) <> "") [1%nat] /\
  exists w1 st2 w2,
    saveStore withHeartbeat = (Ok tt, w1) /\
    loadStore (newScheduler w1) = (Ok st2, w2) /\
    map (heap w2) (jobs st2) = [heap withHeartbeat 1%nat].
Proof.
  assert (Ht : Forall (fun r => payload_kind (payload (heap withHeartbeat r)) <> "") [1%nat]).
  { constructor; [|constructor]. apply PersistenceFacts.wellTyped_kind.
    unfold wellTyped. simpl. tauto. }
  split; [reflexivity|]. split; [exact Ht|].
  destruct (persist_reload_roundtrip withHeartbeat (mkJobStore 1 [0%nat; 1%nat]) eq_refl Ht)
    as (w1 & data & Hsave & _ & v & js & _ & _ & _ & st2 & w2 & Hload & _ & Hmap).
  exists w1, st2, w2. split; [exact Hsave|]. split; [exact Hload|exact Hmap].
Defined.

(** A [popWithTimeout(50)] on a new queue, its timer, then a push. *)
Lemma popWithTimeout_single_outcome_witness :
  AsyncQueue.queue (fst (AsyncQueue.run (@AsyncQueue.empty nat) [])) = [] /\
  AsyncQueue.resolutions 0
    (fst (AsyncQueue.run (fst (AsyncQueue.popWithTimeout 50 AsyncQueue.empty))
            ([AsyncQueue.TimerFires 0%nat] ++ [AsyncQueue.Push 7%nat; AsyncQueue.Pop])))
  = [None].
Proof.
  split; [reflexivity|].
  destruct (AsyncQueueFacts.popWithTimeout_single_outcome (T:=nat) [] 50 eq_refl)
    as (_ & Htimeout & _).
  destruct (Htimeout [] [AsyncQueue.Push 7%nat; AsyncQueue.Pop] eq_refl) as (_ & _ & _ & Hlater).
  rewrite AsyncQueueFacts.run_app. exact Hlater.
Defined.


End ScenarioFacts.

(** ** The rest of the scheduler's interface *)

Section SchedulerApiFacts.

Context `{Collaborators}.

#[local] Arguments updateAt : simpl never.

Lemma world_eta w :
  mkWorld (store w) (timerTimeout w) (_running w) (heartbeatJobId w) (heap w) (nextRef w)
          (ticks w) (timers w) (nextTimer w) (storeFile w) (heartbeatFile w) (calls w) = w.
Proof. destruct w; reflexivity. Qed.

Lemma store_eta st : {| version := version st; jobs := jobs st |} = st.
Proof. destruct st; reflexivity. Qed.

Lemma sameTimerSide_refl w : sameTimerSide w w.
Proof. unfold sameTimerSide; tauto. Qed.

Lemma sameTimerSide_trans w1 w2 w3 :
  sameTimerSide w1 w2 -> sameTimerSide w2 w3 -> sameTimerSide w1 w3.
Proof. unfold sameTimerSide. intuition congruence. Qed.

Lemma oneTimer_same w w' : sameTimerSide w w' -> oneTimer w -> oneTimer w'.
Proof.
  intros (Ht & _ & Htt & _) [Hnil|(h & d & Hts & Hh)]; [left; congruence|].
  right. exists h, d. split; congruence.
Qed.

(** *** Loading *)

Lemma newJobs_effect js :
  forall w, exists w',
    newJobs js w = (Ok (seq (nextRef w) (length js)), w') /\
    nextRef w' = (nextRef w + length js)%nat /\
    (forall r, (r < nextRef w)%nat -> heap w' r = heap w r) /\
    map (heap w') (seq (nextRef w) (length js)) = js /\
    store w' = store w /\ heartbeatJobId w' = heartbeatJobId w /\
    storeFile w' = storeFile w /\ calls w' = calls w /\ ticks w' = ticks w /\
    sameTimerSide w w'.
Proof.
  induction js as [|j js IH]; intros w.
  - exists w. simpl. unfold ret. repeat split; auto; lia.
  - simpl. unfold bind, newJob.
    destruct (IH (set_nextRef (S (nextRef w))
                    (set_heap (updateAt (heap w) (nextRef w) (fun _ => j)) w)))
      as (w' & Hrun & Hnext & Hold & Hmap & Hst & Hhb & Hsf & Hc & Ht & Hside).
    simpl in *. rewrite Hrun. unfold ret. exists w'.
    split; [reflexivity|]. split; [lia|]. split.
    { intros r Hr. rewrite Hold by lia. apply updateAt_other. lia. }
    split; [|auto 10].
    rewrite Hmap. f_equal. rewrite Hold by lia. apply updateAt_same.
Qed.

Lemma loadStore_effect w :
  exists st w',
    loadStore w = (Ok st, w') /\ store w' = Some st /\
    sameTimerSide w w' /\ heartbeatJobId w' = heartbeatJobId w /\
    calls w' = calls w /\ ticks w' = ticks w /\ storeFile w' = storeFile w /\
    (forall st0, store w = Some st0 -> w' = w /\ st = st0) /\
    (store w = None ->
     jobs st = seq (nextRef w) (nextRef w' - nextRef w)) /\
    (nextRef w <= nextRef w')%nat /\
    (forall r, (r < nextRef w)%nat -> heap w' r = heap w r).
Proof.
  destruct (store w) as [st|] eqn:Hst.
  - exists st, w. rewrite (loadStore_cached w st Hst).
    split; [reflexivity|]. split; [assumption|]. split; [apply sameTimerSide_refl|].
    repeat split; auto; try discriminate; try congruence.
  - unfold loadStore, bind, gets, modify, ret. rewrite Hst.
    destruct (storeFile w) as [| |data] eqn:Hf; simpl.
    1,2: eexists _, _; split; [reflexivity|]; simpl; rewrite Nat.sub_diag;
      unfold sameTimerSide; repeat split; auto; discriminate.
    destruct (parseStore data) as [[v js]|e]; simpl.
    + destruct (newJobs_effect js w)
        as (w' & Hrun & Hnext & Hold & _ & _ & Hhb & Hsf & Hc & Ht & Hside).
      unfold bind. rewrite Hrun. simpl.
      eexists _, _. split; [reflexivity|]. simpl.
      split; [reflexivity|]. split; [exact Hside|].
      repeat split; auto; try discriminate; try lia; try congruence.
      intros _. rewrite Hnext. f_equal. lia.
    + eexists _, _. split; [reflexivity|]. simpl. rewrite Nat.sub_diag.
      unfold sameTimerSide. repeat split; auto; discriminate.
Qed.

Lemma allocated_loadStore w st w' :
  loadStore w = (Ok st, w') -> allocated w -> allocated w'.
Proof.
  intros Hload Halloc.
  destruct (loadStore_effect w)
    as (st1 & w1 & Hrun & Hst & _ & _ & _ & _ & _ & Hcached & Hfresh & Hle & _).
  rewrite Hload in Hrun. injection Hrun as <- <-.
  destruct (store w) as [st0|] eqn:Hs0.
  - destruct (Hcached st0 eq_refl) as [-> ->]. exact Halloc.
  - intros st2 Hst2. rewrite Hst in Hst2. injection Hst2 as <-.
    rewrite (Hfresh eq_refl). split; [apply NoDup_seq|].
    apply Forall_forall. intros r Hr. apply elem_of_seq in Hr. lia.
Qed.

(** *** The timer *)

Lemma armTimer_frame w :
  exists w',
    armTimer w = (Ok tt, w') /\
    heap w' = heap w /\ store w' = store w /\ calls w' = calls w /\
    storeFile w' = storeFile w /\ _running w' = _running w /\
    heartbeatJobId w' = heartbeatJobId w /\ nextRef w' = nextRef w /\
    heartbeatFile w' = heartbeatFile w /\ (ticks w <= ticks w')%nat.
Proof.
  unfold armTimer, bind, gets.
  destruct (timerTimeout w) as [old|] eqn:Hold; simpl; unfold clearTimeout, modify, ret; simpl.
  all: rewrite getNextWakeMs_eq; simpl.
  all: rewrite nextWakeOf_truthy.
  all: match goal with |- context [isSome ?x] => destruct x end; simpl.
  all: destruct (_running w) eqn:Hrun; simpl.
  all: unfold nowMs, setTimeout; simpl.
  all: eexists; (split; [reflexivity|]); simpl; repeat split; auto.
Qed.

Lemma armTimer_rearmed w : oneTimer w -> armTimer w = (Ok tt, rearmed w).
Proof.
  intros Hone. unfold armTimer, rearmed, bind, gets.
  assert (Hshape : match timerTimeout w with
                   | Some old => filter (fun t => negb (Nat.eqb (fst t) old)) (timers w) = []
                   | None => timers w = []
                   end).
  { destruct Hone as [Hnil|(h & d & Hts & Hh)].
    - rewrite Hnil. destruct (timerTimeout w); reflexivity.
    - rewrite Hh, Hts. rewrite filter_cons_False; [reflexivity|].
      simpl. rewrite Nat.eqb_refl. simpl. tauto. }
  destruct (timerTimeout w) as [old|] eqn:Hold; simpl; unfold clearTimeout, modify, ret; simpl.
  all: rewrite getNextWakeMs_eq; simpl.
  all: rewrite nextWakeOf_truthy.
  1: change (nextWakeOf (set_timerTimeout None
                 (set_timers (filter (fun t => negb (Nat.eqb (fst t) old)) (timers w))
                    (nextTimer w) w))) with (nextWakeOf w).
  all: destruct (nextWakeOf w) as [nw|] eqn:Hnw; simpl.
  all: destruct (_running w) eqn:Hrun; simpl.
  all: unfold nowMs, setTimeout; simpl.
  all: rewrite ?Hshape; try reflexivity.
  all: unfold set_timerTimeout, set_timers; simpl.
  all: rewrite <- (world_eta w) at 1; rewrite Hold, Hshape; reflexivity.
Qed.

Lemma nextWakeOf_rearmed w : nextWakeOf (rearmed w) = nextWakeOf w.
Proof.
  unfold rearmed. destruct (nextWakeOf w) eqn:Hnw; [destruct (_running w)|];
    exact Hnw.
Qed.

Lemma armed_rearmed w : armed (rearmed w).
Proof.
  unfold armed. rewrite nextWakeOf_rearmed. unfold rearmed.
  destruct (nextWakeOf w) as [nw|] eqn:Hnw; [|reflexivity].
  destruct (_running w) eqn:Hrun; simpl; rewrite Hrun; [|reflexivity].
  exists (nextTimer w), (ticks w). repeat split. lia.
Qed.

Lemma armed_oneTimer w : armed w -> oneTimer w.
Proof.
  unfold armed, oneTimer. destruct (nextWakeOf w); [destruct (_running w)|]; auto.
  intros (h & k & Hts & Hh & _). right. eauto.
Qed.

(** *** Adding, removing, enabling *)

Lemma saveStore_file w st :
  store w = Some st ->
  saveStore w =
    (Ok tt,
     set_storeFile
       (JsonDoc (storeToJson (version st)
                   (map (heap w)
                      (filter (fun r => strictNeqOpt (id (heap w r)) (heartbeatJobId w))
                              (jobs st))))) w).
Proof. intros Hst. unfold saveStore, bind, gets, modify. rewrite Hst. reflexivity. Qed.

Lemma allocated_fresh w st : allocated w -> store w = Some st -> nextRef w ∉ jobs st.
Proof.
  intros Ha Hst Hin. destruct (Ha st Hst) as [_ Hlt].
  rewrite Forall_forall in Hlt. specialize (Hlt _ Hin). lia.
Qed.

Lemma listJobs_loaded w st :
  store w = Some st ->
  exists l,
    listJobs w = (Ok l, w) /\
    l ≡ₚ filter (fun r => strictNeqOpt (id (heap w r)) (heartbeatJobId w)) (jobs st) /\
    StronglySorted (fun a b => runsNoLater (heap w a) (heap w b)) l.
Proof.
  intros Hst.
  destruct (listJobs_spec w) as (l & w' & st' & Hlist & _ & Hcached & Hperm & Hsorted).
  destruct (Hcached st Hst) as [-> ->]. eauto.
Qed.

(** X1: [addJob] creates a job object with the first eight characters of
    the identifier drawn as its id, the given name, schedule and payload,
    [enabled] unless the options say otherwise, and the [nextRunAtMs] that
    [computeNextRun] gives at the time of the call; it appends it to the
    store, leaving the other jobs as they were, writes a store file that
    holds it, and [listJobs] returns it from then on (unless its id is the
    heartbeat job's). *)
Theorem addJob_stored_and_listed (w : World) (uuid : string) (options : AddJobOptions) :
  allocated w ->
  exists st0 w0 r w' next,
    loadStore w = (Ok st0, w0) /\
    addJob uuid options w = (Ok r, w') /\
    computeNextRun (opt_schedule options) (clock (ticks w)) = Ok next /\
    (r ∉ jobs st0) /\
    store w' = Some {| version := version st0; jobs := (jobs st0 ++ [r])%list |} /\
    heap w' r =
      {| id := slice0 8 uuid;
         name := opt_name options;
         enabled := default true (opt_enabled options);
         schedule := opt_schedule options;
         payload := opt_payload options;
         state := {| nextRunAtMs := next; lastRunAtMs := None;
                     lastStatus := None; lastError := None |};
         createdAtMs := clock (ticks w);
         updatedAtMs := clock (ticks w);
         deleteAfterRun := default false (opt_deleteAfterRun options) |} /\
    (forall r', r' ∈ jobs st0 -> heap w' r' = heap w0 r') /\
    storeFile w' =
      JsonDoc (storeToJson (version st0)
                 (map (heap w')
                    (filter (fun r' => strictNeqOpt (id (heap w' r')) (heartbeatJobId w))
                            (jobs st0 ++ [r])%list))) /\
    exists l,
      listJobs w' = (Ok l, w') /\
      (strictNeqOpt (slice0 8 uuid) (heartbeatJobId w) = true -> r ∈ l).
Proof.
  intros Halloc.
  destruct (loadStore_effect w)
    as (st0 & w0 & Hload & Hst0 & Hside & Hhb & Hcalls & Hticks & Hsf & _ & _ & _ & _).
  pose proof (allocated_loadStore w st0 w0 Hload Halloc) as Halloc0.
  pose proof (allocated_fresh w0 st0 Halloc0 Hst0) as Hfresh.
  destruct (computeNextRun_returns (opt_schedule options) (clock (ticks w0)))
    as [next Hnext].
  exists st0, w0, (nextRef w0).
  unfold addJob, bind. rewrite Hload. unfold nowMs, liftRes. simpl.
  rewrite Hnext. unfold newJob, pushJob, modify. simpl.
  match goal with |- context [armTimer ?w2] =>
    destruct (armTimer_frame w2)
      as (w' & Harm & Hheap & Hstore & _ & Hfile & _ & Hhb' & _ & _ & _) end.
  rewrite Harm. unfold ret. exists w', next.
  split; [reflexivity|]. split; [reflexivity|].
  split; [rewrite <- Hticks; exact Hnext|]. split; [exact Hfresh|].
  simpl in *. rewrite Hheap, Hfile, Hticks in *. rewrite updateAt_same.
  split; [exact Hstore|]. split; [reflexivity|].
  split.
  { intros r' Hr'. apply updateAt_other. intros ->. contradiction. }
  split; [rewrite Hhb; reflexivity|].
  destruct (listJobs_loaded w' _ Hstore) as (l & Hlist & Hperm & _).
  exists l. split; [exact Hlist|]. intros Hne. rewrite Hperm.
  apply list_elem_of_filter. simpl. split.
  - rewrite Hheap, updateAt_same, Hhb', Hhb. simpl. apply Is_true_true. exact Hne.
  - apply elem_of_app. right. apply list_elem_of_singleton. reflexivity.
Qed.

Lemma filter_shorter {A} (P : A -> bool) (l : list A) :
  (length (filter P l) < length l)%nat <-> exists x, x ∈ l /\ P x = false.
Proof.
  induction l as [|a l IH]; simpl.
  - split; [lia|]. intros (x & Hx & _). destruct (not_elem_of_nil _ Hx).
  - destruct (P a) eqn:Ha.
    + rewrite filter_cons_True by (rewrite Ha; exact I). simpl.
      rewrite <- Nat.succ_lt_mono, IH. split.
      * intros (x & Hx & HP). exists x. split; [apply elem_of_cons; auto|assumption].
      * intros (x & Hx & HP). apply elem_of_cons in Hx as [->|Hx]; [congruence|eauto].
    + rewrite filter_cons_False by (rewrite Ha; simpl; tauto).
      split; [|intros _; pose proof (length_filter P l); lia].
      intros _. exists a. split; [apply elem_of_cons; auto|assumption].
Qed.

Lemma filter_same_length {A} (P : A -> bool) (l : list A) :
  ~ (length (filter P l) < length l)%nat -> filter P l = l.
Proof.
  induction l as [|a l IH]; [reflexivity|]. destruct (P a) eqn:Ha.
  - rewrite filter_cons_True by (rewrite Ha; exact I). simpl. intros Hlen.
    f_equal. apply IH. lia.
  - rewrite filter_cons_False by (rewrite Ha; simpl; tauto). simpl.
    intros Hlen. pose proof (length_filter P l). lia.
Qed.

(** X2: [removeJob] returns [true] exactly when some job of the store has
    the given id; it removes every job with that id (the heartbeat job
    like any other), keeps the other jobs in their order and does not touch
    any job object; when it removed something it rewrites the store file,
    and when it returns [false] it has changed nothing beyond loading the
    store. *)
Theorem removeJob_spec (w : World) (jobId : string) :
  exists st0 w0 b w',
    loadStore w = (Ok st0, w0) /\
    removeJob jobId w = (Ok b, w') /\
    (b = true <-> exists r, r ∈ jobs st0 /\ id (heap w0 r) = jobId) /\
    store w' =
      Some {| version := version st0;
              jobs := filter (fun r => negb (String.eqb (id (heap w0 r)) jobId))
                             (jobs st0) |} /\
    heap w' = heap w0 /\
    (forall st' r, store w' = Some st' -> r ∈ jobs st' -> id (heap w' r) <> jobId) /\
    (b = false -> w' = w0) /\
    (b = true ->
     storeFile w' =
       JsonDoc (storeToJson (version st0)
                  (map (heap w0)
                     (filter (fun r => strictNeqOpt (id (heap w0 r)) (heartbeatJobId w))
                        (filter (fun r => negb (String.eqb (id (heap w0 r)) jobId))
                                (jobs st0)))))).
Proof.
  destruct (loadStore_effect w)
    as (st0 & w0 & Hload & Hst0 & Hside & Hhb & Hcalls & Hticks & Hsf & _ & _ & _ & _).
  exists st0, w0.
  unfold removeJob, bind. rewrite Hload. unfold gets, modify. simpl.
  set (kept := filter (fun r => negb (String.eqb (id (heap w0 r)) jobId)) (jobs st0)).
  assert (Hgone : forall r, r ∈ kept -> id (heap w0 r) <> jobId).
  { intros r Hr. apply list_elem_of_filter in Hr as [Hne _]. apply negb_True in Hne.
    intros Heq. apply Hne. rewrite Heq. apply Is_true_true, String.eqb_refl. }
  assert (Hiff : (length kept < length (jobs st0))%nat <->
                 exists r, r ∈ jobs st0 /\ id (heap w0 r) = jobId).
  { unfold kept. rewrite filter_shorter. split; intros (r & Hr & Hid); exists r; (split; [exact Hr|]).
    - apply negb_false_iff, String.eqb_eq in Hid. exact Hid.
    - apply negb_false_iff, String.eqb_eq. exact Hid. }
  destruct (Nat.ltb_spec (length kept) (length (jobs st0))) as [Hlt|Hge].
  - unfold saveStore, bind, gets, modify. simpl.
    match goal with |- context [armTimer ?w2] =>
      destruct (armTimer_frame w2)
        as (w' & Harm & Hheap & Hstore & _ & Hfile & _ & Hhb' & _ & _ & _) end.
    rewrite Harm. unfold ret. exists true, w'. simpl in *.
    split; [reflexivity|]. split; [reflexivity|].
    split; [split; [intros _; apply Hiff; exact Hlt|reflexivity]|].
    split; [exact Hstore|]. split; [exact Hheap|]. split.
    { intros st' r Hst' Hr. rewrite Hstore in Hst'. injection Hst' as <-.
      rewrite Hheap. apply Hgone. exact Hr. }
    split; [discriminate|]. intros _. rewrite Hfile, Hhb. reflexivity.
  - unfold ret. eexists false, _. split; [reflexivity|]. split; [reflexivity|]. simpl.
    split; [split; [discriminate|intros Hex; apply Hiff in Hex; lia]|].
    split; [reflexivity|]. split; [reflexivity|]. split.
    { intros st' r [= <-] Hr. apply Hgone. exact Hr. }
    split; [|discriminate]. intros _.
    unfold kept. rewrite filter_same_length by (fold kept; lia).
    rewrite store_eta, <- Hst0. unfold set_store. apply world_eta.
Qed.

(** X3: [enableJob] acts on the first job of the store with the given id.
    It returns [false] and changes nothing when there is none.  Otherwise
    it sets [enabled] and [updatedAtMs]; enabling recomputes [nextRunAtMs]
    from the schedule at the time of the call, and disabling clears it, so
    that the job is neither pending nor due at any time; the other fields
    and the other jobs stay as they were. *)
Theorem enableJob_spec (w : World) (jobId : string) (en : bool) :
  exists st0 w0 b w',
    loadStore w = (Ok st0, w0) /\
    enableJob jobId en w = (Ok b, w') /\
    match find (fun r => String.eqb (id (heap w0 r)) jobId) (jobs st0) with
    | None => b = false /\ w' = w0
    | Some r =>
        b = true /\ store w' = Some st0 /\
        (forall r', r' <> r -> heap w' r' = heap w0 r') /\
        sameIdentity (heap w0 r) (heap w' r) /\
        enabled (heap w' r) = en /\
        updatedAtMs (heap w' r) = clock (ticks w) /\
        lastRunAtMs (state (heap w' r)) = lastRunAtMs (state (heap w0 r)) /\
        lastStatus (state (heap w' r)) = lastStatus (state (heap w0 r)) /\
        lastError (state (heap w' r)) = lastError (state (heap w0 r)) /\
        if en
        then computeNextRun (schedule (heap w0 r)) (clock (S (ticks w)))
             = Ok (nextRunAtMs (state (heap w' r)))
        else nextRunAtMs (state (heap w' r)) = None /\
             isPending (heap w' r) = false /\
             forall now, isDue now (heap w' r) = false
    end.
Proof.
  destruct (loadStore_effect w)
    as (st0 & w0 & Hload & Hst0 & Hside & Hhb & Hcalls & Hticks & Hsf & _ & _ & _ & _).
  exists st0, w0.
  unfold enableJob, bind. rewrite Hload. unfold gets. simpl.
  destruct (find _ (jobs st0)) as [r|]; [|exists false, w0; unfold ret; auto].
  destruct (computeNextRun_returns (schedule (heap w0 r)) (clock (S (ticks w0))))
    as [next Hnext].
  unfold modifyJob, modify, nowMs, readJob, gets, liftRes. simpl.
  destruct en; simpl; rewrite ?updateAt_same; simpl; rewrite ?Hnext; simpl.
  all: unfold saveStore, bind, gets, modify; simpl; rewrite Hst0; simpl.
  all: match goal with |- context [armTimer ?w2] =>
      destruct (armTimer_frame w2)
        as (w' & Harm & Hheap & Hstore & _ & Hfile & _ & Hhb' & _ & _ & _) end.
  all: rewrite Harm; unfold ret; exists true, w'; simpl in *.
  all: split; [reflexivity|]; split; [reflexivity|]; split; [reflexivity|].
  all: split; [rewrite Hstore; exact Hst0|].
  all: rewrite Hheap, !updateAt_same; simpl.
  all: split; [intros r' Hne; rewrite !updateAt_other by assumption; reflexivity|].
  all: rewrite <- Hticks.
  all: split; [unfold sameIdentity; simpl; tauto|].
  all: repeat (split; [reflexivity|]).
  - exact Hnext.
  - intros now. reflexivity.
Qed.

(** *** What the methods maintain *)

Lemma hoare_ret {A} (a : A) (Q : A -> World -> Prop) : hoare (Q a) (ret a) Q.
Proof. intros w HQ. exists a, w. split; [reflexivity|exact HQ]. Qed.

Lemma hoare_bind {A B} (P : World -> Prop) (m : M A) (Q : A -> World -> Prop)
  (k : A -> M B) (R : B -> World -> Prop) :
  hoare P m Q -> (forall a, hoare (Q a) (k a) R) -> hoare P (bind m k) R.
Proof.
  intros Hm Hk w HP. destruct (Hm w HP) as (a & w1 & Hrun & HQ).
  destruct (Hk a w1 HQ) as (b & w2 & Hrun2 & HR).
  exists b, w2. unfold bind. rewrite Hrun. auto.
Qed.

Lemma hoare_weaken {A} (P P' : World -> Prop) (m : M A) (Q Q' : A -> World -> Prop) :
  hoare P' m Q' -> (forall w, P w -> P' w) -> (forall a w, Q' a w -> Q a w) ->
  hoare P m Q.
Proof.
  intros Hm HP HQ w Hw. destruct (Hm w (HP w Hw)) as (a & w' & Hrun & Hq). eauto.
Qed.

Lemma hoare_forEachM {A} (J : World -> Prop) (xs : list A) (body : A -> M unit) :
  (forall x, hoare J (body x) (fun _ => J)) ->
  hoare J (forEachM xs body) (fun _ => J).
Proof.
  intros Hbody. induction xs as [|x xs IH]; simpl.
  - apply (hoare_ret tt (fun _ => J)).
  - eapply hoare_bind; [apply Hbody|]. intros u. exact IH.
Qed.

(** A step that leaves the store, the timer side and the running flag alone
    and creates no object (or some) keeps the scheduler well formed. *)
Lemma wellFormed_ext b w w' :
  store w' = store w -> (nextRef w <= nextRef w')%nat -> sameTimerSide w w' ->
  wellFormed b w -> wellFormed b w'.
Proof.
  intros Hs Hn Hside (Hone & Hload & Halloc & Hrun).
  pose proof Hside as (_ & _ & _ & Hr & _).
  split; [exact (oneTimer_same w w' Hside Hone)|]. split.
  { unfold loadedIfRunning. rewrite Hr, Hs. exact Hload. }
  split; [|congruence].
  intros st Hst. rewrite Hs in Hst. destruct (Halloc st Hst) as [Hnd Hlt].
  split; [exact Hnd|]. eapply Forall_impl; [exact Hlt|]. simpl. intros r Hr0. lia.
Qed.

Lemma Forall_filter_keep {A} (P : A -> Prop) (p : A -> bool) (l : list A) :
  Forall P l -> Forall P (filter p l).
Proof.
  rewrite !Forall_forall. intros Hl x Hx. apply list_elem_of_filter in Hx as [_ Hx]. auto.
Qed.

(** Replacing the job list by a sublist of it. *)
Lemma wellFormed_filter b w st (p : ref -> bool) :
  store w = Some st -> wellFormed b w ->
  wellFormed b (set_store (Some {| version := version st; jobs := filter p (jobs st) |}) w).
Proof.
  intros Hst (Hone & Hload & Halloc & Hrun).
  split; [exact Hone|]. split; [intros _; discriminate|]. split; [|exact Hrun].
  intros st' [= <-]. simpl. destruct (Halloc st Hst) as [Hnd Hlt].
  split; [apply NoDup_filter; exact Hnd|]. apply Forall_filter_keep. exact Hlt.
Qed.

#[local] Abbreviation keeps b m := (hoare (wellFormed b) m (fun _ => wellFormed b)).

Ltac same_side w :=
  apply wellFormed_ext with w;
  [reflexivity | simpl; lia | unfold sameTimerSide; simpl; tauto | assumption].

Lemma keeps_nowMs b : keeps b nowMs.
Proof.
  intros w Hw. eexists _, _. split; [reflexivity|].
  same_side w.
Qed.

Lemma keeps_modifyJob b r f : keeps b (modifyJob r f).
Proof.
  intros w Hw. eexists _, _. split; [reflexivity|].
  same_side w.
Qed.

Lemma keeps_readJob b r : keeps b (readJob r).
Proof. intros w Hw. eexists _, _. split; [reflexivity|exact Hw]. Qed.

Lemma keeps_computeNextRun b schedule t : keeps b (liftRes (computeNextRun schedule t)).
Proof.
  intros w Hw. destruct (computeNextRun_returns schedule t) as [next Hnext].
  exists next, w. unfold liftRes. rewrite Hnext. auto.
Qed.

Lemma keeps_saveStore b : keeps b saveStore.
Proof.
  intros w Hw. unfold saveStore, bind, gets, modify, ret.
  destruct (store w) as [st|] eqn:Hst; eexists _, _; (split; [reflexivity|]); [|exact Hw].
  same_side w.
Qed.

Lemma keeps_loadStore b :
  hoare (wellFormed b) loadStore (fun st w => wellFormed b w /\ store w = Some st).
Proof.
  intros w Hw.
  destruct (loadStore_effect w)
    as (st & w' & Hload & Hst & Hside & _ & _ & _ & _ & _ & _ & Hle & _).
  exists st, w'. split; [exact Hload|]. split; [|exact Hst].
  destruct Hw as (Hone & Hl & Halloc & Hrun).
  pose proof Hside as (_ & _ & _ & Hr & _).
  split; [exact (oneTimer_same w w' Hside Hone)|].
  split; [intros _; congruence|].
  split; [exact (allocated_loadStore w st w' Hload Halloc)|congruence].
Qed.

(** Creating a job object and pushing it on the job list. *)
Lemma keeps_newJob_pushJob b st j :
  hoare (fun w => wellFormed b w /\ store w = Some st)
        (let* r := newJob j in pushJob st r)
        (fun _ => wellFormed b).
Proof.
  intros w [(Hone & Hload & Halloc & Hrun) Hst].
  eexists _, _. split; [reflexivity|].
  split; [exact Hone|]. split; [intros _; discriminate|]. split; [|exact Hrun].
  intros st' [= <-]. simpl. destruct (Halloc st Hst) as [Hnd Hlt].
  split.
  - apply NoDup_app. split; [exact Hnd|]. split; [|apply NoDup_singleton].
    intros r Hr Hr'. apply list_elem_of_singleton in Hr'. subst r.
    rewrite Forall_forall in Hlt. specialize (Hlt _ Hr). lia.
  - apply Forall_app. split.
    + eapply Forall_impl; [exact Hlt|]. simpl. intros r Hr. lia.
    + apply Forall_cons. split; [lia|apply Forall_nil_2].
Qed.

Lemma keeps_executeJob b r : keeps b (executeJob r).
Proof.
  intros w Hw.
  destruct (executeJob_effect w r) as (w' & Hrun & _ & Hsame & _ & _ & _ & Hcases).
  exists tt, w'. split; [exact Hrun|].
  destruct Hsame as (Hr & _ & Hhf & _ & Hts & Hnt & Htt & Hnr).
  assert (Hside : sameTimerSide w w') by (unfold sameTimerSide; auto).
  assert (Hkeep : store w' = store w -> wellFormed b w').
  { intros Hs. apply (wellFormed_ext b w); auto. lia. }
  destruct (gated w (heap w r)); [apply Hkeep; tauto|].
  destruct Hcases as (_ & _ & Hs).
  destruct (String.eqb (kind (schedule (heap w r))) "at"); [|apply Hkeep; tauto].
  destruct (store w) as [st|] eqn:Hst; [|apply Hkeep; tauto].
  destruct (deleteAfterRun (heap w r)); [|apply Hkeep; tauto].
  destruct Hs as (Hs & _). clear Hkeep.
  pose proof (wellFormed_filter b w st
                (fun r' => negb (String.eqb (id (heap w r')) (id (heap w r)))) Hst Hw)
    as (Hone' & _ & Halloc' & _).
  destruct Hw as (Hone & Hload & Halloc & Hrunning).
  split; [exact (oneTimer_same w w' Hside Hone)|].
  split; [intros _; congruence|]. split; [|congruence].
  intros st' Hst'. rewrite Hs in Hst'. injection Hst' as <-. simpl.
  destruct (Halloc' _ eq_refl) as [Hnd Hlt]. simpl in *. split; [exact Hnd|].
  rewrite Hnr. exact Hlt.
Qed.

Lemma keeps_newJob b st j :
  hoare (fun w => wellFormed b w /\ store w = Some st)
        (newJob j)
        (fun r w => wellFormed b w /\ store w = Some st /\ (r < nextRef w)%nat /\ r ∉ jobs st).
Proof.
  intros w [Hw Hst]. eexists _, _. split; [reflexivity|]. simpl.
  split; [same_side w|]. split; [exact Hst|]. split; [lia|].
  destruct Hw as (_ & _ & Halloc & _). exact (allocated_fresh w st Halloc Hst).
Qed.

Lemma keeps_pushJob b st r :
  hoare (fun w => wellFormed b w /\ store w = Some st /\ (r < nextRef w)%nat /\ r ∉ jobs st)
        (pushJob st r)
        (fun _ => wellFormed b).
Proof.
  intros w ((Hone & Hload & Halloc & Hrun) & Hst & Hlt & Hfresh).
  eexists _, _. split; [reflexivity|].
  split; [exact Hone|]. split; [intros _; discriminate|]. split; [|exact Hrun].
  intros st' [= <-]. simpl. destruct (Halloc st Hst) as [Hnd Hall].
  split.
  - apply NoDup_app. split; [exact Hnd|]. split; [|apply NoDup_singleton].
    intros r0 Hr Hr'. apply list_elem_of_singleton in Hr'. subst r0. contradiction.
  - apply Forall_app. split; [exact Hall|].
    apply Forall_cons. split; [exact Hlt|apply Forall_nil_2].
Qed.

Lemma hoare_gets {A} (f : World -> A) (P : World -> Prop) :
  hoare P (gets f) (fun a w => P w /\ a = f w).
Proof. intros w HP. exists (f w), w. split; [reflexivity|auto]. Qed.

Lemma hoare_modify (f : World -> World) (P : World -> Prop) (Q : unit -> World -> Prop) :
  (forall w, P w -> Q tt (f w)) -> hoare P (modify f) Q.
Proof. intros HQ w HP. exists tt, (f w). split; [reflexivity|auto]. Qed.

Lemma hoare_skip {A} (a : A) (P : World -> Prop) (Q : A -> World -> Prop) :
  (forall w, P w -> Q a w) -> hoare P (ret a) Q.
Proof. intros HQ w HP. exists a, w. split; [reflexivity|auto]. Qed.

Lemma keeps_addHeartbeatJob b opts uuid : keeps b (addHeartbeatJob opts uuid).
Proof.
  unfold addHeartbeatJob.
  eapply hoare_bind; [apply (hoare_gets store)|]. intros [st|]; [|apply hoare_skip; tauto].
  eapply hoare_bind; [apply (hoare_gets heap)|]. intros h.
  destruct (find _ (jobs st)) as [existing|].
  - apply hoare_modify. intros w [[Hw _] _]. same_side w.
  - eapply hoare_bind with (Q := fun _ w => wellFormed b w /\ store w = Some st).
    { intros w [[Hw Hst] _]. eexists _, _. split; [reflexivity|].
      split; [same_side w|auto]. }
    intros now. eapply hoare_bind; [apply keeps_newJob|]. intros r.
    eapply hoare_bind with
      (Q := fun _ w => wellFormed b w /\ store w = Some st /\ (r < nextRef w)%nat /\ r ∉ jobs st).
    { apply hoare_modify. intros w (Hw & Hst & Hlt & Hfresh).
      split; [same_side w|]. auto. }
    intros u. apply keeps_pushJob.
Qed.

Lemma keeps_recomputeJob b now r : keeps b (recomputeJob now r).
Proof.
  unfold recomputeJob. eapply hoare_bind; [apply keeps_readJob|]. intros j.
  destruct (enabled j); [|apply (hoare_ret tt (fun _ => wellFormed b))].
  eapply hoare_bind; [apply keeps_computeNextRun|]. intros next. apply keeps_modifyJob.
Qed.

Lemma keeps_recomputeNextRuns b : keeps b recomputeNextRuns.
Proof.
  unfold recomputeNextRuns.
  eapply hoare_bind; [apply (hoare_gets store)|]. intros [st|]; [|apply hoare_skip; tauto].
  eapply hoare_bind with (Q := fun _ => wellFormed b).
  { eapply hoare_weaken; [apply keeps_nowMs|intros w [Hw _]; exact Hw|auto]. }
  intros now. apply hoare_forEachM. intros r. apply keeps_recomputeJob.
Qed.

(** *** The timer between two calls *)

Lemma rearmed_frame w :
  store (rearmed w) = store w /\ heap (rearmed w) = heap w /\
  _running (rearmed w) = _running w /\ nextRef (rearmed w) = nextRef w /\
  calls (rearmed w) = calls w /\ storeFile (rearmed w) = storeFile w /\
  heartbeatJobId (rearmed w) = heartbeatJobId w.
Proof.
  unfold rearmed. destruct (nextWakeOf w); [destruct (_running w) eqn:Hr|];
    simpl; rewrite ?Hr; auto 10.
Qed.

Lemma steady_wellFormed w : steady w -> wellFormed (_running w) w.
Proof.
  intros (Harmed & Hload & Halloc).
  split; [exact (armed_oneTimer w Harmed)|]. auto.
Qed.

Lemma steady_rearmed b w : wellFormed b w -> steady (rearmed w) /\ _running (rearmed w) = b.
Proof.
  intros (Hone & Hload & Halloc & Hrun).
  destruct (rearmed_frame w) as (Hs & _ & Hr & Hn & _).
  split; [|congruence].
  split; [apply armed_rearmed|]. split.
  - unfold loadedIfRunning. rewrite Hr, Hs. exact Hload.
  - intros st Hst. rewrite Hs in Hst. rewrite Hn. exact (Halloc st Hst).
Qed.

Lemma hoare_armTimer b :
  hoare (wellFormed b) armTimer (fun _ w => steady w /\ _running w = b).
Proof.
  intros w Hw. exists tt, (rearmed w). split.
  - apply armTimer_rearmed. destruct Hw as (Hone & _). exact Hone.
  - apply steady_rearmed. exact Hw.
Qed.

(** States that differ in what the timer does not depend on. *)
Lemma steady_ext w w' :
  store w' = store w -> heap w' = heap w -> nextRef w' = nextRef w ->
  sameTimerSide w w' -> (ticks w <= ticks w')%nat ->
  steady w -> steady w'.
Proof.
  intros Hs Hh Hn (Hts & Hnt & Htt & Hr & _) Hticks (Harmed & Hload & Halloc).
  split; [|split].
  - unfold armed in *. rewrite (nextWakeOf_ext w' w Hs Hh), Hr, Hts, Htt.
    destruct (nextWakeOf w); [|exact Harmed].
    destruct (_running w); [|exact Harmed].
    destruct Harmed as (h & k & H1 & H2 & H3). exists h, k. repeat split; auto. lia.
  - unfold loadedIfRunning. rewrite Hr, Hs. exact Hload.
  - intros st Hst. rewrite Hs in Hst. rewrite Hn. exact (Halloc st Hst).
Qed.

Lemma steady_loadStore w st w' :
  loadStore w = (Ok st, w') -> steady w ->
  steady w' /\ _running w' = _running w /\ store w' = Some st.
Proof.
  intros Hload Hsteady.
  destruct (loadStore_effect w)
    as (st1 & w1 & Hrun & Hst & Hside & _ & _ & _ & _ & Hcached & _ & _ & _).
  rewrite Hload in Hrun. injection Hrun as <- <-.
  pose proof Hside as (Hts & _ & _ & Hr & _).
  split; [|auto].
  destruct (store w) as [st0|] eqn:Hs0.
  { destruct (Hcached st0 eq_refl) as [-> ->]. exact Hsteady. }
  destruct Hsteady as (Harmed & Hl & Halloc).
  assert (Hstopped : _running w = false).
  { destruct (_running w) eqn:E; [|reflexivity]. destruct (Hl E). exact Hs0. }
  assert (Hnone : timers w = []).
  { unfold armed, nextWakeOf, pendingTimes in Harmed. rewrite Hs0 in Harmed. exact Harmed. }
  split; [|split].
  - unfold armed. rewrite Hr, Hstopped, Hts, Hnone. destruct (nextWakeOf w'); reflexivity.
  - intros _. congruence.
  - exact (allocated_loadStore w st w' Hload Halloc).
Qed.

#[local] Abbreviation resting b := (fun w => steady w /\ _running w = b).

Lemma save_and_arm {A} b (a : A) :
  hoare (wellFormed b) (saveStore ;; armTimer ;; ret a) (fun _ => resting b).
Proof.
  eapply hoare_bind; [apply keeps_saveStore|]. intros u.
  eapply hoare_bind; [apply hoare_armTimer|]. intros u'. apply hoare_skip. auto.
Qed.

Lemma start_steady opts uuid w :
  steady w -> exists w', start opts uuid w = (Ok tt, w') /\ resting true w'.
Proof.
  intros Hs. destruct (steady_wellFormed w Hs) as (Hone & _ & Halloc & _).
  cut (hoare (fun w0 => w0 = w) (start opts uuid) (fun _ => resting true)).
  { intros Hh. destruct (Hh w eq_refl) as ([] & w' & Hrun & Hpost). eauto. }
  unfold start.
  eapply hoare_bind with (Q := fun _ w1 => oneTimer w1 /\ allocated w1 /\ _running w1 = true).
  { apply hoare_modify. intros ? ->. auto. }
  intros u. eapply hoare_bind with (Q := fun _ => wellFormed true).
  { intros w1 (Hone1 & Halloc1 & Hrun1).
    destruct (loadStore_effect w1)
      as (st & w' & Hload & Hst & Hside & _ & _ & _ & _ & _ & _ & _ & _).
    exists st, w'. split; [exact Hload|].
    pose proof Hside as (_ & _ & _ & Hr & _).
    split; [exact (oneTimer_same w1 w' Hside Hone1)|].
    split; [intros _; congruence|].
    split; [exact (allocated_loadStore w1 st w' Hload Halloc1)|congruence]. }
  intros st. eapply hoare_bind with (Q := fun _ => wellFormed true).
  { destruct (heartbeatEnabled opts); [apply keeps_addHeartbeatJob|apply hoare_skip; auto]. }
  intros u1. eapply hoare_bind; [apply keeps_recomputeNextRuns|]. intros u2.
  eapply hoare_bind; [apply keeps_saveStore|]. intros u3. apply hoare_armTimer.
Qed.

Lemma oneTimer_cleared w :
  oneTimer w ->
  match timerTimeout w with
  | Some old => filter (fun t => negb (Nat.eqb (fst t) old)) (timers w) = []
  | None => timers w = []
  end.
Proof.
  intros [Hnil|(h & d & Hts & Hh)].
  - rewrite Hnil. destruct (timerTimeout w); reflexivity.
  - rewrite Hh, Hts. rewrite filter_cons_False; [reflexivity|].
    simpl. rewrite Nat.eqb_refl. simpl. tauto.
Qed.

Lemma stop_steady w :
  steady w ->
  exists w', stop w = (Ok tt, w') /\ resting false w' /\ timers w' = [] /\
             timerTimeout w' = None /\ store w' = store w /\ heap w' = heap w /\
             calls w' = calls w.
Proof.
  intros (Harmed & Hload & Halloc).
  pose proof (oneTimer_cleared w (armed_oneTimer w Harmed)) as Hclear.
  unfold stop, bind, modify, gets. simpl.
  destruct (timerTimeout w) as [old|] eqn:Hold; simpl; unfold clearTimeout, modify, ret; simpl;
    eexists; (split; [reflexivity|]); simpl; rewrite ?Hclear.
  all: split; [|auto 10].
  all: split; [|reflexivity].
  all: split; [unfold armed; simpl; rewrite ?Hclear;
               match goal with |- match ?x with _ => _ end => destruct x end; reflexivity|].
  all: split; [intros [=]|exact Halloc].
Qed.

Lemma addJob_steady b uuid options :
  hoare (wellFormed b) (addJob uuid options) (fun _ => resting b).
Proof.
  unfold addJob. eapply hoare_bind; [apply keeps_loadStore|]. intros st.
  eapply hoare_bind with (Q := fun _ w => wellFormed b w /\ store w = Some st).
  { intros w [Hw Hst]. eexists _, _. split; [reflexivity|]. split; [same_side w|exact Hst]. }
  intros now. eapply hoare_bind with (Q := fun _ w => wellFormed b w /\ store w = Some st).
  { intros w Hw. destruct (computeNextRun_returns (opt_schedule options) now) as [next Hn].
    exists next, w. unfold liftRes. rewrite Hn. auto. }
  intros next. eapply hoare_bind; [apply keeps_newJob|]. intros r.
  eapply hoare_bind; [apply keeps_pushJob|]. intros u. apply save_and_arm.
Qed.

Lemma removeJob_steady jobId w :
  steady w ->
  exists b w', removeJob jobId w = (Ok b, w') /\ resting (_running w) w'.
Proof.
  intros Hs.
  destruct (loadStore_effect w) as (st & w0 & Hload & _).
  destruct (steady_loadStore w st w0 Hload Hs) as (Hs0 & Hr0 & Hst0).
  unfold removeJob, bind. rewrite Hload. unfold gets, modify. simpl.
  set (kept := filter (fun r => negb (String.eqb (id (heap w0 r)) jobId)) (jobs st)).
  destruct (Nat.ltb_spec (length kept) (length (jobs st))) as [Hlt|Hge].
  - pose proof (wellFormed_filter (_running w0) w0 st
                  (fun r => negb (String.eqb (id (heap w0 r)) jobId))
                  Hst0 (steady_wellFormed w0 Hs0)) as Hw1.
    destruct (save_and_arm (_running w0) true _ Hw1) as (b & w' & Hrun & Hpost).
    unfold bind in Hrun. fold kept in Hrun. rewrite Hrun. rewrite <- Hr0. eauto.
  - unfold ret. exists false. eexists. split; [reflexivity|].
    unfold kept. rewrite filter_same_length by (fold kept; lia).
    rewrite store_eta, <- Hst0. unfold set_store. rewrite world_eta. auto.
Qed.

Lemma enableJob_steady jobId en w :
  steady w ->
  exists b w', enableJob jobId en w = (Ok b, w') /\ resting (_running w) w'.
Proof.
  intros Hs.
  destruct (loadStore_effect w) as (st & w0 & Hload & _).
  destruct (steady_loadStore w st w0 Hload Hs) as (Hs0 & Hr0 & Hst0).
  unfold enableJob, bind at 1. rewrite Hload. unfold bind at 1, gets at 1.
  destruct (find _ (jobs st)) as [r|]; [|exists false, w0; unfold ret; auto].
  rewrite <- Hr0.
  cut (hoare (wellFormed (_running w0))
         (modifyJob r (set_enabled en) ;;
          let* t := nowMs in
          modifyJob r (set_updatedAtMs t) ;;
          (if en
           then let* j := readJob r in
                let* t' := nowMs in
                let* next := liftRes (computeNextRun (schedule j) t') in
                modifyJob r (set_nextRunAtMs next)
           else modifyJob r (set_nextRunAtMs None)) ;;
          saveStore ;; armTimer ;; ret true)
         (fun _ => resting (_running w0))).
  { intros Hh. destruct (Hh w0 (steady_wellFormed w0 Hs0)) as (b & w' & Hrun & Hpost). eauto. }
  eapply hoare_bind; [apply keeps_modifyJob|]. intros u.
  eapply hoare_bind; [apply keeps_nowMs|]. intros t.
  eapply hoare_bind; [apply keeps_modifyJob|]. intros u1.
  eapply hoare_bind with (Q := fun _ => wellFormed (_running w0)); [|intros u2; apply save_and_arm].
  destruct en; [|apply keeps_modifyJob].
  eapply hoare_bind; [apply keeps_readJob|]. intros j.
  eapply hoare_bind; [apply keeps_nowMs|]. intros t'.
  eapply hoare_bind; [apply keeps_computeNextRun|]. intros next. apply keeps_modifyJob.
Qed.

Lemma runJob_steady jobId w :
  steady w -> exists w', runJob jobId w = (Ok tt, w') /\ resting (_running w) w'.
Proof.
  intros Hs.
  destruct (loadStore_effect w) as (st & w0 & Hload & _).
  destruct (steady_loadStore w st w0 Hload Hs) as (Hs0 & Hr0 & Hst0).
  unfold runJob, bind at 1. rewrite Hload. unfold bind at 1, gets at 1.
  destruct (find _ (jobs st)) as [r|]; [|exists w0; unfold ret; auto].
  rewrite <- Hr0.
  cut (hoare (wellFormed (_running w0)) (executeJob r ;; saveStore ;; armTimer)
         (fun _ => resting (_running w0))).
  { intros Hh. destruct (Hh w0 (steady_wellFormed w0 Hs0)) as ([] & w' & Hrun & Hpost). eauto. }
  eapply hoare_bind; [apply keeps_executeJob|]. intros u.
  eapply hoare_bind; [apply keeps_saveStore|]. intros u1. apply hoare_armTimer.
Qed.

Lemma listJobs_steady w :
  steady w -> exists l w', listJobs w = (Ok l, w') /\ resting (_running w) w'.
Proof.
  intros Hs.
  destruct (loadStore_effect w) as (st & w0 & Hload & _).
  destruct (steady_loadStore w st w0 Hload Hs) as (Hs0 & Hr0 & Hst0).
  unfold listJobs, bind. rewrite Hload. unfold gets, ret. simpl. eauto.
Qed.

Lemma status_steady w :
  steady w -> exists s w', status w = (Ok s, w') /\ resting (_running w) w'.
Proof.
  intros Hs.
  destruct (loadStore_effect w) as (st & w0 & Hload & _).
  destruct (steady_loadStore w st w0 Hload Hs) as (Hs0 & Hr0 & Hst0).
  unfold status, bind. rewrite Hload. unfold gets, ret. simpl.
  rewrite getNextWakeMs_eq. eauto.
Qed.

(** [triggerHeartbeat] may throw what the callback throws. *)
Lemma triggerHeartbeat_steady w :
  steady w ->
  exists res w', triggerHeartbeat w = (res, w') /\ resting (_running w) w'.
Proof.
  intros Hs. unfold triggerHeartbeat. unfold bind at 1. unfold gets at 1. cbv beta iota.
  destruct (truthyOptStr (heartbeatJobId w)); [|exists (Ok tt), w; auto].
  destruct (loadStore_effect w) as (st & w0 & Hload & _).
  destruct (steady_loadStore w st w0 Hload Hs) as (Hs0 & Hr0 & Hst0).
  unfold bind. rewrite Hload. unfold gets. cbv beta iota.
  destruct (find _ (jobs st)) as [r|]; [|exists (Ok tt), w0; auto].
  destruct onJob as [cb|]; [|exists (Ok tt), w0; auto].
  unfold invokeOnJob. eexists _, _. split; [reflexivity|].
  split; [|exact Hr0].
  apply (steady_ext w0); auto; unfold sameTimerSide; simpl; tauto.
Qed.

Lemma onTimer_steady b w st :
  store w = Some st -> wellFormed b w ->
  exists w', onTimer w = (Ok tt, w') /\ resting b w'.
Proof.
  intros Hst Hw. unfold onTimer, bind at 1, gets at 1. rewrite Hst.
  cut (hoare (wellFormed b)
         (let* now := nowMs in
          let* h := gets heap in
          forEachM (filter (fun r => isDue now (h r)) (jobs st)) executeJob ;;
          saveStore ;; armTimer)
         (fun _ => resting b)).
  { intros Hh. destruct (Hh w Hw) as ([] & w' & Hrun & Hpost). eauto. }
  eapply hoare_bind; [apply keeps_nowMs|]. intros now.
  eapply hoare_bind with (Q := fun _ => wellFormed b).
  { intros w1 Hw1. eexists _, _. split; [reflexivity|exact Hw1]. }
  intros h. eapply hoare_bind.
  { apply hoare_forEachM. intros r. apply keeps_executeJob. }
  intros u. eapply hoare_bind; [apply keeps_saveStore|]. intros u1. apply hoare_armTimer.
Qed.

Lemma fireTimer_steady h w :
  steady w -> exists w', fireTimer h w = (Ok tt, w') /\ resting (_running w) w'.
Proof.
  intros Hs. unfold fireTimer, bind at 1, gets at 1.
  destruct (existsb _ (timers w)) eqn:Hex; [|exists w; unfold ret; auto].
  pose proof Hs as (Harmed & Hload & Halloc).
  assert (exists d, timers w = [(h, d)] /\ _running w = true) as (d & Hts & Hrun).
  { unfold armed in Harmed. destruct (nextWakeOf w) as [nw|].
    - destruct (_running w); [|rewrite Harmed in Hex; discriminate].
      destruct Harmed as (h0 & k & Hts & _). rewrite Hts in Hex. simpl in Hex.
      rewrite orb_false_r in Hex. apply Nat.eqb_eq in Hex. subst h0. eauto.
    - rewrite Harmed in Hex. discriminate. }
  destruct (store w) as [st|] eqn:Hst; [|destruct (Hload Hrun Hst)].
  unfold bind at 1, clearTimeout at 1, modify at 1. unfold timerCallback, bind at 1, gets at 1.
  cbn [_running set_timers]. rewrite Hrun.
  apply (onTimer_steady true _ st); [exact Hst|].
  split; [left; simpl; rewrite Hts; rewrite filter_cons_False;
          [reflexivity|simpl; rewrite Nat.eqb_refl; simpl; tauto]|].
  split; [intros _; simpl; congruence|]. split; [|exact Hrun].
  exact Halloc.
Qed.

Lemma runOp_steady op w :
  steady w ->
  exists res w', runOp op w = (res, w') /\ resting (runningAfter op (_running w)) w'.
Proof.
  intros Hs. destruct op as [opts uuid| |uuid options|jobId|jobId en|jobId| | | |h]; simpl.
  - destruct (start_steady opts uuid w Hs) as (w' & Hrun & Hpost). eauto.
  - destruct (stop_steady w Hs) as (w' & Hrun & Hpost & _). eauto.
  - destruct (addJob_steady (_running w) uuid options w (steady_wellFormed w Hs))
      as (r & w' & Hrun & Hpost).
    unfold bind. rewrite Hrun. unfold ret. eauto.
  - destruct (removeJob_steady jobId w Hs) as (b & w' & Hrun & Hpost).
    unfold bind. rewrite Hrun. unfold ret. eauto.
  - destruct (enableJob_steady jobId en w Hs) as (b & w' & Hrun & Hpost).
    unfold bind. rewrite Hrun. unfold ret. eauto.
  - destruct (runJob_steady jobId w Hs) as (w' & Hrun & Hpost). eauto.
  - destruct (listJobs_steady w Hs) as (l & w' & Hrun & Hpost).
    unfold bind. rewrite Hrun. unfold ret. eauto.
  - destruct (status_steady w Hs) as (l & w' & Hrun & Hpost).
    unfold bind. rewrite Hrun. unfold ret. eauto.
  - apply triggerHeartbeat_steady. exact Hs.
  - destruct (fireTimer_steady h w Hs) as (w' & Hrun & Hpost). eauto.
Qed.

Lemma runOps_steady ops : forall w, steady w -> steady (runOps ops w).
Proof.
  induction ops as [|op ops IH]; intros w Hs; simpl; [exact Hs|].
  destruct (runOp_steady op w Hs) as (res & w' & Hrun & Hpost & _).
  rewrite Hrun. simpl. apply IH. exact Hpost.
Qed.

Lemma runOps_app ops1 ops2 w : runOps (ops1 ++ ops2) w = runOps ops2 (runOps ops1 w).
Proof. revert w. induction ops1 as [|op ops1 IH]; intros w; simpl; auto. Qed.

Lemma runOps_stopped ops :
  forallb (fun op => negb (isStart op)) ops = true ->
  forall w, steady w -> _running w = false -> _running (runOps ops w) = false.
Proof.
  induction ops as [|op ops IH]; intros Hops w Hs Hr; simpl; [exact Hr|].
  simpl in Hops. apply andb_prop in Hops as [Hop Hops].
  destruct (runOp_steady op w Hs) as (res & w' & Hrun & Hpost & Hr').
  rewrite Hrun. simpl. apply (IH Hops); [exact Hpost|].
  rewrite Hr', Hr. destruct op; try reflexivity. discriminate.
Qed.

Lemma newScheduler_steady env : timers env = [] -> steady (newScheduler env).
Proof.
  intros Hts. split; [exact Hts|]. split; [intros [=]|intros st [=]].
Qed.

Lemma armed_stopped w : armed w -> _running w = false -> timers w = [].
Proof.
  unfold armed. intros Ha Hr. rewrite Hr in Ha. destruct (nextWakeOf w); exact Ha.
Qed.

(** X4: whatever calls a client makes and whenever the timer fires, between
    two calls the scheduler has a timer pending exactly when it is running
    and some enabled job has a next run time; there is then one timer, the
    one the scheduler remembers, and its delay is the time from a reading of
    the clock to the earliest such run time, or zero if that is past.  The
    job objects of the store are distinct. *)
Theorem scheduler_timer_always_armed (env : World) (ops : list Op) :
  timers env = [] ->
  let w := runOps ops (newScheduler env) in
  armed w /\
  (length (timers w) <= 1)%nat /\
  (timers w <> [] <-> _running w = true /\ nextWakeOf w <> None) /\
  (forall st, store w = Some st -> NoDup (jobs st)).
Proof.
  intros Henv w.
  destruct (runOps_steady ops _ (newScheduler_steady env Henv)) as (Harmed & _ & Halloc).
  fold w in Harmed, Halloc. split; [exact Harmed|].
  unfold armed in Harmed. split; [|split].
  - destruct (nextWakeOf w); [destruct (_running w)|]; try (rewrite Harmed; simpl; lia).
    destruct Harmed as (h & k & -> & _). simpl. lia.
  - destruct (nextWakeOf w); [destruct (_running w)|].
    + destruct Harmed as (h & k & -> & _). split; [intros _; split; [reflexivity|discriminate]|].
      intros _. discriminate.
    + rewrite Harmed. split; [intros Hne; destruct (Hne eq_refl)|intros [[=] _]].
    + rewrite Harmed. split; [intros Hne; destruct (Hne eq_refl)|].
      intros [_ Hne]. destruct (Hne eq_refl).
  - intros st Hst. destruct (Halloc st Hst) as [Hnd _]. exact Hnd.
Qed.

(** X5: once [stop] has been called, and until [start] is called again, the
    scheduler is not running and no timer is pending, whatever other calls
    are made; a timer callback that runs all the same does nothing. *)
Theorem stop_silences (env : World) (before after : list Op) :
  timers env = [] ->
  forallb (fun op => negb (isStart op)) after = true ->
  let w := runOps (before ++ OpStop :: after) (newScheduler env) in
  _running w = false /\ timers w = [] /\
  (forall h, fireTimer h w = (Ok tt, w)) /\ timerCallback w = (Ok tt, w).
Proof.
  intros Henv Hafter w.
  pose proof (runOps_steady before _ (newScheduler_steady env Henv)) as Hs.
  unfold w. rewrite runOps_app. simpl.
  set (w0 := runOps before (newScheduler env)) in *.
  destruct (stop_steady w0 Hs) as (w1 & Hstop & [Hs1 Hr1] & _).
  rewrite Hstop. simpl.
  pose proof (runOps_steady after w1 Hs1) as (Harmed & _).
  pose proof (runOps_stopped after Hafter w1 Hs1 Hr1) as Hr.
  pose proof (armed_stopped _ Harmed Hr) as Hts.
  split; [exact Hr|]. split; [exact Hts|]. split.
  - intros h. unfold fireTimer, bind, gets. rewrite Hts. reflexivity.
  - unfold timerCallback, bind, gets. rewrite Hr. reflexivity.
Qed.

(** *** Starting *)

Lemma recomputed_idem now j : recomputed now (recomputed now j) = recomputed now j.
Proof.
  unfold recomputed. destruct (enabled j) eqn:He; [|rewrite He; reflexivity].
  destruct (computeNextRun (schedule j) now) as [next|e] eqn:Hn; simpl.
  - rewrite He, Hn. reflexivity.
  - rewrite He, Hn. reflexivity.
Qed.

Lemma recomputed_same now j :
  sameIdentity j (recomputed now j) /\ enabled (recomputed now j) = enabled j /\
  lastRunAtMs (state (recomputed now j)) = lastRunAtMs (state j) /\
  lastStatus (state (recomputed now j)) = lastStatus (state j) /\
  lastError (state (recomputed now j)) = lastError (state j) /\
  updatedAtMs (recomputed now j) = updatedAtMs j.
Proof.
  unfold recomputed, sameIdentity.
  destruct (enabled j) eqn:He; [|rewrite ?He; tauto].
  destruct (computeNextRun (schedule j) now); simpl; rewrite ?He; tauto.
Qed.

Lemma sameButHeap_refl w : sameButHeap w w.
Proof. unfold sameButHeap, sameTimerSide. tauto. Qed.

Lemma sameButHeap_trans w1 w2 w3 :
  sameButHeap w1 w2 -> sameButHeap w2 w3 -> sameButHeap w1 w3.
Proof. unfold sameButHeap, sameTimerSide. intuition congruence. Qed.

Lemma recomputeJob_effect now r w :
  exists w',
    recomputeJob now r w = (Ok tt, w') /\ sameButHeap w w' /\
    forall r', heap w' r' = updateAt (heap w) r (recomputed now) r'.
Proof.
  unfold recomputeJob, bind, readJob, gets, liftRes, modifyJob, modify, ret.
  destruct (computeNextRun_returns (schedule (heap w r)) now) as [next Hn].
  destruct (enabled (heap w r)) eqn:He.
  - rewrite Hn. eexists. split; [reflexivity|].
    split; [unfold sameButHeap, sameTimerSide; simpl; tauto|].
    intros r'. simpl. unfold updateAt, recomputed.
    destruct (Nat.eqb_spec r' r) as [->|Hne]; [|reflexivity].
    rewrite He, Hn. reflexivity.
  - exists w. split; [reflexivity|]. split; [apply sameButHeap_refl|].
    intros r'. unfold updateAt, recomputed.
    destruct (Nat.eqb_spec r' r) as [->|Hne]; [|reflexivity].
    rewrite He. reflexivity.
Qed.

Lemma forEach_recomputeJob now l :
  forall w, exists w',
    forEachM l (recomputeJob now) w = (Ok tt, w') /\ sameButHeap w w' /\
    forall r, heap w' r = if bool_decide (r ∈ l) then recomputed now (heap w r) else heap w r.
Proof.
  induction l as [|r0 l IH]; intros w.
  - exists w. split; [reflexivity|]. split; [apply sameButHeap_refl|].
    intros r. rewrite bool_decide_eq_false_2; [reflexivity|apply not_elem_of_nil].
  - destruct (recomputeJob_effect now r0 w) as (w1 & Hrun1 & Hsame1 & Hheap1).
    destruct (IH w1) as (w' & Hrun & Hsame & Hheap).
    exists w'. simpl. unfold bind. rewrite Hrun1, Hrun.
    split; [reflexivity|]. split; [exact (sameButHeap_trans _ _ _ Hsame1 Hsame)|].
    intros r. rewrite Hheap, Hheap1. unfold updateAt.
    destruct (Nat.eqb_spec r r0) as [->|Hne].
    + rewrite (bool_decide_eq_true_2 (r0 ∈ r0 :: l)) by (apply elem_of_cons; auto).
      destruct (bool_decide (r0 ∈ l)); [apply recomputed_idem|reflexivity].
    + destruct (bool_decide (r ∈ l)) eqn:Hin.
      * apply bool_decide_eq_true in Hin.
        rewrite bool_decide_eq_true_2 by (apply elem_of_cons; auto). reflexivity.
      * apply bool_decide_eq_false in Hin.
        rewrite bool_decide_eq_false_2; [reflexivity|].
        intros Hc. apply elem_of_cons in Hc as [Hc|Hc]; auto.
Qed.

Lemma recomputeNextRuns_effect w st :
  store w = Some st ->
  exists w',
    recomputeNextRuns w = (Ok tt, w') /\
    sameButHeap (set_ticks (S (ticks w)) w) w' /\
    forall r, heap w' r =
              if bool_decide (r ∈ jobs st) then recomputed (clock (ticks w)) (heap w r)
              else heap w r.
Proof.
  intros Hst. unfold recomputeNextRuns, bind at 1, gets at 1. rewrite Hst.
  unfold bind, nowMs.
  destruct (forEach_recomputeJob (clock (ticks w)) (jobs st) (set_ticks (S (ticks w)) w))
    as (w' & Hrun & Hsame & Hheap).
  rewrite Hrun. exists w'. auto.
Qed.

Lemma find_ext {A} (p q : A -> bool) (l : list A) :
  (forall x, x ∈ l -> p x = q x) -> find p l = find q l.
Proof.
  induction l as [|a l IH]; intros Hpq; [reflexivity|]. simpl.
  rewrite <- (Hpq a) by (apply elem_of_cons; auto).
  destruct (p a); [reflexivity|]. apply IH. intros x Hx. apply Hpq, elem_of_cons. auto.
Qed.

Lemma find_elem {A} (p : A -> bool) (l : list A) x :
  find p l = Some x -> x ∈ l /\ p x = true.
Proof.
  induction l as [|a l IH]; [discriminate|]. simpl. destruct (p a) eqn:Ha.
  - intros [= <-]. split; [apply elem_of_cons; auto|exact Ha].
  - intros Hf. destruct (IH Hf). split; [apply elem_of_cons; auto|assumption].
Qed.

Lemma find_none {A} (p : A -> bool) (l : list A) x :
  find p l = None -> x ∈ l -> p x = false.
Proof.
  induction l as [|a l IH]; intros Hf Hx; [destruct (not_elem_of_nil _ Hx)|].
  simpl in Hf. destruct (p a) eqn:Ha; [discriminate|].
  apply elem_of_cons in Hx as [->|Hx]; auto.
Qed.

Lemma find_snoc {A} (p : A -> bool) (l : list A) x :
  find p l = None -> p x = true -> find p (l ++ [x]) = Some x.
Proof.
  induction l as [|a l IH]; simpl; intros Hf Hx; [rewrite Hx; reflexivity|].
  destruct (p a); [discriminate|]. auto.
Qed.

Lemma addHeartbeatJob_effect opts uuid w st :
  store w = Some st -> allocated w ->
  exists w' st' r,
    addHeartbeatJob opts uuid w = (Ok tt, w') /\
    store w' = Some st' /\ version st' = version st /\
    find (fun r => isHeartbeat (heap w' r)) (jobs st') = Some r /\
    heartbeatJobId w' = Some (id (heap w' r)) /\
    (forall r', r' ∈ jobs st -> heap w' r' = heap w r') /\
    (forall r', r' ∈ jobs st -> r' ∈ jobs st') /\
    (find (fun r => isHeartbeat (heap w r)) (jobs st) <> None -> st' = st) /\
    allocated w' /\ storeFile w' = storeFile w /\ sameTimerSide w w' /\
    calls w' = calls w /\ (ticks w <= ticks w')%nat /\
    (jobs st' = jobs st \/ jobs st' = (jobs st ++ [r])%list).
Proof.
  intros Hst Halloc. unfold addHeartbeatJob, bind, gets. rewrite Hst. cbv beta iota.
  change (fun r => String.eqb (payload_kind (payload (heap w r))) "heartbeat")
    with (fun r => isHeartbeat (heap w r)).
  destruct (find (fun r => isHeartbeat (heap w r)) (jobs st)) as [existing|] eqn:Hfind.
  - eexists _, st, existing. split; [reflexivity|]. simpl.
    repeat split; auto; try (unfold sameTimerSide; tauto);
      intros; apply (Halloc st0); assumption.
  - pose proof (allocated_fresh w st Halloc Hst) as Hfresh.
    destruct (Halloc st Hst) as [Hnd Hlt].
    eexists _, _, (nextRef w). split; [reflexivity|]. simpl.
    assert (Hold : forall r', r' ∈ jobs st ->
              updateAt (heap w) (nextRef w)
                (fun _ => newHeartbeatJob opts uuid (clock (ticks w))) r' = heap w r').
    { intros r' Hr'. apply updateAt_other. intros ->. contradiction. }
    split; [reflexivity|]. split; [reflexivity|]. split.
    { apply find_snoc.
      - rewrite <- Hfind. apply find_ext. intros r' Hr'. rewrite Hold by assumption. reflexivity.
      - rewrite updateAt_same. reflexivity. }
    split; [rewrite updateAt_same; reflexivity|]. split; [exact Hold|].
    split; [intros r' Hr'; apply elem_of_app; auto|]. split; [intros Hc; destruct (Hc eq_refl)|].
    split.
    { intros st' [= <-]. simpl. split.
      - apply NoDup_app. split; [exact Hnd|]. split; [|apply NoDup_singleton].
        intros r0 Hr Hr'. apply list_elem_of_singleton in Hr'. subst r0. contradiction.
      - apply Forall_app. split.
        + eapply Forall_impl; [exact Hlt|]. simpl. intros r Hr. lia.
        + apply Forall_cons. split; [lia|apply Forall_nil_2]. }
    repeat split; auto.
Qed.

Lemma start_effect opts uuid w :
  exists st0 w0,
    loadStore (set_running true w) = (Ok st0, w0) /\
    forall wh sth,
      (if heartbeatEnabled opts then addHeartbeatJob opts uuid else ret tt) w0 = (Ok tt, wh) ->
      store wh = Some sth ->
      exists w1,
        start opts uuid w = (Ok tt, w1) /\
        store w1 = Some sth /\ heartbeatJobId w1 = heartbeatJobId wh /\
        nextRef w1 = nextRef wh /\
        (forall r, heap w1 r =
                   if bool_decide (r ∈ jobs sth)
                   then recomputed (clock (ticks wh)) (heap wh r)
                   else heap wh r) /\
        storeFile w1 =
          JsonDoc (storeToJson (version sth)
                     (map (heap w1)
                        (filter (fun r => strictNeqOpt (id (heap w1 r)) (heartbeatJobId w1))
                                (jobs sth)))).
Proof.
  destruct (loadStore_effect (set_running true w)) as (st0 & w0 & Hload & _).
  exists st0, w0. split; [exact Hload|]. intros wh sth Hhb Hsth.
  destruct (recomputeNextRuns_effect wh sth Hsth) as (w2 & Hrec & Hsame & Hheap).
  destruct Hsame as (Hs2 & Hhb2 & Hn2 & _ & _ & _ & _). simpl in Hs2, Hhb2, Hn2.
  assert (Hst2 : store w2 = Some sth) by congruence.
  destruct (armTimer_frame
              (set_storeFile
                 (JsonDoc (storeToJson (version sth)
                    (map (heap w2)
                       (filter (fun r => strictNeqOpt (id (heap w2 r)) (heartbeatJobId w2))
                               (jobs sth))))) w2))
    as (w1 & Harm & Hheap1 & Hstore1 & _ & Hfile1 & _ & Hhb1 & Hn1 & _).
  exists w1. split.
  { unfold start, bind at 1, modify at 1. unfold bind at 1. rewrite Hload.
    unfold bind at 1. rewrite Hhb. unfold bind at 1. rewrite Hrec.
    unfold bind at 1. rewrite (saveStore_file w2 sth Hst2). exact Harm. }
  simpl in *. split; [congruence|]. split; [congruence|]. split; [congruence|].
  split; [intros r; rewrite Hheap1; apply Hheap|].
  rewrite Hfile1, Hheap1, Hhb1. reflexivity.
Qed.

Lemma persistedIds_storeToJson v js :
  persistedIds (JsonDoc (storeToJson v js)) = map id js.
Proof.
  unfold persistedIds, storeToJson. simpl. rewrite map_map. reflexivity.
Qed.

Lemma allocated_same w w' :
  store w' = store w -> nextRef w' = nextRef w -> allocated w -> allocated w'.
Proof. intros Hs Hn Ha st Hst. rewrite Hs in Hst. rewrite Hn. exact (Ha st Hst). Qed.

(** X6: [start] with the heartbeat enabled leaves in the store a job whose
    payload kind is "heartbeat" and whose id is the heartbeat job id the
    scheduler remembers (a job of that kind that was already there, or else
    a new one); the store file it writes lists no job with that id; and a
    second [start] adds no job and keeps the same heartbeat job. *)
Theorem start_heartbeat_once (w : World) (opts : Options) (uuid uuid2 : string) :
  allocated w -> heartbeatEnabled opts = true ->
  exists w1 st1 r,
    start opts uuid w = (Ok tt, w1) /\ store w1 = Some st1 /\
    r ∈ jobs st1 /\ isHeartbeat (heap w1 r) = true /\
    heartbeatJobId w1 = Some (id (heap w1 r)) /\
    (id (heap w1 r) ∉ persistedIds (storeFile w1)) /\
    exists w2,
      start opts uuid2 w1 = (Ok tt, w2) /\ store w2 = Some st1 /\
      heartbeatJobId w2 = heartbeatJobId w1.
Proof.
  intros Halloc Hen.
  assert (Hstart : forall u v,
            allocated v ->
            exists st0 v0 vh sth r v1,
              loadStore (set_running true v) = (Ok st0, v0) /\ store v0 = Some st0 /\
              addHeartbeatJob opts u v0 = (Ok tt, vh) /\ store vh = Some sth /\
              (find (fun r => isHeartbeat (heap v0 r)) (jobs st0) <> None -> sth = st0) /\
              find (fun r => isHeartbeat (heap vh r)) (jobs sth) = Some r /\
              start opts u v = (Ok tt, v1) /\ store v1 = Some sth /\
              heartbeatJobId v1 = Some (id (heap v1 r)) /\ allocated v1 /\
              find (fun r => isHeartbeat (heap v1 r)) (jobs sth) = Some r /\
              (id (heap v1 r) ∉ persistedIds (storeFile v1)) /\
              (forall r', id (heap v1 r') = id (heap vh r')) /\
              (forall r', r' ∈ jobs st0 -> heap vh r' = heap v0 r')).
  { intros u v Hv.
    destruct (start_effect opts u v) as (st0 & v0 & Hload & Hk).
    destruct (loadStore_effect (set_running true v)) as (st0' & v0' & Hload' & Hst0 & _).
    rewrite Hload in Hload'. injection Hload' as <- <-.
    assert (Hv0 : allocated v0).
    { apply (allocated_loadStore _ _ _ Hload). exact Hv. }
    destruct (addHeartbeatJob_effect opts u v0 st0 Hst0 Hv0)
      as (vh & sth & r & Hhb & Hsth & _ & Hfind & Hid & Hold & _ & Hsame & Hvh & _).
    rewrite Hen in Hk.
    destruct (Hk vh sth Hhb Hsth) as (v1 & Hrun & Hst1 & Hhb1 & Hn1 & Hheap1 & Hfile1).
    destruct (find_elem _ _ _ Hfind) as [Hr Hkind].
    assert (Hpay : forall r', isHeartbeat (heap v1 r') = isHeartbeat (heap vh r') /\
                              id (heap v1 r') = id (heap vh r')).
    { intros r'. rewrite Hheap1. destruct (bool_decide (r' ∈ jobs sth)); [|auto].
      destruct (recomputed_same (clock (ticks vh)) (heap vh r')) as ((Hi & _ & _ & Hp & _) & _).
      unfold isHeartbeat. rewrite Hp, Hi. auto. }
    exists st0, v0, vh, sth, r, v1.
    split; [exact Hload|]. split; [exact Hst0|]. split; [exact Hhb|]. split; [exact Hsth|].
    split; [exact Hsame|]. split; [exact Hfind|]. split; [exact Hrun|]. split; [exact Hst1|].
    split; [rewrite Hhb1, Hid; f_equal; symmetry; apply Hpay|].
    split; [apply (allocated_same vh); [congruence|congruence|exact Hvh]|].
    split; [rewrite <- Hfind; apply find_ext; intros r' _; apply Hpay|].
    split; [|split; [intros r'; apply Hpay|exact Hold]].
    rewrite Hfile1, persistedIds_storeToJson. intros Hin.
    apply AsyncQueueFacts.elem_of_map in Hin as (j & Hj & Hin).
    apply AsyncQueueFacts.elem_of_map in Hin as (r' & -> & Hr').
    apply list_elem_of_filter in Hr' as [Hne _]. apply Is_true_true in Hne.
    rewrite Hhb1, Hid in Hne. simpl in Hne.
    destruct (Hpay r) as [_ Hidr]. rewrite <- Hidr, Hj, String.eqb_refl in Hne. discriminate. }
  destruct (Hstart uuid w Halloc)
    as (st0 & w0 & wh & sth & r & w1 & _ & _ & _ & _ & _ & Hfind & Hrun & Hst1 & Hhb1 & Hw1 &
        Hfind1 & Hfile & _).
  destruct (find_elem _ _ _ Hfind) as [Hr Hkind].
  destruct (find_elem _ _ _ Hfind1) as [_ Hkind1].
  exists w1, sth, r. split; [exact Hrun|]. split; [exact Hst1|]. split; [exact Hr|].
  split; [exact Hkind1|]. split; [exact Hhb1|]. split; [exact Hfile|].
  destruct (Hstart uuid2 w1 Hw1)
    as (st0' & w0' & wh' & sth' & r' & w2 & Hload' & _ & _ & _ & Hsame' & Hfind' & Hrun' & Hst2 &
        Hhb2 & _ & Hfind2 & _ & Hid2 & Hold2).
  assert (Hcached : w0' = set_running true w1 /\ st0' = sth).
  { rewrite (loadStore_cached (set_running true w1) sth Hst1) in Hload'.
    injection Hload' as <- <-. auto. }
  destruct Hcached as [-> ->]. simpl in Hsame'.
  assert (sth' = sth) as -> by (apply Hsame'; rewrite Hfind1; discriminate).
  exists w2. split; [exact Hrun'|]. split; [exact Hst2|].
  assert (r' = r) as ->.
  { rewrite (find_ext _ (fun r => isHeartbeat (heap w1 r)) (jobs sth)) in Hfind'.
    - congruence.
    - intros x Hx. rewrite (Hold2 x Hx). reflexivity. }
  rewrite Hhb2, Hhb1, Hid2, (Hold2 r Hr). reflexivity.
Qed.

Lemma recomputed_next now j :
  enabled (recomputed now j) = true ->
  computeNextRun (schedule (recomputed now j)) now
    = Ok (nextRunAtMs (state (recomputed now j))).
Proof.
  unfold recomputed. destruct (enabled j) eqn:He; [|congruence]. intros _.
  destruct (computeNextRun_returns (schedule j) now) as [next Hn]. rewrite Hn. exact Hn.
Qed.

(** X7: [start] recomputes the next run of every enabled job of the store
    from one reading of the clock, made during the call: such a job gets the
    [nextRunAtMs] that [computeNextRun] gives for its schedule at that time,
    whatever the store file said, so that a run missed while the scheduler
    was down is not caught up.  The jobs loaded from the file change in
    nothing else, and the disabled ones not at all. *)
Theorem start_recomputes (w : World) (opts : Options) (uuid : string) :
  allocated w ->
  exists st0 w0 w1 st1 k,
    loadStore (set_running true w) = (Ok st0, w0) /\
    start opts uuid w = (Ok tt, w1) /\ store w1 = Some st1 /\ (ticks w <= k)%nat /\
    (forall r, r ∈ jobs st1 -> enabled (heap w1 r) = true ->
       computeNextRun (schedule (heap w1 r)) (clock k)
         = Ok (nextRunAtMs (state (heap w1 r)))) /\
    (forall r, r ∈ jobs st0 ->
       r ∈ jobs st1 /\ heap w1 r = recomputed (clock k) (heap w0 r)).
Proof.
  intros Halloc.
  destruct (start_effect opts uuid w) as (st0 & w0 & Hload & Hk).
  destruct (loadStore_effect (set_running true w))
    as (st0' & w0' & Hload' & Hst0 & _ & _ & _ & Hticks0 & _).
  rewrite Hload in Hload'. injection Hload' as <- <-. simpl in Hticks0.
  assert (Hw0 : allocated w0) by (apply (allocated_loadStore _ _ _ Hload); exact Halloc).
  assert (exists wh sth,
            (if heartbeatEnabled opts then addHeartbeatJob opts uuid else ret tt) w0
              = (Ok tt, wh) /\ store wh = Some sth /\ (ticks w0 <= ticks wh)%nat /\
            (forall r, r ∈ jobs st0 -> r ∈ jobs sth /\ heap wh r = heap w0 r))
    as (wh & sth & Hhb & Hsth & Hticks & Hold).
  { destruct (heartbeatEnabled opts).
    - destruct (addHeartbeatJob_effect opts uuid w0 st0 Hst0 Hw0)
        as (wh & sth & r & Hhb & Hsth & _ & _ & _ & Hold & Hin & _ & _ & _ & _ & _ & Hticks & _).
      exists wh, sth. repeat split; auto.
    - exists w0, st0. unfold ret. repeat split; auto. }
  destruct (Hk wh sth Hhb Hsth) as (w1 & Hrun & Hst1 & _ & _ & Hheap1 & _).
  exists st0, w0, w1, sth, (ticks wh).
  split; [exact Hload|]. split; [exact Hrun|]. split; [exact Hst1|]. split; [lia|]. split.
  - intros r Hr. rewrite Hheap1, bool_decide_eq_true_2 by exact Hr. apply recomputed_next.
  - intros r Hr. destruct (Hold r Hr) as [Hin Heq]. split; [exact Hin|].
    rewrite Hheap1, bool_decide_eq_true_2 by exact Hin. rewrite Heq. reflexivity.
Qed.

(** X8: [status] reports whether the scheduler runs, as many jobs as
    [listJobs] returns (the heartbeat job is not counted), and as next wake
    time the earliest [nextRunAtMs] among the enabled jobs that have one,
    the heartbeat job included; it is undefined exactly when no such job
    exists. *)
Theorem status_spec (w : World) :
  exists s w' st l,
    status w = (Ok s, w') /\ store w' = Some st /\ listJobs w' = (Ok l, w') /\
    running s = _running w /\
    jobCount s = length l /\
    match nextWakeAt s with
    | Some t =>
        (exists r, r ∈ jobs st /\ isPending (heap w' r) = true /\
                   nextRunAtMs (state (heap w' r)) = Some t) /\
        (forall r t', r ∈ jobs st -> isPending (heap w' r) = true ->
                      nextRunAtMs (state (heap w' r)) = Some t' -> t <= t')
    | None => forall r, r ∈ jobs st -> isPending (heap w' r) = false
    end.
Proof.
  destruct (loadStore_effect w) as (st & w0 & Hload & Hst & Hside & _).
  destruct (listJobs_loaded w0 st Hst) as (l & Hlist & Hperm & _).
  exists {| running := _running w0;
            jobCount := length (filter (fun r => strictNeqOpt (id (heap w0 r)) (heartbeatJobId w0))
                                       (jobs st));
            nextWakeAt := nextWakeOf w0 |}, w0, st, l.
  split.
  { unfold status, bind. rewrite Hload. unfold gets. simpl. rewrite getNextWakeMs_eq. reflexivity. }
  split; [exact Hst|]. split; [exact Hlist|]. simpl.
  split; [destruct Hside as (_ & _ & _ & Hr & _); exact Hr|].
  split; [rewrite Hperm; reflexivity|].
  unfold nextWakeOf, pendingTimes. rewrite Hst.
  set (pending := filter (fun r => isPending (heap w0 r)) (jobs st)).
  assert (Htime : forall r, r ∈ pending ->
            nextRunAtMs (state (heap w0 r))
              = Some (default 0 (nextRunAtMs (state (heap w0 r))))).
  { intros r Hr. apply list_elem_of_filter in Hr as [Hp _]. apply Is_true_true in Hp.
    unfold isPending in Hp. apply andb_prop in Hp as [_ Hp].
    destruct (nextRunAtMs (state (heap w0 r))); [reflexivity|discriminate]. }
  destruct (map _ pending) as [|t ts] eqn:Hmap.
  - intros r Hr. destruct (isPending (heap w0 r)) eqn:Hp; [|reflexivity].
    assert (r ∈ pending) as Hin by (apply list_elem_of_filter; split; [rewrite Hp; exact I|exact Hr]).
    apply (AsyncQueueFacts.elem_of_map_2
             (fun r => default 0 (nextRunAtMs (state (heap w0 r))))) in Hin.
    rewrite Hmap in Hin. destruct (not_elem_of_nil _ Hin).
  - split.
    + pose proof (Math_min_elem t ts) as Hin. rewrite <- Hmap in Hin.
      apply AsyncQueueFacts.elem_of_map in Hin as (r & Heq & Hr).
      exists r. pose proof (Htime r Hr) as Ht.
      apply list_elem_of_filter in Hr as [Hp Hr]. apply Is_true_true in Hp.
      split; [exact Hr|]. split; [exact Hp|]. rewrite Heq. exact Ht.
    + intros r t' Hr Hp Ht'. apply Math_min_le. rewrite <- Hmap.
      assert (r ∈ pending) as Hin
          by (apply list_elem_of_filter; split; [rewrite Hp; exact I|exact Hr]).
      apply (AsyncQueueFacts.elem_of_map_2
               (fun r => default 0 (nextRunAtMs (state (heap w0 r))))) in Hin.
      rewrite Ht' in Hin. exact Hin.
Qed.

(** *** Manual runs *)

(** X9: [triggerHeartbeat] hands the heartbeat job to the callback without
    consulting [HEARTBEAT.md], and its outcome is the callback's: what the
    callback throws reaches the caller, and no status is recorded on the
    job.  [runJob] on the same job never throws, and does not invoke the
    callback when the heartbeat file check fails. *)
Theorem triggerHeartbeat_propagates (w : World) (st : JobStore) (hbId : string) (r : ref)
  (cb : ScheduledJob -> Res unit) :
  store w = Some st -> heartbeatJobId w = Some hbId -> hbId <> "" ->
  find (fun r => String.eqb (id (heap w r)) hbId) (jobs st) = Some r ->
  onJob = Some cb ->
  triggerHeartbeat w = (cb (heap w r), set_calls (calls w ++ [heap w r]) w) /\
  exists w2,
    runJob hbId w = (Ok tt, w2) /\
    (gated w (heap w r) = true ->
     calls w2 = calls w /\ lastStatus (state (heap w2 r)) = Some "skipped").
Proof.
  intros Hst Hhb Hne Hfind Hcb. split.
  - unfold triggerHeartbeat, bind, gets. rewrite Hhb. simpl.
    apply truthyStr_true in Hne. rewrite Hne.
    rewrite (loadStore_cached w st Hst). rewrite Hfind, Hcb. reflexivity.
  - unfold runJob, bind at 1. rewrite (loadStore_cached w st Hst).
    unfold bind at 1, gets at 1. rewrite Hfind.
    destruct (executeJob_effect w r) as (w1 & Hrun & _ & _ & _ & _ & _ & Hcases).
    destruct (saveStore_effect w1) as (w2 & Hsave & Hheap2 & _ & Hcalls2 & _).
    destruct (armTimer_frame w2) as (w3 & Harm & Hheap3 & _ & Hcalls3 & _).
    exists w3. unfold bind. rewrite Hrun, Hsave, Harm. split; [reflexivity|].
    intros Hg. rewrite Hg in Hcases. destruct Hcases as (Hstatus & _ & Hcalls & _).
    split; [congruence|]. rewrite Hheap3, Hheap2. exact Hstatus.
Qed.

(** *** A store file with a malformed entry *)

Lemma parseJob_lacksSchedule j : lacksSchedule j = true -> exists e, parseJob j = Throw e.
Proof.
  unfold lacksSchedule, parseJob. destruct j as [| | | | |fs]; intros Hbad; simpl; eauto.
  destruct (lookupField "schedule" fs) as [[| | | | |]|]; try discriminate; simpl; eauto.
Qed.

Lemma mapRes_throws {A B} (f : A -> Res B) (xs : list A) x :
  x ∈ xs -> (exists e, f x = Throw e) -> exists e, mapRes f xs = Throw e.
Proof.
  induction xs as [|a xs IH]; intros Hx Hf; [destruct (not_elem_of_nil _ Hx)|].
  simpl. destruct (f a) as [b|e] eqn:Ha; simpl; [|eauto].
  apply elem_of_cons in Hx as [->|Hx]; [destruct Hf as [e He]; congruence|].
  destruct (IH Hx Hf) as [e ->]. simpl. eauto.
Qed.

(** X10: when one entry of the [jobs] array of the store file is not an
    object or has no [schedule], loading does not throw but gives the empty
    store: the well-formed entries of the file are dropped with it, and
    [start] then rewrites the file with an empty job list. *)
Theorem loadStore_malformed_entry (env : World) (fs : list (string * Json))
  (items : list Json) (bad : Json) (opts : Options) (uuid : string) :
  storeFile env = JsonDoc (JObj fs) ->
  lookupField "jobs" fs = Some (JArr items) ->
  bad ∈ items -> lacksSchedule bad = true ->
  loadStore (newScheduler env) = (Ok createStore, set_store (Some createStore) (newScheduler env)) /\
  exists w1,
    start opts uuid (newScheduler env) = (Ok tt, w1) /\
    storeFile w1 = JsonDoc (storeToJson 1 []).
Proof.
  intros Hfile Hjobs Hin Hbad.
  assert (Hparse : exists e, parseStore (JObj fs) = Throw e).
  { unfold parseStore. simpl. rewrite Hjobs. simpl.
    destruct (mapRes_throws parseJob items bad Hin (parseJob_lacksSchedule bad Hbad)) as [e ->].
    simpl. eauto. }
  destruct Hparse as [e Hparse].
  assert (Hload : forall v : World,
            store v = None -> storeFile v = JsonDoc (JObj fs) ->
            loadStore v = (Ok createStore, set_store (Some createStore) v)).
  { intros v Hs Hf. unfold loadStore, bind, gets. rewrite Hs. simpl. rewrite Hf, Hparse.
    reflexivity. }
  split; [apply Hload; [reflexivity|exact Hfile]|].
  destruct (start_effect opts uuid (newScheduler env)) as (st0 & w0 & Hload0 & Hk).
  rewrite (Hload (set_running true (newScheduler env)) eq_refl Hfile) in Hload0.
  injection Hload0 as <- <-.
  set (w0 := set_store (Some createStore) (set_running true (newScheduler env))) in *.
  destruct (heartbeatEnabled opts) eqn:Hen.
  - assert (Hw0 : allocated w0).
    { intros st [= <-]. split; [apply NoDup_nil_2|apply Forall_nil_2]. }
    destruct (addHeartbeatJob_effect opts uuid w0 createStore eq_refl Hw0)
      as (wh & sth & r & Hhb & Hsth & Hv & _ & Hid & _ & _ & _ & _ & _ & _ & _ & _ & Hjobs').
    destruct (Hk wh sth Hhb Hsth) as (w1 & Hrun & _ & Hhb1 & _ & Hheap1 & Hfile1).
    exists w1. split; [exact Hrun|]. rewrite Hfile1, Hv. simpl.
    assert (Hidr : id (heap w1 r) = id (heap wh r)).
    { rewrite Hheap1. destruct (bool_decide (r ∈ jobs sth)); [|reflexivity].
      destruct (recomputed_same (clock (ticks wh)) (heap wh r)) as ((-> & _) & _).
      reflexivity. }
    assert (filter (fun r0 => strictNeqOpt (id (heap w1 r0)) (heartbeatJobId w1)) (jobs sth) = [])
      as ->; [|reflexivity].
    destruct Hjobs' as [->| ->]; simpl; [reflexivity|].
    rewrite filter_cons_False; [reflexivity|].
    rewrite Hhb1, Hid, Hidr. simpl. rewrite String.eqb_refl. simpl. tauto.
  - destruct (Hk w0 createStore eq_refl eq_refl) as (w1 & Hrun & _ & _ & _ & _ & Hfile1).
    exists w1. split; [exact Hrun|]. rewrite Hfile1. reflexivity.
Qed.

End SchedulerApiFacts.

(** *** Recurring schedules *)

Section EveryFacts.

Context `{Collaborators}.

(** X11: for a schedule of kind "every", the next run is the sum of the
    current time and [everyMs] when [everyMs] is positive, and undefined
    when it is missing, zero or negative; a returned time is never before
    the current time (no more is stated, since a sum of floating-point
    numbers can round back to the current time).  A schedule of a kind
    other than "at", "every" and "cron", or of kind "cron" without
    expression, has no next run. *)
Theorem computeNextRun_every_spec (schedule : Schedule) (t : Z) :
  (kind schedule = "every" ->
   (forall e, everyMs schedule = Some e -> 0 < e ->
              computeNextRun schedule t = Ok (Some (t + e))) /\
   (forall e, everyMs schedule = Some e -> e <= 0 -> computeNextRun schedule t = Ok None) /\
   (everyMs schedule = None -> computeNextRun schedule t = Ok None) /\
   (forall r, computeNextRun schedule t = Ok (Some r) -> t <= r)) /\
  (kind schedule <> "at" -> kind schedule <> "every" ->
   kind schedule <> "cron" \/ expr schedule = None \/ expr schedule = Some "" ->
   computeNextRun schedule t = Ok None).
Proof.
  split.
  - intros Hk. unfold computeNextRun. rewrite Hk. simpl.
    split; [|split; [|split]].
    + intros e -> He. assert (truthyNum e = true) as -> by (apply truthyNum_true; lia).
      assert ((e <=? 0) = false) as -> by (apply Z.leb_gt; lia). reflexivity.
    + intros e -> He. assert ((e <=? 0) = true) as -> by (apply Z.leb_le; lia).
      rewrite orb_true_r. reflexivity.
    + intros ->. reflexivity.
    + intros r. destruct (everyMs schedule) as [e|]; [|discriminate].
      destruct (negb (truthyNum e) || (e <=? 0)) eqn:Hc; [discriminate|].
      intros [= <-]. apply orb_false_elim in Hc as [_ Hc]. apply Z.leb_gt in Hc. lia.
  - intros Hat Hev Hcron. unfold computeNextRun.
    apply String.eqb_neq in Hat, Hev. rewrite Hat, Hev.
    destruct Hcron as [Hc|[He|He]].
    + apply String.eqb_neq in Hc. rewrite Hc. reflexivity.
    + rewrite He. simpl. rewrite andb_false_r. reflexivity.
    + rewrite He. simpl. rewrite andb_false_r. reflexivity.
Qed.

End EveryFacts.

(** *** Cases of the interface *)

Module SchedulerCaseFacts.

Import Scenario SchedulerCases.

Lemma allocated_failing : allocated failing.
Proof.
  intros st [= <-]. split; [|repeat constructor].
  apply NoDup_cons. split; [|apply NoDup_singleton].
  intros Hin. apply list_elem_of_singleton in Hin. discriminate.
Defined.

(** Adding a job to a store of two. *)
Lemma addJob_stored_and_listed_witness :
  allocated failing /\
  exists r w',
    addJob uuid1 everySecond failing = (Ok r, w') /\
    store w' = Some {| version := 1; jobs := [0%nat; 1%nat; r] |} /\
    id (heap w' r) = "3f2b8c1d" /\
    exists l, listJobs w' = (Ok l, w') /\ r ∈ l.
Proof.
  split; [exact allocated_failing|].
  destruct (addJob_stored_and_listed failing uuid1 everySecond allocated_failing)
    as (st0 & w0 & r & w' & next & Hload & Hrun & _ & _ & Hstore & Hjob & _ & _ & l & Hlist & Hin).
  injection Hload as <- <-.
  exists r, w'. split; [exact Hrun|]. split; [exact Hstore|].
  split; [rewrite Hjob; reflexivity|]. exists l. split; [exact Hlist|].
  apply Hin. reflexivity.
Defined.

(** A session on a new scheduler. *)
Lemma scheduler_timer_always_armed_witness :
  timers freshEnv = [] /\
  armed (runOps session (newScheduler freshEnv)) /\
  (length (timers (runOps session (newScheduler freshEnv))) <= 1)%nat.
Proof.
  split; [reflexivity|].
  destruct (scheduler_timer_always_armed freshEnv session eq_refl) as (Ha & Hlen & _).
  split; [exact Ha|exact Hlen].
Defined.

Lemma stop_silences_witness :
  timers freshEnv = [] /\
  forallb (fun op => negb (isStart op)) [OpAddJob uuid2 everySecond; OpFireTimer 0%nat] = true /\
  timers (runOps ([OpStart heartbeatOn uuid1] ++
                  OpStop :: [OpAddJob uuid2 everySecond; OpFireTimer 0%nat])
            (newScheduler freshEnv)) = [].
Proof.
  split; [reflexivity|]. split; [reflexivity|].
  destruct (stop_silences freshEnv [OpStart heartbeatOn uuid1]
              [OpAddJob uuid2 everySecond; OpFireTimer 0%nat] eq_refl eq_refl)
    as (_ & Hts & _).
  exact Hts.
Defined.

Lemma allocated_fresh_scheduler : allocated (newScheduler freshEnv).
Proof. intros st [=]. Defined.

Lemma start_heartbeat_once_witness :
  allocated (newScheduler freshEnv) /\ heartbeatEnabled heartbeatOn = true /\
  exists w1 st1 w2,
    start heartbeatOn uuid1 (newScheduler freshEnv) = (Ok tt, w1) /\
    store w1 = Some st1 /\
    start heartbeatOn uuid2 w1 = (Ok tt, w2) /\ store w2 = Some st1.
Proof.
  split; [exact allocated_fresh_scheduler|]. split; [reflexivity|].
  destruct (start_heartbeat_once (newScheduler freshEnv) heartbeatOn uuid1 uuid2
              allocated_fresh_scheduler eq_refl)
    as (w1 & st1 & r & Hrun & Hst & _ & _ & _ & _ & w2 & Hrun2 & Hst2 & _).
  exists w1, st1, w2. auto.
Defined.

Lemma start_recomputes_witness :
  allocated (newScheduler damagedEnv) /\
  exists w1 st1,
    start heartbeatOff uuid1 (newScheduler damagedEnv) = (Ok tt, w1) /\
    store w1 = Some st1.
Proof.
  assert (Ha : allocated (newScheduler damagedEnv)) by (intros st [=]).
  split; [exact Ha|].
  destruct (start_recomputes (newScheduler damagedEnv) heartbeatOff uuid1 Ha)
    as (st0 & w0 & w1 & st1 & k & _ & Hrun & Hst & _).
  exists w1, st1. auto.
Defined.

(** The heartbeat job, forced while [HEARTBEAT.md] is absent. *)
Lemma triggerHeartbeat_propagates_witness :
  store withHeartbeat = Some (mkJobStore 1 [0%nat; 1%nat]) /\
  heartbeatJobId withHeartbeat = Some "heartbeat-1" /\
  "heartbeat-1" <> "" /\
  calls (snd (triggerHeartbeat withHeartbeat)) = [heap withHeartbeat 0%nat] /\
  exists w2, runJob "heartbeat-1" withHeartbeat = (Ok tt, w2) /\ calls w2 = [].
Proof.
  assert (Hne : "heartbeat-1" <> "") by discriminate.
  split; [reflexivity|]. split; [reflexivity|]. split; [exact Hne|].
  destruct (triggerHeartbeat_propagates (H := demo) withHeartbeat
              (mkJobStore 1 [0%nat; 1%nat]) "heartbeat-1" 0%nat _
              eq_refl eq_refl Hne eq_refl eq_refl)
    as (Htrigger & w2 & Hrun & Hgated).
  split; [rewrite Htrigger; reflexivity|].
  exists w2. split; [exact Hrun|]. destruct (Hgated eq_refl) as [Hc _]. exact Hc.
Defined.

(** A store file with one entry that has no schedule. *)
Lemma loadStore_malformed_entry_witness :
  lacksSchedule badEntry = true /\ lacksSchedule goodEntry = false /\
  fst (loadStore (newScheduler damagedEnv)) = Ok createStore /\
  exists w1,
    start heartbeatOn uuid1 (newScheduler damagedEnv) = (Ok tt, w1) /\
    storeFile w1 = JsonDoc (storeToJson 1 []).
Proof.
  split; [reflexivity|]. split; [reflexivity|].
  assert (Hin : badEntry ∈ [goodEntry; badEntry]).
  { apply elem_of_cons. right. apply elem_of_cons. left. reflexivity. }
  destruct (loadStore_malformed_entry damagedEnv _ _ badEntry heartbeatOn uuid1
              eq_refl eq_refl Hin eq_refl) as (Hload & Hstart).
  split; [rewrite Hload; reflexivity|exact Hstart].
Defined.

(** The entries of a store file, one by one, and a session. *)
Example parseJob_good : exists j, parseJob goodEntry = Ok j /\ id j = "a1".
Proof. eexists. split; reflexivity. Qed.

Example session_timer :
  timers (runOps session (newScheduler freshEnv)) = [(2%nat, 997)].
Proof. vm_compute. reflexivity. Qed.

End SchedulerCaseFacts.

(** ** The asynchronous queue: who is served first *)

Module QueueOrderFacts.

Import AsyncQueue.

Local Open Scope nat_scope.
Local Open Scope list_scope.

Section Order.

Context {T : Type}.


End Order.

End QueueOrderFacts.

(** ** The message bus: subscriptions and the dispatcher *)

Module BusFacts.

Import Subagent Bus.

Local Open Scope nat_scope.
Local Open Scope list_scope.

Lemma subscribersOf_subscribe (channel c : string) (callback : Callback) (b : MessageBus) :
  subscribersOf (subscribeOutbound channel callback b) c =
  if bool_decide (channel = c) then subscribersOf b c ++ [callback]
  else subscribersOf b c.
Proof.
  unfold subscribersOf, subscribeOutbound. simpl.
  case_bool_decide as Hc.
  - subst c. rewrite lookup_insert_eq. reflexivity.
  - rewrite lookup_insert_ne by exact Hc. reflexivity.
Qed.

Lemma subscribersOf_subscribeAll (subs : list (string * Callback)) (c : string)
  (b : MessageBus) :
  subscribersOf (subscribeAll subs b) c =
  subscribersOf b c ++ map snd (filter (fun s => fst s = c) subs).
Proof.
  revert b. induction subs as [|[channel callback] subs IH]; intros b.
  - simpl. rewrite app_nil_r. reflexivity.
  - unfold subscribeAll in *. simpl. rewrite IH, subscribersOf_subscribe.
    simpl. case_bool_decide as Hc.
    + rewrite filter_cons_True by exact Hc. simpl. rewrite <- app_assoc. reflexivity.
    + rewrite filter_cons_False by exact Hc. reflexivity.
Qed.

Lemma subscribeAll_frame (subs : list (string * Callback)) (b : MessageBus) :
  inbound (subscribeAll subs b) = inbound b /\
  outbound (subscribeAll subs b) = outbound b /\
  bus_running (subscribeAll subs b) = bus_running b /\
  notified (subscribeAll subs b) = notified b.
Proof.
  revert b. induction subs as [|s subs IH]; intros b; [auto|].
  unfold subscribeAll in *. simpl. destruct (IH (subscribeOutbound s.1 s.2 b)) as (-> & -> & -> & ->).
  auto.
Qed.

Lemma publishAll_buffer (msgs : list OutboundMessage) (b : MessageBus) :
  AsyncQueue.resolvers (outbound b) = [] ->
  AsyncQueue.queue (outbound (publishAll msgs b)) = AsyncQueue.queue (outbound b) ++ msgs /\
  AsyncQueue.resolvers (outbound (publishAll msgs b)) = [] /\
  AsyncQueue.nextPromise (outbound (publishAll msgs b)) = AsyncQueue.nextPromise (outbound b) /\
  inbound (publishAll msgs b) = inbound b /\
  outboundSubscribers (publishAll msgs b) = outboundSubscribers b /\
  bus_running (publishAll msgs b) = bus_running b /\
  notified (publishAll msgs b) = notified b.
Proof.
  revert b. induction msgs as [|m msgs IH]; intros b Hrs.
  - simpl. rewrite app_nil_r. auto 10.
  - unfold publishAll in *. simpl.
    assert (Hp : AsyncQueue.push m (outbound b) =
                 (AsyncQueue.mkState _ (AsyncQueue.queue (outbound b) ++ [m]) []
                    (AsyncQueue.timers (outbound b)) (AsyncQueue.resolved (outbound b))
                    (AsyncQueue.nextPromise (outbound b)) (AsyncQueue.nextTimer (outbound b)),
                  AsyncQueue.Buffered)).
    { unfold AsyncQueue.push. rewrite Hrs. reflexivity. }
    destruct (IH (publishOutbound m b)) as (Hq & Hr & Hn & Hi & Hs & Hrun & Hnot).
    { unfold publishOutbound. simpl. rewrite Hp. reflexivity. }
    rewrite Hq, Hr, Hn, Hi, Hs, Hrun, Hnot. unfold publishOutbound. simpl. rewrite Hp. simpl.
    rewrite <- app_assoc. auto 10.
Qed.

Section Dispatcher.

Variable behaviour : Callback -> OutboundMessage -> Res unit.

Lemma notifyAll_effect (subscribers : list Callback) (msg : OutboundMessage)
  (b : MessageBus) :
  notifyAll behaviour subscribers msg b =
  (Ok tt,
   mkMessageBus (inbound b) (outbound b) (outboundSubscribers b) (bus_running b)
     (notified b ++ map (fun callback => (callback, msg)) subscribers)).
Proof.
  revert b. induction subscribers as [|callback rest IH]; intros b.
  - simpl. rewrite app_nil_r. destruct b; reflexivity.
  - simpl. unfold call. destruct (behaviour callback msg); rewrite IH; simpl;
      rewrite <- app_assoc; reflexivity.
Qed.

Lemma dispatchLoop_buffered (fuel : nat) (b : MessageBus) :
  bus_running b = true ->
  length (AsyncQueue.queue (outbound b)) < fuel ->
  exists b',
    dispatchLoop behaviour fuel b = (Awaiting (AsyncQueue.nextPromise (outbound b)), b') /\
    notified b' = notified b ++ flat_map (callsFor b) (AsyncQueue.queue (outbound b)) /\
    AsyncQueue.queue (outbound b') = [] /\
    outboundSubscribers b' = outboundSubscribers b /\
    inbound b' = inbound b /\
    bus_running b' = true.
Proof.
  revert b. induction fuel as [|fuel IH]; intros b Hrun Hlen; [lia|].
  simpl. rewrite Hrun. unfold consumeOutboundWithTimeout, AsyncQueue.popWithTimeout.
  destruct (AsyncQueue.queue (outbound b)) as [|m q] eqn:Hq.
  - eexists. split; [reflexivity|]. simpl. rewrite app_nil_r. auto.
  - simpl in Hlen. unfold dispatchOne. rewrite notifyAll_effect. simpl.
    match goal with |- context [dispatchLoop behaviour fuel ?b1] => set (b2 := b1) end.
    destruct (IH b2) as (b' & Hloop & Hnot & Hq' & Hsubs & Hin & Hrun').
    { exact Hrun. }
    { simpl. lia. }
    exists b'. split; [exact Hloop|]. rewrite Hnot. simpl.
    rewrite <- app_assoc. auto.
Qed.

End Dispatcher.

(** X13: messages published while no consumer waits are buffered, and the
    dispatcher then takes them in the order of publication and calls, for
    each, the callbacks subscribed to its channel in the order they
    subscribed (a callback subscribed twice is called twice).  A callback
    that throws stops neither the others nor the loop; a message for a
    channel nobody subscribed to is consumed and lost.  The dispatcher ends
    up waiting on an empty buffer. *)
Theorem dispatch_delivers_in_order (behaviour : Callback -> OutboundMessage -> Res unit)
  (subs : list (string * Callback)) (msgs : list OutboundMessage) (b : MessageBus)
  (fuel : nat) :
  AsyncQueue.resolvers (outbound b) = [] ->
  length (AsyncQueue.queue (outbound b)) + length msgs < fuel ->
  exists p b',
    dispatchOutbound behaviour fuel (publishAll msgs (subscribeAll subs b)) =
      (Awaiting p, b') /\
    notified b' =
      notified b ++
      flat_map (fun m => map (fun callback => (callback, m))
                           (subscribersOf b (out_channel m) ++
                            map snd (filter (fun s => fst s = out_channel m) subs)))
               (AsyncQueue.queue (outbound b) ++ msgs) /\
    outboundSize b' = 0 /\
    inbound b' = inbound b /\
    bus_running b' = true.
Proof.
  intros Hrs Hlen.
  destruct (subscribeAll_frame subs b) as (Hi & Ho & Hr & Hn).
  destruct (publishAll_buffer msgs (subscribeAll subs b)) as
    (Hq & Hr' & Hp & Hi' & Hs' & Hrun' & Hn').
  { rewrite Ho. exact Hrs. }
  set (b1 := publishAll msgs (subscribeAll subs b)) in *.
  unfold dispatchOutbound.
  match goal with |- context [dispatchLoop behaviour fuel ?x] => set (b2 := x) end.
  destruct (dispatchLoop_buffered behaviour fuel b2) as
    (b' & Hloop & Hnot & Hq' & Hsubs & Hin & Hrun).
  { reflexivity. }
  { simpl. rewrite Hq, Ho, length_app. exact Hlen. }
  exists (AsyncQueue.nextPromise (outbound b2)), b'.
  split; [exact Hloop|]. split.
  - rewrite Hnot. simpl. rewrite Hn', Hn, Hq, Ho. f_equal.
    apply flat_map_ext. intros m. unfold callsFor, subscribersOf at 1. simpl.
    rewrite Hs'. fold (subscribersOf (subscribeAll subs b) (out_channel m)).
    rewrite subscribersOf_subscribeAll. reflexivity.
  - unfold outboundSize. rewrite Hq', Hin. simpl. rewrite Hi', Hi. auto.
Qed.

(** X14: [stop()] takes effect only at the next test of the dispatcher's
    loop: the message the dispatcher is waiting for when [stop()] is called
    is still passed to the subscribers of its channel, after which the loop
    returns and what is in the buffer stays there.  A [stop()] made before
    [dispatchOutbound()] has no effect, as that call sets the flag again. *)
Theorem stop_ends_dispatch (behaviour : Callback -> OutboundMessage -> Res unit)
  (b : MessageBus) (fuel : nat) (msg : option OutboundMessage) :
  (exists b',
     dispatchResume behaviour (S fuel) msg (stop b) = (Returned, b') /\
     notified b' = notified b ++
                   match msg with Some m => callsFor b m | None => [] end /\
     outbound b' = outbound b /\ inbound b' = inbound b /\
     bus_running b' = false) /\
  dispatchOutbound behaviour fuel (stop b) = dispatchOutbound behaviour fuel b.
Proof.
  split; [|reflexivity].
  unfold dispatchResume, dispatchOne. destruct msg as [m|].
  - rewrite notifyAll_effect. simpl. eexists. split; [reflexivity|]. simpl. auto.
  - simpl. eexists. split; [reflexivity|]. simpl. rewrite app_nil_r. auto.
Qed.

Lemma colon_split (a b c d : string) :
  Str.includesChar ":" a = false ->
  Str.includesChar ":" c = false ->
  (a ++ ":" ++ b)%string = (c ++ ":" ++ d)%string ->
  a = c /\ b = d.
Proof.
  revert c. induction a as [|x a IH]; intros c Ha Hc Heq.
  - destruct c as [|y c].
    + change (String ":" b = String ":" d) in Heq. split; [reflexivity|congruence].
    + change (String ":" b = String y (c ++ ":" ++ d)%string) in Heq.
      injection Heq as Hy Heq. subst y. simpl in Hc. discriminate.
  - destruct c as [|y c].
    + change (String x (a ++ ":" ++ b)%string = String ":" d) in Heq.
      injection Heq as Hx Heq. subst x. simpl in Ha. discriminate.
    + change (String x (a ++ ":" ++ b)%string = String y (c ++ ":" ++ d)%string) in Heq.
      injection Heq as Hx Heq. subst y. simpl in Ha, Hc.
      apply orb_false_iff in Ha as [_ Ha]. apply orb_false_iff in Hc as [_ Hc].
      destruct (IH c Ha Hc Heq) as [-> ->]. auto.
Qed.

(** X15: two inbound messages whose channel names hold no colon have the
    same session key only if they have the same channel and the same chat
    id; chat ids may hold colons.  Without the condition on channel names
    the key does not tell conversations apart. *)
Theorem getSessionKey_injective (m1 m2 : InboundMessage) :
  hasColon (channel m1) = false ->
  hasColon (channel m2) = false ->
  getSessionKey m1 = getSessionKey m2 ->
  channel m1 = channel m2 /\ chatId m1 = chatId m2.
Proof.
  unfold hasColon, getSessionKey. intros H1 H2 Heq.
  exact (colon_split _ _ _ _ H1 H2 Heq).
Qed.

End BusFacts.

(** ** Channels: who may talk to the bot *)

Module ChannelFacts.

Import Subagent Channel.

Local Open Scope nat_scope.
Local Open Scope list_scope.

Lemma arrayIncludes_elem (xs : list string) (x : string) :
  Str.arrayIncludes xs x = true <-> x ∈ xs.
Proof.
  unfold Str.arrayIncludes. rewrite existsb_exists. split.
  - intros (y & Hy & Heq). apply String.eqb_eq in Heq. subst y.
    apply list_elem_of_In. exact Hy.
  - intros Hx. exists x. split; [apply list_elem_of_In; exact Hx|apply String.eqb_refl].
Qed.

Lemma splitChar_no_separator (c : ascii) (s : string) :
  Str.includesChar c s = false -> Str.splitChar c s = [s].
Proof.
  induction s as [|a s IH]; simpl; [reflexivity|].
  intros H. apply orb_false_iff in H as [Ha Hs]. rewrite Ha, (IH Hs). reflexivity.
Qed.

Lemma truthyStr_ne (s : string) : truthyStr s = true <-> s <> "".
Proof.
  unfold truthyStr. rewrite negb_true_iff. split.
  - intros H ->. discriminate.
  - intros H. apply String.eqb_neq. exact H.
Qed.

Lemma isAllowed_admits (allowFrom : option (list string)) (senderId : string) :
  isAllowed allowFrom senderId = true <->
  default [] allowFrom = [] \/ admits (default [] allowFrom) senderId.
Proof.
  unfold isAllowed, admits. destruct (default [] allowFrom) as [|a l]; [simpl; tauto|].
  assert (Hcons : a :: l <> []) by discriminate.
  change (length (a :: l) =? 0) with false. cbv iota.
  revert Hcons. generalize (a :: l). intros allowList Hcons.
  destruct (Str.arrayIncludes allowList senderId) eqn:Hdirect.
  - apply arrayIncludes_elem in Hdirect. tauto.
  - assert (Hnot : ~ senderId ∈ allowList).
    { intros H. apply arrayIncludes_elem in H. congruence. }
    destruct (Str.includesChar "|" senderId) eqn:Hpipe.
    + rewrite existsb_exists. split.
      * intros (part & Hin & Hp). apply andb_true_iff in Hp as [Ht Hp].
        right. right. exists part. split; [apply list_elem_of_In; exact Hin|].
        split; [apply truthyStr_ne; exact Ht|apply arrayIncludes_elem; exact Hp].
      * intros [Hnil|[Hin|(part & Hin & Hne & Hp)]]; [tauto|tauto|].
        exists part. split; [apply list_elem_of_In; exact Hin|].
        apply andb_true_iff. split; [apply truthyStr_ne; exact Hne|].
        apply arrayIncludes_elem. exact Hp.
    + split; [discriminate|].
      intros [Hnil|[Hin|(part & Hin & Hne & Hp)]]; [tauto|tauto|].
      rewrite (splitChar_no_separator _ _ Hpipe) in Hin.
      apply list_elem_of_singleton in Hin. subst part. tauto.
Qed.

(** X16: a channel passes a message on to the agent exactly when its allow
    list is missing or empty, or holds the sender id, or holds one of the
    non-empty parts of the sender id between vertical bars.  It then
    publishes one inbound message with the channel's name, the sender, the
    chat, the content and the media (none when not given); otherwise the
    bus stays as it was and the message is dropped without an answer. *)
Theorem handleMessage_gate (name : string) (allowFrom : option (list string)) (now : Z)
  (senderId chatId content : string) (media : option (list string))
  (bus : Bus.MessageBus) :
  let allowList := default [] allowFrom in
  (allowList = [] \/ admits allowList senderId ->
   handleMessage name allowFrom now senderId chatId content media bus =
   Bus.publishInbound
     {| channel := name; senderId := senderId; chatId := chatId; content := content;
        timestamp := now; media := default [] media |} bus) /\
  (allowList <> [] -> ~ admits allowList senderId ->
   handleMessage name allowFrom now senderId chatId content media bus = bus).
Proof.
  cbv zeta. unfold handleMessage. split.
  - intros H. apply isAllowed_admits in H. rewrite H. reflexivity.
  - intros Hne Hno.
    destruct (isAllowed allowFrom senderId) eqn:Hallowed; [|reflexivity].
    apply isAllowed_admits in Hallowed. tauto.
Qed.

End ChannelFacts.

(** ** The tool registry *)

Module ToolRegistryFacts.

Import ToolRegistry.

Local Open Scope list_scope.

Section RegistryFacts.

Variables (Params Env : Type).

#[local] Abbreviation Tool := (ToolRegistry.Tool Params Env).
#[local] Abbreviation Registry := (gmap string Tool).

Lemma lookup_history (history : list (Change Params Env)) (name : string)
  (tools : Registry) :
  fold_left (apply Params Env) history tools !! name =
  lastRegistered Params Env name history (tools !! name).
Proof.
  revert tools. induction history as [|c history IH]; intros tools; [reflexivity|].
  simpl. rewrite IH. destruct c as [tool|n]; simpl.
  - unfold register, ToolRegistry.Registry.
    destruct (String.eqb_spec (tool_name Params Env tool) name) as [Heq|Hne].
    + subst name. rewrite lookup_insert_eq. reflexivity.
    + rewrite lookup_insert_ne by exact Hne. reflexivity.
  - unfold unregister, ToolRegistry.Registry.
    destruct (String.eqb_spec n name) as [Heq|Hne].
    + subst name. rewrite lookup_delete_eq. reflexivity.
    + rewrite lookup_delete_ne by exact Hne. reflexivity.
Qed.

Lemma lastRegistered_name (history : list (Change Params Env)) (name : string)
  (known : option Tool) (tool : Tool) :
  (forall t, known = Some t -> tool_name Params Env t = name) ->
  lastRegistered Params Env name history known = Some tool ->
  tool_name Params Env tool = name.
Proof.
  revert known. induction history as [|c history IH]; intros known Hknown Hlast.
  - exact (Hknown _ Hlast).
  - destruct c as [t|n]; simpl in Hlast; apply (IH _) in Hlast; try exact Hlast.
    + destruct (String.eqb_spec (tool_name Params Env t) name) as [Heq|Hne].
      * intros t' [= <-]. exact Heq.
      * exact Hknown.
    + destruct (String.eqb n name); [discriminate|exact Hknown].
Qed.

(** X17: after any series of [register] and [unregister] calls on a new
    registry, [execute(name, params)] runs the tool that was registered
    last under that name and not unregistered since, and no other tool; it
    never throws: what the tool throws becomes the text
    "Error executing <name>: <error>", and a name with no tool gives
    "Error: Tool '<name>' not found" and leaves the environment as it
    was. *)
Theorem execute_after_history (history : list (Change Params Env)) (name : string)
  (params : Params) (e : Env) :
  let tools := fold_left (apply Params Env) history (newRegistry Params Env) in
  let known := lastRegistered Params Env name history None in
  get Params Env name tools = known /\
  (has Params Env name tools = true <-> is_Some known) /\
  (forall tool, known = Some tool -> tool_name Params Env tool = name) /\
  match known with
  | None =>
      execute Params Env tools name params e =
      (Ok ("Error: Tool '" ++ name ++ "' not found")%string, e)
  | Some tool =>
      match tool_execute Params Env tool params e with
      | (Ok text, e') => execute Params Env tools name params e = (Ok text, e')
      | (Throw error, e') =>
          execute Params Env tools name params e =
          (Ok ("Error executing " ++ name ++ ": " ++ String_ error)%string, e')
      end
  end.
Proof.
  cbv zeta.
  assert (Hget : fold_left (apply Params Env) history (newRegistry Params Env) !! name =
                 lastRegistered Params Env name history None).
  { rewrite lookup_history. unfold newRegistry, ToolRegistry.Registry.
    rewrite lookup_empty. reflexivity. }
  split; [exact Hget|]. split; [|split].
  - unfold has. rewrite Hget.
    destruct (lastRegistered Params Env name history None); split;
      [eauto|reflexivity|discriminate|intros [? [=]]].
  - intros tool Hlast. apply (lastRegistered_name history name None tool); [|exact Hlast].
    intros t [=].
  - unfold execute. rewrite Hget.
    destruct (lastRegistered Params Env name history None) as [tool|]; [|reflexivity].
    destruct (tool_execute Params Env tool params e) as [[text|error] e']; reflexivity.
Qed.

End RegistryFacts.

End ToolRegistryFacts.

(** ** Spawning a subagent and hearing from it *)

Module SpawnFacts.

Import Subagent Spawn.

Local Open Scope nat_scope.
Local Open Scope list_scope.

Lemma take_length (n : nat) (s : string) :
  String.length (Str.take n s) = Nat.min n (String.length s).
Proof.
  revert s. induction n as [|n IH]; intros [|a s]; simpl; try reflexivity.
  rewrite IH. reflexivity.
Qed.

Lemma take_all (n : nat) (s : string) :
  String.length s <= n -> Str.take n s = s.
Proof.
  revert s. induction n as [|n IH]; intros [|a s] Hlen; simpl in *; try reflexivity; [lia|].
  rewrite IH by lia. reflexivity.
Qed.

Lemma length_append (s t : string) :
  String.length (s ++ t) = String.length s + String.length t.
Proof.
  induction s as [|a s IH]; [reflexivity|].
  change (S (String.length (s ++ t)) = S (String.length s + String.length t)).
  rewrite IH. reflexivity.
Qed.

Lemma displayLabel_short (options : SpawnOptions) :
  truthyOptStr (label options) = false ->
  String.length (displayLabel options) <= 33 /\
  (String.length (task options) <= 30 -> displayLabel options = task options).
Proof.
  intros Hno. unfold displayLabel. rewrite Hno. split.
  - rewrite length_append, take_length.
    pose proof (Nat.le_min_l 30 (String.length (task options))) as Hmin.
    destruct (30 <? String.length (task options));
      [change (String.length "...") with 3|change (String.length "") with 0]; lia.
  - intros Hlen. rewrite take_all by exact Hlen.
    destruct (Nat.ltb_spec 30 (String.length (task options))) as [Hlt|_]; [lia|].
    generalize (task options). intros s. induction s as [|a s IH]; [reflexivity|].
    change (String a (s ++ "") = String a s). rewrite IH. reflexivity.
Qed.

Section RunFacts.

Variables (Args Env : Type).
Variable provider_chat : list (CoreMessage Args) -> Res (LLMResponse Args).
Variable hasToolCalls : LLMResponse Args -> bool.
Variable tools_execute : string -> Args -> Env -> string * Env.
Variable buildSubagentPrompt : string -> string.

#[local] Abbreviation settleWith :=
  (settle Args Env provider_chat hasToolCalls tools_execute buildSubagentPrompt).


End RunFacts.

End SpawnFacts.

(** ** The file edit tool *)

Module FsToolsFacts.

Import FsTools.

#[local] Arguments String.append : simpl nomatch.

Local Open Scope nat_scope.

Lemma firstOccurrence_decomp (pat s before after : string) :
  Str.firstOccurrence pat s = Some (before, after) ->
  s = (before ++ pat ++ after)%string.
Proof.
  revert before. induction s as [|a s IH]; intros before; simpl.
  - destruct (Heartbeat.startsWith "" pat) eqn:Hs; [|discriminate].
    intros [= <- <-]. apply HeartbeatFacts.startsWith_iff in Hs as [rest Hrest].
    destruct pat; [reflexivity|discriminate].
  - destruct (Heartbeat.startsWith (String a s) pat) eqn:Hs.
    + intros [= <- <-]. apply HeartbeatFacts.startsWith_iff in Hs as [rest Hrest].
      rewrite Hrest. simpl. f_equal. clear. induction pat as [|c pat IHp]; simpl; [reflexivity|].
      exact IHp.
    + destruct (Str.firstOccurrence pat s) as [[b a']|]; [|discriminate].
      intros [= <- <-]. simpl. f_equal. apply IH. reflexivity.
Qed.

Lemma firstOccurrence_none (pat s : string) :
  Str.firstOccurrence pat s = None -> ~ occursIn pat s.
Proof.
  induction s as [|a s IH]; simpl.
  - destruct (Heartbeat.startsWith "" pat) eqn:Hs; [discriminate|].
    intros _ (before & after & Heq).
    destruct before; [|discriminate]. simpl in Heq.
    assert (Heartbeat.startsWith "" pat = true); [|congruence].
    apply HeartbeatFacts.startsWith_iff. exists after. exact Heq.
  - destruct (Heartbeat.startsWith (String a s) pat) eqn:Hs; [discriminate|].
    destruct (Str.firstOccurrence pat s) as [[b a']|]; [discriminate|].
    intros _ (before & after & Heq). destruct before as [|c before].
    + simpl in Heq. assert (Heartbeat.startsWith (String a s) pat = true); [|congruence].
      apply HeartbeatFacts.startsWith_iff. exists after. exact Heq.
    + simpl in Heq. injection Heq as _ Heq. apply IH; [reflexivity|].
      exists before, after. exact Heq.
Qed.

Lemma firstOccurrence_some (pat s : string) :
  occursIn pat s -> exists before after, Str.firstOccurrence pat s = Some (before, after).
Proof.
  intros Hocc. destruct (Str.firstOccurrence pat s) as [[b a]|] eqn:Hf; [eauto|].
  exfalso. exact (firstOccurrence_none _ _ Hf Hocc).
Qed.

(** The occurrence found is the leftmost one: the pattern does not occur
    in what precedes the last character of that occurrence. *)
Lemma firstOccurrence_leftmost (pat s before after : string) :
  Str.firstOccurrence pat s = Some (before, after) ->
  forall b a, s = (b ++ pat ++ a)%string -> String.length before <= String.length b.
Proof.
  revert before. induction s as [|c s IH]; intros before; simpl.
  - destruct (Heartbeat.startsWith "" pat); [|discriminate].
    intros [= <- <-] b a _. simpl. lia.
  - destruct (Heartbeat.startsWith (String c s) pat) eqn:Hs.
    + intros [= <- <-] b a _. simpl. lia.
    + destruct (Str.firstOccurrence pat s) as [[b0 a0]|] eqn:Hf; [|discriminate].
      intros [= <- <-] b a Heq. destruct b as [|d b].
      * simpl in Heq. assert (Heartbeat.startsWith (String c s) pat = true); [|congruence].
        apply HeartbeatFacts.startsWith_iff. exists a. exact Heq.
      * simpl in Heq. injection Heq as _ Heq. simpl.
        pose proof (IH b0 eq_refl b a Heq). lia.
Qed.

Lemma length_app_string (s t : string) :
  String.length (s ++ t) = String.length s + String.length t.
Proof. induction s as [|a s IH]; simpl; [reflexivity|]. rewrite IH. reflexivity. Qed.

Lemma splitFuel_enough (pat : string) :
  pat <> "" ->
  forall fuel s,
    String.length s <= fuel ->
    Str.splitFuel fuel pat s =
    match Str.firstOccurrence pat s with
    | Some (before, after) => before :: Str.splitFuel (String.length after) pat after
    | None => [s]
    end.
Proof.
  intros Hpat fuel. induction fuel as [fuel IH] using lt_wf_ind. intros s Hlen.
  destruct fuel as [|fuel].
  - destruct s; [|simpl in Hlen; lia]. simpl.
    destruct (Heartbeat.startsWith "" pat) eqn:Hs; [|reflexivity].
    apply HeartbeatFacts.startsWith_iff in Hs as [rest Hrest].
    destruct pat; [contradiction|discriminate].
  - simpl. destruct (Str.firstOccurrence pat s) as [[before after]|] eqn:Hf; [|reflexivity].
    f_equal. pose proof (firstOccurrence_decomp _ _ _ _ Hf) as Hs.
    assert (Hshort : String.length after < String.length s).
    { rewrite Hs, !length_app_string. destruct pat; [contradiction|]. simpl. lia. }
    rewrite (IH fuel) by lia.
    destruct (String.length after) as [|n] eqn:Hn.
    + destruct after; [|discriminate]. simpl.
      destruct (Heartbeat.startsWith "" pat) eqn:Hs0; [|reflexivity].
      apply HeartbeatFacts.startsWith_iff in Hs0 as [rest Hrest].
      destruct pat; [contradiction|discriminate].
    + rewrite <- Hn. symmetry. rewrite Hn. rewrite (IH (S n)) by lia.
      reflexivity.
Qed.

Lemma split_cons (pat s : string) :
  pat <> "" ->
  Str.split pat s =
  match Str.firstOccurrence pat s with
  | Some (before, after) => before :: Str.split pat after
  | None => [s]
  end.
Proof.
  intros Hpat. unfold Str.split. destruct pat as [|c pat]; [contradiction|].
  rewrite splitFuel_enough by (exact Hpat || lia). reflexivity.
Qed.

Lemma getSubstitution_plain (matched before after replacement : string) :
  Str.includesChar "$" replacement = false ->
  Str.getSubstitution matched before after replacement = replacement.
Proof.
  induction replacement as [|c rest IH]; [reflexivity|].
  intros H. simpl in H. apply orb_false_iff in H as [Hc Hrest].
  cbn [Str.getSubstitution]. rewrite Hc, (IH Hrest). reflexivity.
Qed.

Section ToolFacts.

Variable FS : Type.
Variable expandUser : string -> string.
Variable existsSync : string -> FS -> bool.
Variable readFileSync : string -> FS -> Res string.
Variable writeFileSync : string -> string -> FS -> Res unit * FS.
Variable isEACCES : JsValue -> bool.

#[local] Abbreviation run :=
  (EditFileTool_execute FS expandUser existsSync readFileSync writeFileSync isEACCES).

(** X19: for a file that exists and can be read and a non-empty
    [old_text], the edit tool writes the file exactly when [old_text]
    occurs in it and does not occur again after its first occurrence; what
    it writes is the content with that first (leftmost) occurrence replaced
    by the substitution of [new_text], which is [new_text] itself when it
    holds no dollar sign.  When [old_text] does not occur, or occurs again
    later, the tool answers with an error or a warning and leaves the file
    system as it was. *)
Theorem edit_file_unique_occurrence (path old_text new_text content : string) (fs : FS) :
  existsSync (expandUser path) fs = true ->
  readFileSync (expandUser path) fs = Ok content ->
  old_text <> "" ->
  (~ occursIn old_text content -> run path old_text new_text fs = (notFoundText, fs)) /\
  (occursIn old_text content ->
   exists before after,
     content = (before ++ old_text ++ after)%string /\
     (forall b a, content = (b ++ old_text ++ a)%string ->
                  String.length before <= String.length b) /\
     (occursIn old_text after ->
      exists count, (1 < count)%Z /\
        run path old_text new_text fs = (ambiguousText count, fs)) /\
     (~ occursIn old_text after ->
      let written :=
        (before ++ Str.getSubstitution old_text before after new_text ++ after)%string in
      (Str.includesChar "$" new_text = false ->
       written = (before ++ new_text ++ after)%string) /\
      run path old_text new_text fs =
      match writeFileSync (expandUser path) written fs with
      | (Ok _, fs') => ("Successfully edited " ++ path, fs')%string
      | (Throw error, fs') => (editFailed isEACCES path error, fs')
      end)).
Proof.
  intros Hexists Hread Hpat. unfold EditFileTool_execute. rewrite Hexists, Hread. simpl.
  unfold Str.includes, occurrences, Str.replace. rewrite (split_cons _ _ Hpat). split.
  - intros Hno. destruct (Str.firstOccurrence old_text content) as [[b a]|] eqn:Hf;
      [|reflexivity].
    exfalso. apply Hno. exists b, a. exact (firstOccurrence_decomp _ _ _ _ Hf).
  - intros Hocc. destruct (firstOccurrence_some _ _ Hocc) as (before & after & Hf).
    rewrite Hf. simpl. exists before, after.
    split; [exact (firstOccurrence_decomp _ _ _ _ Hf)|].
    split; [exact (firstOccurrence_leftmost _ _ _ _ Hf)|].
    rewrite (split_cons _ _ Hpat). split.
    + intros Hagain. destruct (firstOccurrence_some _ _ Hagain) as (b2 & a2 & Hf2).
      rewrite Hf2. eexists. split; [|
        match goal with |- (if ?c then _ else _) = _ =>
          assert (Hc : c = true); [|rewrite Hc; reflexivity] end].
      * rewrite (split_cons _ a2 Hpat).
        destruct (Str.firstOccurrence old_text a2) as [[? ?]|]; rewrite !length_cons; lia.
      * apply Z.ltb_lt. rewrite (split_cons _ a2 Hpat).
        destruct (Str.firstOccurrence old_text a2) as [[? ?]|]; rewrite !length_cons; lia.
    + intros Hunique. cbv zeta. split.
      * intros Hplain. rewrite getSubstitution_plain by exact Hplain. reflexivity.
      * destruct (Str.firstOccurrence old_text after) as [[b2 a2]|] eqn:Hf2.
        -- exfalso. apply Hunique. exists b2, a2. exact (firstOccurrence_decomp _ _ _ _ Hf2).
        -- reflexivity.
Qed.

(** X20: the edit tool changes the file system only by its one call of
    [writeFileSync], made on the expanded path; it makes that call only for
    an existing, readable file in which [old_text] occurs and of which
    [split] counts at most one occurrence.  With an empty [old_text] that is
    the case exactly for files of at most two characters, at whose start
    the tool then inserts the substitution of [new_text]; longer files get
    the warning with a count one less than their length. *)
Theorem edit_file_writes_once (path old_text new_text : string) (fs : FS) :
  (snd (run path old_text new_text fs) = fs \/
   exists content written,
     existsSync (expandUser path) fs = true /\
     readFileSync (expandUser path) fs = Ok content /\
     Str.includes old_text content = true /\
     (occurrences old_text content <= 1)%Z /\
     snd (run path old_text new_text fs) =
       snd (writeFileSync (expandUser path) written fs)) /\
  (forall content,
     existsSync (expandUser path) fs = true ->
     readFileSync (expandUser path) fs = Ok content ->
     old_text = "" ->
     if String.length content <=? 2 then
       run path old_text new_text fs =
       match writeFileSync (expandUser path)
               (Str.getSubstitution "" "" content new_text ++ content)%string fs with
       | (Ok _, fs') => ("Successfully edited " ++ path, fs')%string
       | (Throw error, fs') => (editFailed isEACCES path error, fs')
       end
     else
       run path old_text new_text fs =
       (ambiguousText (Z.of_nat (String.length content) - 1), fs)).
Proof.
  split.
  - unfold EditFileTool_execute.
    destruct (existsSync (expandUser path) fs) eqn:Hexists; [|left; reflexivity]. simpl.
    destruct (readFileSync (expandUser path) fs) as [content|error] eqn:Hread;
      [|left; reflexivity].
    destruct (Str.includes old_text content) eqn:Hinc; [|left; reflexivity]. simpl.
    destruct (Z.ltb_spec 1 (occurrences old_text content)) as [Hmany|Hfew];
      [left; reflexivity|].
    right. exists content, (Str.replace old_text new_text content).
    repeat split; try assumption; try reflexivity.
    destruct (writeFileSync _ _ fs) as [[[]|error] fs']; reflexivity.
  - intros content Hexists Hread ->. unfold EditFileTool_execute.
    rewrite Hexists, Hread. simpl.
    assert (Hinc : Str.includes "" content = true).
    { unfold Str.includes. destruct content; reflexivity. }
    rewrite Hinc. simpl.
    assert (Hcount : occurrences "" content = (Z.of_nat (String.length content) - 1)%Z).
    { unfold occurrences, Str.split. rewrite length_map. f_equal. f_equal.
      clear. induction content as [|c content IH]; simpl; [reflexivity|].
      rewrite IH. reflexivity. }
    rewrite Hcount.
    assert (Hrep : Str.replace "" new_text content =
                   (Str.getSubstitution "" "" content new_text ++ content)%string).
    { unfold Str.replace. destruct content; reflexivity. }
    rewrite Hrep.
    destruct (Nat.leb_spec (String.length content) 2) as [Hle|Hgt].
    + destruct (Z.ltb_spec 1 (Z.of_nat (String.length content) - 1)) as [Hlt|_]; [lia|].
      reflexivity.
    + destruct (Z.ltb_spec 1 (Z.of_nat (String.length content) - 1)) as [_|Hge]; [|lia].
      reflexivity.
Qed.

End ToolFacts.

End FsToolsFacts.

(** ** The skills loader *)

Module SkillsFacts.

Import Skills.

#[local] Arguments String.append : simpl nomatch.

Local Open Scope nat_scope.
Local Open Scope list_scope.

Lemma join_nonempty (sep : string) (xs : list string) :
  Forall (fun x => x <> "") xs -> Str.join sep xs = "" -> xs = [].
Proof.
  intros Hall Hjoin. destruct xs as [|x xs]; [reflexivity|exfalso].
  apply Forall_cons in Hall as [Hx _]. unfold Str.join in Hjoin. simpl in Hjoin.
  destruct xs; [contradiction|]. destruct x; [contradiction|discriminate].
Qed.

Lemma escapeXml_cons (c : ascii) (s : string) :
  escapeXml (String c s) = (escapeChar c ++ escapeXml s)%string.
Proof.
  unfold escapeXml, escapeChar. cbn [Str.replaceAllChar].
  destruct (Ascii.eqb_spec c "&") as [->|Hamp]; [reflexivity|].
  cbn [Str.replaceAllChar].
  destruct (Ascii.eqb_spec c "<") as [->|Hlt]; [reflexivity|].
  cbn [Str.replaceAllChar].
  destruct (Ascii.eqb_spec c ">") as [->|Hgt]; reflexivity.
Qed.

Lemma escapeChar_cases (c : ascii) :
  (c = "&"%char /\ escapeChar c = "&amp;") \/
  (c = "<"%char /\ escapeChar c = "&lt;") \/
  (c = ">"%char /\ escapeChar c = "&gt;") \/
  (c <> "&"%char /\ c <> "<"%char /\ c <> ">"%char /\ escapeChar c = String c "").
Proof.
  unfold escapeChar.
  destruct (Ascii.eqb_spec c "&") as [->|Hamp]; [auto|].
  destruct (Ascii.eqb_spec c "<") as [->|Hlt]; [auto|].
  destruct (Ascii.eqb_spec c ">") as [->|Hgt]; [auto|]. auto 10.
Qed.

(** X25: [escapeXml] works as one pass over the text, although it is
    written as three successive replacements: every "&" becomes "&amp;",
    every "<" becomes "&lt;", every ">" becomes "&gt;" and every other
    character stays, so that an ampersand it has written is never escaped
    again.  Its result holds no "<" and no ">", and two different texts
    never get the same escaped text. *)
Theorem escapeXml_one_pass :
  escapeXml "" = "" /\
  (forall c s, escapeXml (String c s) = (escapeChar c ++ escapeXml s)%string) /\
  (forall s, Str.includesChar "<" (escapeXml s) = false /\
             Str.includesChar ">" (escapeXml s) = false) /\
  (forall s t, escapeXml s = escapeXml t -> s = t).
Proof.
  split; [reflexivity|]. split; [exact escapeXml_cons|]. split.
  - induction s as [|c s [IHlt IHgt]]; [split; reflexivity|].
    rewrite escapeXml_cons.
    destruct (escapeChar_cases c) as [[-> ->]|[[-> ->]|[[-> ->]|(Ha & Hl & Hg & ->)]]];
      simpl; rewrite ?IHlt, ?IHgt; try (split; reflexivity).
    apply Ascii.eqb_neq in Hl, Hg. rewrite Hl, Hg. split; reflexivity.
  - induction s as [|c s IH]; intros t Heq.
    + destruct t as [|d t]; [reflexivity|]. rewrite escapeXml_cons in Heq.
      destruct (escapeChar_cases d) as [[_ Hd]|[[_ Hd]|[[_ Hd]|(_ & _ & _ & Hd)]]];
        rewrite Hd in Heq; discriminate.
    + destruct t as [|d t]; rewrite !escapeXml_cons in Heq.
      * destruct (escapeChar_cases c) as [[_ Hc]|[[_ Hc]|[[_ Hc]|(_ & _ & _ & Hc)]]];
          rewrite Hc in Heq; discriminate.
      * destruct (escapeChar_cases c) as [[-> Hc]|[[-> Hc]|[[-> Hc]|(Hca & Hcl & Hcg & Hc)]]];
          destruct (escapeChar_cases d) as [[-> Hd]|[[-> Hd]|[[-> Hd]|(Hda & Hdl & Hdg & Hd)]]];
          rewrite ?Hc, ?Hd in Heq; simpl in Heq;
          try discriminate;
          try (injection Heq as Heq; f_equal; apply IH; exact Heq);
          try (injection Heq as Hcd Heq; congruence).
        injection Heq as Hcd Heq. subst d. f_equal. apply IH. exact Heq.
Qed.

Section LoaderFacts.

Variable join : string -> string -> string.
Variable existsSync : string -> bool.
Variable readdirSync : string -> Res (list string).
Variable statSync_isDirectory : string -> Res bool.
Variable readFileSync : string -> Res string.
Variable which : string -> bool.
Variable processEnv : string -> option string.
Variables workspaceSkills builtinSkills : string.

#[local] Abbreviation available := (checkRequirements which processEnv).
#[local] Abbreviation missingText := (getMissingRequirements which processEnv).
#[local] Abbreviation isSet := (envSet processEnv).

Lemma allPresent_forallb (present : string -> bool) (names : list string) :
  allPresent present names = forallb present names.
Proof.
  induction names as [|n names IH]; [reflexivity|]. simpl. rewrite IH.
  destruct (present n); reflexivity.
Qed.

Lemma pushMissing_filter (present : string -> bool) (prefix : string)
  (names missing : list string) :
  pushMissing present prefix names missing =
  missing ++ map (String.append prefix) (List.filter (fun n => negb (present n)) names).
Proof.
  revert missing. induction names as [|n names IH]; intros missing; simpl.
  - rewrite app_nil_r. reflexivity.
  - rewrite IH. destruct (present n); simpl; [reflexivity|].
    rewrite <- app_assoc. reflexivity.
Qed.

Lemma filter_nil_forallb (present : string -> bool) (names : list string) :
  List.filter (fun n => negb (present n)) names = [] <-> forallb present names = true.
Proof.
  induction names as [|n names IH]; simpl; [tauto|].
  destruct (present n); simpl; [exact IH|]. split; discriminate.
Qed.

(** X21: a skill is available exactly when every required program is
    found by [which] and every required environment variable is set and
    not empty, and exactly then the text of what is missing is empty.
    That text names, in order, each missing program as "CLI: <name>" and
    then each missing variable as "ENV: <name>", separated by ", ".  So in
    the summary a skill marked available="false" always comes with a
    [requires] line (six lines), and an available one never does (five
    lines). *)
Theorem requirements_and_missing (skillMeta : NanobotMetadata) :
  let r := default noRequires (requires skillMeta) in
  let programs := default [] (bins r) in
  let variables := default [] (env r) in
  (available skillMeta = true <->
   (forall b, In b programs -> which b = true) /\
   (forall v, In v variables -> exists value, processEnv v = Some value /\ value <> "")) /\
  (available skillMeta = true <-> missingText skillMeta = "") /\
  missingText skillMeta =
    Str.join ", "
      (map (String.append "CLI: ") (List.filter (fun b => negb (which b)) programs) ++
       map (String.append "ENV: ") (List.filter (fun v => negb (isSet v)) variables)) /\
  (forall skill description,
     length (skillLines which processEnv skill description skillMeta) =
     if available skillMeta then 5 else 6).
Proof.
  cbv zeta.
  set (programs := default [] (bins (default noRequires (requires skillMeta)))).
  set (variables := default [] (env (default noRequires (requires skillMeta)))).
  assert (Hmissing : missingText skillMeta =
    Str.join ", "
      (map (String.append "CLI: ") (List.filter (fun b => negb (which b)) programs) ++
       map (String.append "ENV: ") (List.filter (fun v => negb (isSet v)) variables))).
  { unfold getMissingRequirements. fold programs variables.
    rewrite !pushMissing_filter. reflexivity. }
  assert (Havail : available skillMeta = forallb which programs && forallb isSet variables).
  { unfold checkRequirements. fold programs variables. rewrite !allPresent_forallb.
    destruct (forallb which programs), (forallb isSet variables); reflexivity. }
  assert (Hiff : available skillMeta = true <-> missingText skillMeta = "").
  { rewrite Hmissing, Havail, andb_true_iff, <- !filter_nil_forallb. split.
    - intros [-> ->]. reflexivity.
    - intros Hjoin. apply join_nonempty in Hjoin.
      + apply app_eq_nil in Hjoin as [H1 H2]. apply map_eq_nil in H1, H2. auto.
      + apply Forall_app. split; apply Forall_forall; intros x Hx;
          apply list_elem_of_In, in_map_iff in Hx as (n & <- & _); discriminate. }
  split; [|split; [exact Hiff|split; [exact Hmissing|]]].
  - rewrite Havail, andb_true_iff, !forallb_forall. apply and_iff_compat_l.
    split; intros H v Hv; specialize (H v Hv); unfold envSet, truthyOptStr in *.
    + destruct (processEnv v) as [value|]; [|discriminate].
      exists value. split; [reflexivity|]. apply ChannelFacts.truthyStr_ne. exact H.
    + destruct H as (value & -> & Hne). apply ChannelFacts.truthyStr_ne. exact Hne.
  - intros skill description. unfold skillLines.
    destruct (available skillMeta) eqn:Ha; [reflexivity|]. simpl negb. cbv iota.
    destruct (truthyStr (missingText skillMeta)) eqn:Ht; [reflexivity|].
    exfalso. unfold truthyStr in Ht. apply negb_false_iff, String.eqb_eq in Ht.
    apply Hiff in Ht. congruence.
Qed.

Variable matter_data : string -> Res SkillMetadata.
Variable parseNanobotMetadata : string -> NanobotMetadata.

#[local] Abbreviation scanW := (scanWorkspace join existsSync statSync_isDirectory workspaceSkills).
#[local] Abbreviation scanB := (scanBuiltin join existsSync statSync_isDirectory builtinSkills).
#[local] Abbreviation listAll :=
  (listSkills join existsSync readdirSync statSync_isDirectory readFileSync which processEnv
     matter_data parseNanobotMetadata workspaceSkills builtinSkills).
#[local] Abbreviation load := (loadSkill join existsSync readFileSync workspaceSkills builtinSkills).

#[local] Abbreviation fileOf := (Skills.fileOf join).
#[local] Abbreviation isSkillDir := (Skills.isSkillDir join existsSync statSync_isDirectory).

Lemma named_app (skills more : list SkillInfo) (name : string) :
  named (skills ++ more) name = named skills name || named more name.
Proof. unfold named. apply existsb_app. Qed.

Lemma scanWorkspace_ok (names : list string) (skills : list SkillInfo) :
  (forall name, In name names -> exists b, statSync_isDirectory (join workspaceSkills name) = Ok b) ->
  scanW names skills =
  Ok (skills ++ map (fun name => mkSkill name (fileOf workspaceSkills name) workspace)
                    (List.filter (isSkillDir workspaceSkills) names)).
Proof.
  revert skills. induction names as [|name names IH]; intros skills Hstat.
  - simpl. rewrite app_nil_r. reflexivity.
  - cbn [scanWorkspace List.filter]. unfold Skills.isSkillDir at 1.
    destruct (Hstat name (or_introl eq_refl)) as [b Hb]. rewrite Hb. simpl res_bind.
    assert (Hrest : forall n, In n names ->
                      exists b, statSync_isDirectory (join workspaceSkills n) = Ok b).
    { intros n Hn. apply Hstat. right. exact Hn. }
    destruct b; [|apply IH; exact Hrest].
    fold (fileOf workspaceSkills name).
    destruct (existsSync (fileOf workspaceSkills name)); [|apply IH; exact Hrest].
    rewrite IH by exact Hrest. simpl. rewrite <- app_assoc. reflexivity.
Qed.

Lemma scanBuiltin_ok (names : list string) (skills : list SkillInfo) :
  List.NoDup names ->
  (forall name, In name names -> exists b, statSync_isDirectory (join builtinSkills name) = Ok b) ->
  scanB names skills =
  Ok (skills ++ map (fun name => mkSkill name (fileOf builtinSkills name) builtin)
                    (List.filter (fun name => isSkillDir builtinSkills name &&
                                              negb (named skills name)) names)).
Proof.
  revert skills. induction names as [|name names IH]; intros skills Hnodup Hstat.
  - simpl. rewrite app_nil_r. reflexivity.
  - cbn [scanBuiltin List.filter]. unfold Skills.isSkillDir at 1.
    destruct (Hstat name (or_introl eq_refl)) as [b Hb]. rewrite Hb. simpl res_bind.
    apply List.NoDup_cons_iff in Hnodup as [Hfresh Hnodup].
    assert (Hrest : forall n, In n names ->
                      exists b, statSync_isDirectory (join builtinSkills n) = Ok b).
    { intros n Hn. apply Hstat. right. exact Hn. }
    destruct b; [|apply IH; assumption].
    fold (fileOf builtinSkills name). fold (named skills name).
    destruct (existsSync (fileOf builtinSkills name) && negb (named skills name)) eqn:Hpush;
      [|apply IH; assumption].
    rewrite IH by assumption. simpl. rewrite <- app_assoc. simpl. do 4 f_equal.
    apply List.filter_ext_in. intros n Hn. rewrite named_app. simpl.
    destruct (String.eqb_spec name n) as [->|_]; [contradiction|].
    rewrite !orb_false_r. reflexivity.
Qed.

(** X22: when the directory entries can be examined, [listSkills(false)]
    returns the skills of the workspace followed by the built-in skills
    whose name no listed workspace skill bears, each name once.  For a
    workspace skill listed, [loadSkill(name)] reads the very file given as
    its [path].  For a built-in skill listed it reads that file too,
    unless a [SKILL.md] exists at the workspace path of that name, which
    the workspace directory then does not list as a skill under that name
    (as on a file system that ignores case): [loadSkill] then reads the
    workspace file and not the path listed. *)
Theorem listSkills_agrees_with_loadSkill (wsNames biNames : list string) :
  (if existsSync workspaceSkills then readdirSync workspaceSkills else Ok []) = Ok wsNames ->
  (if existsSync builtinSkills then readdirSync builtinSkills else Ok []) = Ok biNames ->
  List.NoDup wsNames -> List.NoDup biNames ->
  (forall name, In name wsNames ->
     exists b, statSync_isDirectory (join workspaceSkills name) = Ok b) ->
  (forall name, In name biNames ->
     exists b, statSync_isDirectory (join builtinSkills name) = Ok b) ->
  exists skills,
    listAll false = Ok skills /\
    List.NoDup (map skill_name skills) /\
    (forall name,
       In name (map skill_name skills) <->
       (In name wsNames /\ isSkillDir workspaceSkills name = true) \/
       (In name biNames /\ isSkillDir builtinSkills name = true)) /\
    (forall s, In s skills ->
       existsSync (skill_path s) = true /\
       (skill_source s = workspace ->
        skill_path s = fileOf workspaceSkills (skill_name s) /\
        load (skill_name s) = res_bind (readFileSync (skill_path s)) (fun c => Ok (Some c))) /\
       (skill_source s = builtin ->
        skill_path s = fileOf builtinSkills (skill_name s) /\
        ~ (In (skill_name s) wsNames /\ isSkillDir workspaceSkills (skill_name s) = true) /\
        load (skill_name s) =
          res_bind (readFileSync
                      (if existsSync (fileOf workspaceSkills (skill_name s))
                       then fileOf workspaceSkills (skill_name s)
                       else skill_path s))
                   (fun c => Ok (Some c)))).
Proof.
  intros Hws Hbi Hnw Hnb Hsw Hsb.
  set (wsSkills := map (fun name => mkSkill name (fileOf workspaceSkills name) workspace)
                       (List.filter (isSkillDir workspaceSkills) wsNames)).
  set (biSkills := map (fun name => mkSkill name (fileOf builtinSkills name) builtin)
                       (List.filter (fun name => isSkillDir builtinSkills name &&
                                                 negb (named wsSkills name)) biNames)).
  assert (Hnamed : forall name,
            named wsSkills name = true <->
            In name wsNames /\ isSkillDir workspaceSkills name = true).
  { intros name. unfold named, wsSkills. rewrite existsb_exists. split.
    - intros (s & Hs & Heq). apply in_map_iff in Hs as (n & <- & Hn).
      apply String.eqb_eq in Heq. simpl in Heq. subst n. apply filter_In in Hn. exact Hn.
    - intros Hn. exists (mkSkill name (fileOf workspaceSkills name) workspace).
      split; [|apply String.eqb_refl]. apply in_map_iff. exists name.
      split; [reflexivity|]. apply filter_In. exact Hn. }
  assert (Hlist : listAll false = Ok (wsSkills ++ biSkills)).
  { unfold listSkills.
    assert (H1 : (if existsSync workspaceSkills
                  then res_bind (readdirSync workspaceSkills) (fun names => scanW names [])
                  else Ok []) = Ok wsSkills).
    { destruct (existsSync workspaceSkills).
      - rewrite Hws. simpl. rewrite scanWorkspace_ok by exact Hsw. reflexivity.
      - injection Hws as <-. reflexivity. }
    rewrite H1. simpl res_bind.
    assert (H2 : (if existsSync builtinSkills
                  then res_bind (readdirSync builtinSkills) (fun names => scanB names wsSkills)
                  else Ok wsSkills) = Ok (wsSkills ++ biSkills)).
    { destruct (existsSync builtinSkills).
      - rewrite Hbi. simpl. rewrite scanBuiltin_ok by assumption. reflexivity.
      - injection Hbi as <-. unfold biSkills. simpl. rewrite app_nil_r. reflexivity. }
    rewrite H2. reflexivity. }
  assert (Hisdir : forall dir name, isSkillDir dir name = true ->
                                    existsSync (fileOf dir name) = true).
  { intros dir name. unfold Skills.isSkillDir.
    destruct (statSync_isDirectory (join dir name)) as [[]|]; intros H;
      [exact H|discriminate|discriminate]. }
  exists (wsSkills ++ biSkills). split; [exact Hlist|]. split; [|split].
  - rewrite map_app. apply List.NoDup_app.
    + unfold wsSkills. rewrite map_map. simpl. rewrite map_id.
      apply List.NoDup_filter. exact Hnw.
    + unfold biSkills. rewrite map_map. simpl. rewrite map_id.
      apply List.NoDup_filter. exact Hnb.
    + intros name Hw Hb. unfold biSkills in Hb. rewrite map_map in Hb. simpl in Hb.
      rewrite map_id in Hb. apply filter_In in Hb as [_ Hb].
      apply andb_true_iff in Hb as [_ Hb]. apply negb_true_iff in Hb.
      assert (named wsSkills name = true); [|congruence].
      apply Hnamed. unfold wsSkills in Hw. rewrite map_map in Hw. simpl in Hw.
      rewrite map_id in Hw. apply filter_In in Hw. exact Hw.
  - intros name. rewrite map_app, in_app_iff. unfold wsSkills at 1, biSkills.
    rewrite !map_map. simpl. rewrite !map_id, !filter_In, andb_true_iff, negb_true_iff.
    split.
    + intros [H|(Hin & Hdir & _)]; [left; exact H|right; auto].
    + intros [H|[Hin Hdir]]; [left; exact H|].
      destruct (named wsSkills name) eqn:Hn; [left; apply Hnamed; exact Hn|right; auto].
  - intros s Hs. apply in_app_iff in Hs as [Hs|Hs].
    + unfold wsSkills in Hs. apply in_map_iff in Hs as (name & <- & Hn).
      apply filter_In in Hn as [Hin Hdir]. simpl.
      pose proof (Hisdir _ _ Hdir) as Hfile.
      split; [exact Hfile|]. split; [|discriminate].
      intros _. split; [reflexivity|].
      unfold loadSkill. fold (fileOf workspaceSkills name). rewrite Hfile. reflexivity.
    + unfold biSkills in Hs. apply in_map_iff in Hs as (name & <- & Hn).
      apply filter_In in Hn as [Hin Hcond]. apply andb_true_iff in Hcond as [Hdir Hfree].
      apply negb_true_iff in Hfree. simpl.
      pose proof (Hisdir _ _ Hdir) as Hfile.
      split; [exact Hfile|]. split; [discriminate|].
      intros _. split; [reflexivity|]. split.
      * intros Hlisted. apply Hnamed in Hlisted. congruence.
      * unfold loadSkill. fold (fileOf workspaceSkills name); fold (fileOf builtinSkills name).
        destruct (existsSync (fileOf workspaceSkills name)); [reflexivity|].
        rewrite Hfile. reflexivity.
Qed.

End LoaderFacts.

End SkillsFacts.

(** ** The Feishu channel *)

Module FeishuFacts.

Import Subagent Feishu.

Lemma orElse_nonempty (a : option string) (b : string) : b <> "" -> orElse a b <> "".
Proof.
  intros Hb. unfold orElse. destruct a as [x|]; simpl; [|exact Hb].
  destruct (truthyStr x) eqn:Hx; [|exact Hb]. apply ChannelFacts.truthyStr_ne. exact Hx.
Qed.

Lemma ofJson_other (j j' : Json) : ofJson j = Other j' -> j' = j /\ forall s, j <> JStr s.
Proof.
  destruct j; simpl; intros [= <-]; split; try reflexivity; intros s'; discriminate.
Qed.

Section OnMessageFacts.

Variable parsedText : option string -> Res (option Json).

(** What is forwarded is never falsy; it is no string only for a text
    message whose [text] is a truthy value of another type. *)
Lemma contentOf_cases (m : Message) :
  (exists t, contentOf parsedText m = Text t /\ t <> "") \/
  (exists j, contentOf parsedText m = Other j /\
             message_type m = Some "text" /\
             parsedText (message_content m) = Ok (Some j) /\
             truthyJson (Some j) = true /\ forall s, j <> JStr s).
Proof.
  unfold contentOf. case_bool_decide as Htext.
  - unfold textContent.
    destruct (parsedText (message_content m)) as [text|e] eqn:Hparse.
    + destruct (truthyJson text) eqn:Htruthy.
      * destruct text as [j|]; [|discriminate]. simpl default.
        destruct (ofJson j) as [t|j'] eqn:Hj.
        -- left. destruct j; try discriminate. injection Hj as <-.
           simpl in Htruthy. simpl. rewrite Htruthy. simpl. exists s.
           split; [reflexivity|]. apply ChannelFacts.truthyStr_ne. exact Htruthy.
        -- right. apply ofJson_other in Hj as [-> Hns]. exists j.
           unfold truthyContent. rewrite Htruthy. simpl. auto.
      * left. simpl. eexists. split; [reflexivity|discriminate].
    + simpl truthyContent.
      destruct (truthyStr (orElse (message_content m) "")) eqn:Hc; simpl.
      * left. eexists. split; [reflexivity|]. apply ChannelFacts.truthyStr_ne. exact Hc.
      * left. eexists. split; [reflexivity|discriminate].
  - left. destruct (if bool_decide (message_type m = Some "image") then _ else _)
      as [content contentParts].
    cbv zeta.
    match goal with |- context [if negb (truthyStr ?c) then _ else _] =>
      destruct (truthyStr c) eqn:Hc end; simpl.
    + eexists. split; [reflexivity|]. apply ChannelFacts.truthyStr_ne. exact Hc.
    + eexists. split; [reflexivity|discriminate].
Qed.

(** X23: the Feishu channel hands nothing to [handleMessage] for an event
    without message or sender, for a message sent by an app (the bot
    itself), for a sender the allow list does not admit and for a text
    message whose [text] is a truthy value that is neither a string nor an
    array (the [slice] call made for the log entry throws).  For every
    other event it calls [handleMessage] once, with a sender id and a chat
    id that are never empty (the sender falls back to "unknown", the chat
    to the sender) and a content that is a non-empty string (a placeholder
    when the message has none) or, for a text message whose [text] is an
    array, that array.  With a string content the call publishes exactly
    one inbound message on channel "feishu" that carries these three
    values. *)
Theorem feishu_publishes_wellformed (allowFrom : option (list string)) (now : Z)
  (event : Event) (bus : Bus.MessageBus) :
  (message event = None \/ sender event = None ->
   onMessage parsedText allowFrom event = None) /\
  (forall m s,
     message event = Some m -> sender event = Some s ->
     let senderId := senderIdOf s in
     let chatId := orElse (chat_id m) senderId in
     (sender_type s = Some "app" \/ Channel.isAllowed allowFrom senderId = false ->
      onMessage parsedText allowFrom event = None) /\
     (sender_type s <> Some "app" -> Channel.isAllowed allowFrom senderId = true ->
      senderId <> "" /\ chatId <> "" /\
      ((exists t,
          contentOf parsedText m = Text t /\ t <> "" /\
          onMessage parsedText allowFrom event = Some (mkForward senderId chatId (Text t)) /\
          Channel.handleMessage "feishu" allowFrom now senderId chatId t (Some []) bus =
          Bus.publishInbound
            {| channel := "feishu"; senderId := senderId; chatId := chatId; content := t;
               timestamp := now; media := [] |} bus) \/
       (exists j,
          contentOf parsedText m = Other j /\
          message_type m = Some "text" /\
          parsedText (message_content m) = Ok (Some j) /\
          truthyJson (Some j) = true /\ (forall t, j <> JStr t) /\
          onMessage parsedText allowFrom event =
            match j with
            | JArr _ => Some (mkForward senderId chatId (Other j))
            | _ => None
            end)))).
Proof.
  unfold onMessage. split.
  - intros [-> | ->]; [reflexivity|]. destruct (message event); reflexivity.
  - intros m s -> ->. cbv zeta. split.
    + intros [Happ|Hno].
      * rewrite bool_decide_eq_true_2 by exact Happ. reflexivity.
      * case_bool_decide; [reflexivity|]. rewrite Hno. reflexivity.
    + intros Happ Hyes. rewrite bool_decide_eq_false_2 by exact Happ.
      rewrite Hyes. simpl negb. cbv iota.
      assert (Hs : senderIdOf s <> "").
      { unfold senderIdOf. apply orElse_nonempty, orElse_nonempty. discriminate. }
      split; [exact Hs|]. split; [apply orElse_nonempty; exact Hs|].
      destruct (contentOf_cases m) as [(t & Hc & Ht)|(j & Hc & Hty & Hp & Htr & Hns)].
      * left. exists t. rewrite Hc. simpl. split; [reflexivity|]. split; [exact Ht|].
        split; [reflexivity|]. unfold Channel.handleMessage. rewrite Hyes. reflexivity.
      * right. exists j. rewrite Hc. repeat (split; [assumption || reflexivity|]).
        destruct j; reflexivity.
Qed.

End OnMessageFacts.

End FeishuFacts.

(** ** What a subagent reports *)

Module SubagentResultFacts.

Import Subagent.

Local Open Scope nat_scope.
Local Open Scope list_scope.

Section ResultFacts.

Variables (Args Env : Type).
Variable provider_chat : list (CoreMessage Args) -> Res (LLMResponse Args).
Variable hasToolCalls : LLMResponse Args -> bool.
Variable tools_execute : string -> Args -> Env -> string * Env.
Variable buildSubagentPrompt : string -> string.

#[local] Abbreviation loop :=
  (agentLoop Args Env provider_chat hasToolCalls tools_execute).
#[local] Abbreviation runWith :=
  (runSubagent Args Env provider_chat hasToolCalls tools_execute buildSubagentPrompt).

Lemma executeTools_extends (calls : list (ToolCallRequest Args))
  (msgs : list (CoreMessage Args)) (e : Env) :
  exists more,
    fst (executeTools Args Env tools_execute calls msgs e) = msgs ++ more /\
    length more = length calls.
Proof.
  revert msgs e. induction calls as [|call calls IH]; intros msgs e.
  - exists []. simpl. rewrite app_nil_r. auto.
  - simpl. destruct (tools_execute (tc_name Args call) (tc_arguments Args call) e)
      as [result e'].
    destruct (IH (msgs ++ [ToolMessage Args
                             [ToolResultPart Args (tc_id Args call) (tc_name Args call) result]])
                 e') as (more & Hmore & Hlen).
    eexists. rewrite Hmore, <- app_assoc. split; [reflexivity|]. simpl. rewrite Hlen.
    reflexivity.
Qed.

(** How the loop has ended: on an exception of the model, on an answer
    without tool calls, or at the ceiling. *)
Lemma agentLoop_outcome (start : list (CoreMessage Args)) (fuel : nat) :
  forall st r st',
    loop fuel st = Some (r, st') ->
    (exists more, messages Args Env st = start ++ more) ->
    match r with
    | Throw e =>
        exists msgs more, msgs = start ++ more /\ provider_chat msgs = Throw e
    | Ok _ =>
        (exists msgs more response,
           msgs = start ++ more /\ provider_chat msgs = Ok response /\
           hasToolCalls response = false /\
           finalResult Args Env st' = response_content Args response) \/
        (maxIterations <= iteration Args Env st' /\
         finalResult Args Env st' = finalResult Args Env st)
    end.
Proof.
  induction fuel as [|fuel IH]; intros st r st' Hrun (more & Hmore); simpl in Hrun.
  - destruct (iteration Args Env st <? maxIterations) eqn:Hlt; [discriminate|].
    injection Hrun as <- <-. right. apply Nat.ltb_ge in Hlt. auto.
  - destruct (iteration Args Env st <? maxIterations) eqn:Hlt.
    + destruct (provider_chat (messages Args Env st)) as [response|e] eqn:Hchat.
      * destruct (hasToolCalls response) eqn:Hcalls.
        -- destruct (executeTools Args Env tools_execute _ _ _) as [msgs' e'] eqn:Ht.
           destruct (executeTools_extends (toolCalls Args response)
                       (messages Args Env st ++
                        [AssistantMessage Args (assistantParts Args response)]) (env Args Env st))
             as (more' & Hext & _).
           rewrite Ht in Hext. simpl in Hext.
           specialize (IH _ r st' Hrun). simpl in IH.
           assert (Hpre : exists more0, msgs' = start ++ more0).
           { rewrite Hext, Hmore, <- !app_assoc. eauto. }
           specialize (IH Hpre). destruct r as [[]|e0]; exact IH.
        -- injection Hrun as <- <-. left. exists (messages Args Env st), more, response.
           auto.
      * injection Hrun as <- <-. exists (messages Args Env st), more. auto.
    + injection Hrun as <- <-. right. apply Nat.ltb_ge in Hlt. auto.
Qed.


End ResultFacts.

End SubagentResultFacts.

(** ** The theorems on concrete cases *)

Module BusCaseFacts.

Import Subagent Bus Channel BusCases.

Local Open Scope nat_scope.
Local Open Scope list_scope.


Lemma dispatch_delivers_in_order_witness :
  AsyncQueue.resolvers (outbound newMessageBus) = [] /\
  length (AsyncQueue.queue (outbound newMessageBus)) +
    length [toTelegram; toSlack; toFeishu] < 4 /\
  exists p b',
    dispatchOutbound firstFails 4
      (publishAll [toTelegram; toSlack; toFeishu]
         (subscribeAll threeSubscriptions newMessageBus)) = (Awaiting p, b') /\
    notified b' = [(1, toTelegram); (3, toTelegram); (2, toFeishu)] /\
    outboundSize b' = 0.
Proof.
  split; [reflexivity|]. split; [simpl; lia|].
  destruct (BusFacts.dispatch_delivers_in_order firstFails threeSubscriptions
              [toTelegram; toSlack; toFeishu] newMessageBus 4)
    as (p & b' & Hrun & Hnot & Hsize & _); [reflexivity|simpl; lia|].
  exists p, b'. split; [exact Hrun|]. split; [|exact Hsize].
  rewrite Hnot. reflexivity.
Defined.

Lemma getSessionKey_injective_witness :
  hasColon (channel fromTelegram) = false /\
  hasColon (channel fromTelegramLater) = false /\
  getSessionKey fromTelegram = getSessionKey fromTelegramLater /\
  channel fromTelegram = channel fromTelegramLater /\ chatId fromTelegram = chatId fromTelegramLater.
Proof.
  split; [reflexivity|]. split; [reflexivity|]. split; [reflexivity|].
  exact (BusFacts.getSessionKey_injective fromTelegram fromTelegramLater eq_refl eq_refl eq_refl).
Defined.

Lemma handleMessage_gate_witness :
  admits (default [] allowList) "wx|1001|x" /\
  inboundSize (handleMessage "feishu" allowList 7 "wx|1001|x" "oc_1" "hi" None newMessageBus)
  = 1.
Proof.
  assert (Hadmits : admits (default [] allowList) "wx|1001|x").
  { right. exists "1001". split; [|split; [discriminate|]].
    - simpl. apply list_elem_of_In. simpl. auto.
    - apply list_elem_of_In. simpl. auto. }
  split; [exact Hadmits|].
  destruct (ChannelFacts.handleMessage_gate "feishu" allowList 7 "wx|1001|x" "oc_1" "hi" None
              newMessageBus) as [Hin _].
  rewrite (Hin (or_intror Hadmits)). reflexivity.
Defined.

Lemma feishu_publishes_wellformed_witness :
  Feishu.onMessage textOf allowList (fromAlice helloJson) =
    Some (Feishu.mkForward "alice" "oc_1" (Feishu.Text "hello")) /\
  Feishu.onMessage textOf allowList (fromAlice numberJson) = None.
Proof.
  split.
  - destruct (FeishuFacts.feishu_publishes_wellformed textOf allowList 0
                (fromAlice helloJson) newMessageBus) as [_ Hcase].
    destruct (Hcase _ _ eq_refl eq_refl) as [_ Hpub].
    destruct (Hpub ltac:(discriminate) eq_refl)
      as (_ & _ & [(t & Hc & _ & Hon & _)|(j & Hc & _)]).
    + vm_compute in Hc. injection Hc as <-. exact Hon.
    + vm_compute in Hc. discriminate Hc.
  - destruct (FeishuFacts.feishu_publishes_wellformed textOf allowList 0
                (fromAlice numberJson) newMessageBus) as [_ Hcase].
    destruct (Hcase _ _ eq_refl eq_refl) as [_ Hpub].
    destruct (Hpub ltac:(discriminate) eq_refl)
      as (_ & _ & [(t & Hc & _)|(j & Hc & _ & _ & _ & _ & Hon)]).
    + vm_compute in Hc. discriminate Hc.
    + vm_compute in Hc. injection Hc as <-. exact Hon.
Defined.

End BusCaseFacts.

Module SpawnCaseFacts.

Import Subagent Spawn SpawnCases.

Local Open Scope nat_scope.
Local Open Scope list_scope.


End SpawnCaseFacts.

Module ToolCaseFacts.

Import FsTools FsCases Skills SkillsCases.

Local Open Scope list_scope.

Lemma edit_file_unique_occurrence_witness :
  files_exists "notes.txt" notes = true /\
  files_read "notes.txt" notes = Ok "alpha beta gamma" /\
  "beta" <> "" /\
  exists before after,
    "alpha beta gamma" = (before ++ "beta" ++ after)%string /\
    (~ occursIn "beta" after ->
     edit_file "notes.txt" "beta" "delta" notes =
     ("Successfully edited notes.txt",
      <["notes.txt" := (before ++ "delta" ++ after)%string]> notes)).
Proof.
  split; [reflexivity|]. split; [reflexivity|]. split; [discriminate|].
  destruct (FsToolsFacts.edit_file_unique_occurrence Files (fun path => path) files_exists
              files_read files_write (fun _ => false)
              "notes.txt" "beta" "delta" "alpha beta gamma" notes eq_refl eq_refl)
    as [_ Hocc]; [discriminate|].
  destruct Hocc as (before & after & Hdecomp & _ & _ & Hunique).
  { exists "alpha ", " gamma". reflexivity. }
  exists before, after. split; [exact Hdecomp|].
  intros Hno. destruct (Hunique Hno) as [Hplain Hrun].
  unfold edit_file. rewrite Hrun, (Hplain eq_refl). reflexivity.
Defined.

Lemma listSkills_agrees_with_loadSkill_witness :
  exists skills,
    listSkills pathJoin present entries isDir fileText (fun _ => true) (fun _ => None)
      noFrontMatter noMetadata "/w/skills" "/app/skills" false = Ok skills /\
    List.NoDup (map skill_name skills) /\
    forall s, In s skills ->
      loadSkill pathJoin present fileText "/w/skills" "/app/skills" (skill_name s) =
      res_bind (fileText (skill_path s)) (fun c => Ok (Some c)).
Proof.
  destruct (SkillsFacts.listSkills_agrees_with_loadSkill pathJoin present entries isDir
              fileText (fun _ => true) (fun _ => None) "/w/skills" "/app/skills"
              noFrontMatter noMetadata ["git"; "notes.txt"] ["git"; "summarize"])
    as (skills & Hlist & Hnodup & _ & Hload).
  - reflexivity.
  - reflexivity.
  - repeat constructor; simpl; intuition discriminate.
  - repeat constructor; simpl; intuition discriminate.
  - intros name _. eexists. reflexivity.
  - intros name _. eexists. reflexivity.
  - exists skills. split; [exact Hlist|]. split; [exact Hnodup|].
    intros s Hs. destruct (Hload s Hs) as (_ & Hw & Hb).
    assert (Hskills : skills =
              [mkSkill "git" "/w/skills/git/SKILL.md" workspace;
               mkSkill "summarize" "/app/skills/summarize/SKILL.md" builtin]).
    { vm_compute in Hlist. injection Hlist as <-. reflexivity. }
    rewrite Hskills in Hs. destruct Hs as [<-|[<-|[]]].
    + exact (proj2 (Hw eq_refl)).
    + destruct (Hb eq_refl) as (_ & _ & Hread). exact Hread.
Defined.

(** Where the two disagree: the workspace directory lists [Git], and the
    file system, which ignores case, also finds [git/SKILL.md] there.  The
    listing gives the built-in path for [git]; [loadSkill] reads the
    workspace file. *)
Example loadSkill_ignoring_case :
  listSkills pathJoin presentIgnoringCase entriesIgnoringCase isDirIgnoringCase fileText
    (fun _ => true) (fun _ => None) noFrontMatter noMetadata "/w/skills" "/app/skills" false =
  Ok [mkSkill "Git" "/w/skills/Git/SKILL.md" workspace;
      mkSkill "git" "/app/skills/git/SKILL.md" builtin] /\
  loadSkill pathJoin presentIgnoringCase fileText "/w/skills" "/app/skills" "git" =
  Ok (Some "# /w/skills/git/SKILL.md").
Proof. split; reflexivity. Qed.

Example listSkills_shadowing :
  listSkills pathJoin present entries isDir fileText (fun _ => true) (fun _ => None)
    noFrontMatter noMetadata "/w/skills" "/app/skills" false =
  Ok [mkSkill "git" "/w/skills/git/SKILL.md" workspace;
      mkSkill "summarize" "/app/skills/summarize/SKILL.md" builtin].
Proof. reflexivity. Qed.

Example edit_file_twice :
  fst (edit_file "notes.txt" "a" "o" FsCases.notes) =
  "Warning: old_text appears 5 times. Please provide more context to make it unique.".
Proof. reflexivity. Qed.

End ToolCaseFacts.
